(** * WCS header parser of astrometry-go-client (internal/solver/result.go)

    A shallow embedding of [ParseWCSFile]: the 80-byte record reader that
    fills the header map, the coordinate transform with its primary and
    fallback paths, the field-dimension derivation and the final validity
    check, together with the properties the specification states about them.

    Besides the parser the file embeds its caller, the end of [Client.Solve]
    with [collectOutputFiles], [buildSolveArgs] and [NewClient]
    (internal/solver/solver.go), and of package fov the camera detection
    ([toUpper], [contains], [detectSensor]) and the choice of index files,
    with further properties of all of them.

    Go's [float64] is IEEE-754 binary64; every arithmetic operation is rounded
    on its own (no fused multiply-add), as the gc compiler does on amd64.
    Go strings are byte strings and are modelled by [string]. *)

From Stdlib Require Import ZArith Bool Lia List.
From Stdlib Require Import Strings.Ascii Strings.String.
From Stdlib Require Import DecimalString.
From Stdlib Require Import Floats.SpecFloat.
From stdpp Require Import base strings gmap.

Local Open Scope Z_scope.

(** ** float64: IEEE-754 binary64 *)

Module F64.

Definition prec : Z := 53.
Definition emax : Z := 1024.

Definition float64 : Type := spec_float.

Definition add : float64 -> float64 -> float64 := SFadd prec emax.
Definition sub : float64 -> float64 -> float64 := SFsub prec emax.
Definition mul : float64 -> float64 -> float64 := SFmul prec emax.
Definition div : float64 -> float64 -> float64 := SFdiv prec emax.
Definition neg : float64 -> float64 := SFopp.
(** math.Sqrt *)
Definition sqrt : float64 -> float64 := SFsqrt prec emax.

(** Go's comparison operators on float64: every comparison with a NaN is
    false, except [!=] which is true. *)
Definition eqb : float64 -> float64 -> bool := SFeqb.
Definition ltb : float64 -> float64 -> bool := SFltb.
Definition leb : float64 -> float64 -> bool := SFleb.
Definition gtb (x y : float64) : bool := ltb y x.
Definition geb (x y : float64) : bool := leb y x.
Definition neqb (x y : float64) : bool := negb (eqb x y).

(** The float64 nearest to an integer constant. *)
Definition of_Z (n : Z) : float64 := binary_normalize prec emax n 0 false.

Definition zero : float64 := S754_zero false.
Definition nan : float64 := S754_nan.

(** The constants of result.go. *)
Definition c2 : float64 := Eval vm_compute in of_Z 2.
Definition c180 : float64 := Eval vm_compute in of_Z 180.
Definition c360 : float64 := Eval vm_compute in of_Z 360.
Definition c3600 : float64 := Eval vm_compute in of_Z 3600.

(** math.Pi converted to float64: 0x1.921fb54442d18p+1. *)
Definition Pi : float64 := S754_finite false 7074237752028440 (-51).

(** A float64 value is a zero, an infinity, a NaN or a finite number in
    canonical form. *)
Definition valid (x : float64) : bool := valid_binary prec emax x.

Definition is_nan (x : float64) : bool :=
  match x with S754_nan => true | _ => false end.

End F64.

Export F64.

Declare Scope f64_scope.
Delimit Scope f64_scope with f64.
Infix "+" := F64.add : f64_scope.
Infix "-" := F64.sub : f64_scope.
Infix "*" := F64.mul : f64_scope.
Infix "/" := F64.div : f64_scope.
Infix "==" := F64.eqb (at level 70, no associativity) : f64_scope.
Infix "!=" := F64.neqb (at level 70, no associativity) : f64_scope.
Infix "<?" := F64.ltb : f64_scope.
Infix "<=?" := F64.leb : f64_scope.
Infix ">?" := F64.gtb : f64_scope.
Infix ">=?" := F64.geb : f64_scope.

(** ** Go strings and the functions of package strings used by the reader *)

Module GoStrings.

Definition byte_of (c : ascii) : N := N_of_ascii c.

Definition byte_eqb (c d : ascii) : bool := Ascii.eqb c d.

(** len(s) *)
Fixpoint len (s : string) : nat :=
  match s with
  | EmptyString => O
  | String _ s' => S (len s')
  end.

(** s[:n] *)
Fixpoint take (n : nat) (s : string) : string :=
  match n, s with
  | S n', String c s' => String c (take n' s')
  | _, _ => EmptyString
  end.

(** s[n:] *)
Fixpoint drop (n : nat) (s : string) : string :=
  match n, s with
  | S n', String _ s' => drop n' s'
  | _, _ => s
  end.

(** strings.HasPrefix(s, prefix) *)
Fixpoint HasPrefix (s prefix : string) : bool :=
  match prefix, s with
  | EmptyString, _ => true
  | String p prefix', String c s' => byte_eqb c p && HasPrefix s' prefix'
  | String _ _, EmptyString => false
  end.

(** strings.Index(s, sep) for a separator of one byte: the index of its
    first occurrence, [None] for Go's -1. *)
Fixpoint IndexByte (s : string) (sep : ascii) : option nat :=
  match s with
  | EmptyString => None
  | String c s' =>
      if byte_eqb c sep then Some O
      else match IndexByte s' sep with
           | Some i => Some (S i)
           | None => None
           end
  end.

(** strings.SplitN(s, sep, 2) for a separator of one byte: one part when
    the separator does not occur, else the parts before and after its
    first occurrence. *)
Definition SplitN2 (s : string) (sep : ascii) : list string :=
  match IndexByte s sep with
  | None => [s]
  | Some i => [take i s; drop (S i) s]
  end.

(** White space as unicode.IsSpace sees it in a UTF-8 string: the six ASCII
    space bytes, and the encodings of U+0085, U+00A0 (two bytes) and of
    U+1680, U+2000..U+200A, U+2028, U+2029, U+202F, U+205F, U+3000 (three
    bytes). Any other byte sequence decodes to a rune that is not a space. *)
Definition isSpace1 (c : ascii) : bool :=
  let n := byte_of c in
  ((9 <=? n) && (n <=? 13) || (n =? 32))%N.

Definition isSpace2 (c1 c2 : ascii) : bool :=
  let n1 := byte_of c1 in
  let n2 := byte_of c2 in
  ((n1 =? 194) && ((n2 =? 133) || (n2 =? 160)))%N.

Definition isSpace3 (c1 c2 c3 : ascii) : bool :=
  let n1 := byte_of c1 in
  let n2 := byte_of c2 in
  let n3 := byte_of c3 in
  ((n1 =? 225) && (n2 =? 154) && (n3 =? 128)
   || (n1 =? 226) && (n2 =? 128)
      && ((128 <=? n3) && (n3 <=? 138) || (n3 =? 168) || (n3 =? 169) || (n3 =? 175))
   || (n1 =? 226) && (n2 =? 129) && (n3 =? 159)
   || (n1 =? 227) && (n2 =? 128) && (n3 =? 128))%N.

(** The string is the encoding of exactly one space rune. *)
Definition isSpaceRune (s : string) : bool :=
  match s with
  | String c1 EmptyString => isSpace1 c1
  | String c1 (String c2 EmptyString) => isSpace2 c1 c2
  | String c1 (String c2 (String c3 EmptyString)) => isSpace3 c1 c2 c3
  | _ => false
  end.

(** strings.TrimLeftFunc(s, unicode.IsSpace): drop leading space runes. *)
Fixpoint TrimLeftSpace (s : string) : string :=
  match s with
  | EmptyString => EmptyString
  | String c1 s1 =>
      if isSpace1 c1 then TrimLeftSpace s1
      else match s1 with
           | EmptyString => s
           | String c2 s2 =>
               if isSpace2 c1 c2 then TrimLeftSpace s2
               else match s2 with
                    | EmptyString => s
                    | String c3 s3 =>
                        if isSpace3 c1 c2 c3 then TrimLeftSpace s3 else s
                    end
           end
  end.

(** strings.TrimRightFunc(s, unicode.IsSpace): drop trailing space runes.
    Once the tail is trimmed, what is left ends in a space rune only if it
    is one as a whole. *)
Fixpoint TrimRightSpace (s : string) : string :=
  match s with
  | EmptyString => EmptyString
  | String c s' =>
      let t := TrimRightSpace s' in
      if isSpaceRune (String c t) then EmptyString else String c t
  end.

(** strings.TrimSpace(s) *)
Definition TrimSpace (s : string) : string :=
  TrimRightSpace (TrimLeftSpace s).

Fixpoint TrimLeftByte (s : string) (c : ascii) : string :=
  match s with
  | EmptyString => EmptyString
  | String d s' => if byte_eqb d c then TrimLeftByte s' c else s
  end.

Fixpoint TrimRightByte (s : string) (c : ascii) : string :=
  match s with
  | EmptyString => EmptyString
  | String d s' =>
      match TrimRightByte s' c with
      | EmptyString => if byte_eqb d c then EmptyString else String d EmptyString
      | t => String d t
      end
  end.

(** strings.Trim(s, cutset) for a cutset of one ASCII byte. *)
Definition Trim (s : string) (c : ascii) : string :=
  TrimLeftByte (TrimRightByte s c) c.

End GoStrings.

Export GoStrings.

(** ** Errors

    [errors.New] makes a fresh sentinel; [fmt.Errorf] with the verb %w wraps an
    error under a message; [os.Open] fails with an [fs.PathError]. *)

Inductive sentinel :=
  | ErrNoSolution
  | ErrTimeout
  | ErrDockerFailed
  | ErrInvalidInput
  | ErrWCSParseFailed.

Inductive error :=
  | Sentinel (e : sentinel)
  | PathError (op path : string) (errno : nat)
  | Errorf_w_suffix (msg : string) (inner : error)   (* "msg: %w" *)
  | Errorf_w_prefix (inner : error) (msg : string).  (* "%w: msg" *)

Definition sentinel_eqb (a b : sentinel) : bool :=
  match a, b with
  | ErrNoSolution, ErrNoSolution
  | ErrTimeout, ErrTimeout
  | ErrDockerFailed, ErrDockerFailed
  | ErrInvalidInput, ErrInvalidInput
  | ErrWCSParseFailed, ErrWCSParseFailed => true
  | _, _ => false
  end.

(** errors.Is(err, target) for a sentinel target: follow the chain of wrapped
    errors and compare each link with the target. *)
Fixpoint errors_Is (err : error) (target : sentinel) : bool :=
  match err with
  | Sentinel e => sentinel_eqb e target
  | PathError _ _ _ => false
  | Errorf_w_suffix _ inner => errors_Is inner target
  | Errorf_w_prefix inner _ => errors_Is inner target
  end.

(** The innermost error of a chain (repeated errors.Unwrap). *)
Fixpoint error_cause (err : error) : error :=
  match err with
  | Errorf_w_suffix _ inner => error_cause inner
  | Errorf_w_prefix inner _ => error_cause inner
  | _ => err
  end.

(** ** The file system seen by os.Open and by the Read method of os.File

    A path either fails to open or names a file, given by the bytes that its
    successive reads deliver; a read error ends the loop of the reader like
    the end of the file does. *)

Definition filesystem : Type := string -> nat + string.

Definition os_Open (fs : filesystem) (path : string) : string + error :=
  match fs path with
  | inl errno => inr (PathError "open" path errno)
  | inr content => inl content
  end.

(** file.Read(buf) for a buffer of [n] bytes on a file with [f] left to read:
    [None] is io.EOF; otherwise the bytes read (at most [n], fewer only when
    the file ends) and the rest of the file. *)
Definition file_Read (n : nat) (f : string) : option (string * string) :=
  match f with
  | EmptyString => None
  | _ => Some (take n f, drop n f)
  end.

(** ** The metadata reader (result.go, lines 82-121) *)

Abbreviation HeaderMap := (gmap string string).

(** The body of the loop for one full record [line]. *)
Definition parseRecord (line : string) (hdr : HeaderMap) : HeaderMap :=
  if (len line =? 0)%nat || HasPrefix line "END" then hdr
  else
    match SplitN2 line "="%char with
    | [part0; part1] =>
        let key := TrimSpace part0 in
        let valuePart := TrimSpace part1 in
        let valuePart :=
          match IndexByte valuePart "/"%char with
          | Some idx => take idx valuePart
          | None => valuePart
          end in
        let valuePart := TrimSpace valuePart in
        let valuePart := Trim valuePart "'"%char in
        let valuePart := TrimSpace valuePart in
        <[key := valuePart]> hdr
    | _ => hdr
    end.

(** The loop [for { n, err := file.Read(buf); ... }]; every iteration that
    goes on consumes 80 bytes. *)
Fixpoint readRecords (fuel : nat) (f : string) (hdr : HeaderMap) : HeaderMap :=
  match fuel with
  | O => hdr
  | S fuel' =>
      match file_Read 80 f with
      | None => hdr
      | Some (buf, rest) =>
          if negb (len buf =? 80)%nat then hdr
          else readRecords fuel' rest (parseRecord buf hdr)
      end
  end.

(** The header map of a file: the loop cannot run more often than the file
    has bytes. *)
Definition readHeader (f : string) : HeaderMap :=
  readRecords (S (len f)) f empty.

(** ** The result of a parse *)

Record Result := mkResult {
  Solved : bool;
  RA : float64;
  Dec : float64;
  PixelScale : float64;
  Rotation : float64;
  FieldWidth : float64;
  FieldHeight : float64;
  WCSHeader : HeaderMap;
  OutputFiles : list string;
  SolveTime : float64;
  RawOutput : string
}.

(** The numeric values extracted from the header (result.go, lines 123-190). *)
Record Params := mkParams {
  crval1 : float64; crval2 : float64;
  crpix1 : float64; crpix2 : float64;
  cd11 : float64; cd12 : float64; cd21 : float64; cd22 : float64;
  imageW : float64; imageH : float64;
  hasWCS : bool
}.

(** abs of result.go *)
Definition abs (x : float64) : float64 :=
  if (x <? zero)%f64 then neg x else x.

(** ** The coordinate transform (result.go, lines 123-279)

    [strconv.ParseFloat] and [math.Atan2] belong to Go's standard library and
    are the two members of an interface here: [ParseFloat s] is [Some v] when
    the call returns [v] with a nil error. *)

Class StdLib := {
  ParseFloat : string -> option float64;
  Atan2 : float64 -> float64 -> float64
}.

Section Transform.

Context {lib : StdLib}.

(** [if val, ok := hdr[key]; ok { if v, err := ParseFloat(val, 64);
    err == nil { x = v } }]: the value assigned, if any. *)
Definition headerFloat (hdr : HeaderMap) (key : string) : option float64 :=
  match hdr !! key with
  | Some val => ParseFloat val
  | None => None
  end.

(** A variable declared by [var x float64] and assigned as above. *)
Definition floatVar (hdr : HeaderMap) (key : string) : float64 :=
  match headerFloat hdr key with
  | Some v => v
  | None => zero
  end.

(** An image dimension: [if ... hdr[key1]; ok {...} else if ... hdr[key2];
    ok {...}]. The second key is looked at only when the first is absent. *)
Definition imageDim (hdr : HeaderMap) (key1 key2 : string) : float64 :=
  match hdr !! key1 with
  | Some val =>
      match ParseFloat val with Some v => v | None => zero end
  | None =>
      match hdr !! key2 with
      | Some val =>
          match ParseFloat val with Some v => v | None => zero end
      | None => zero
      end
  end.

Definition extractParams (hdr : HeaderMap) : Params :=
  {| crval1 := floatVar hdr "CRVAL1";
     crval2 := floatVar hdr "CRVAL2";
     crpix1 := floatVar hdr "CRPIX1";
     crpix2 := floatVar hdr "CRPIX2";
     cd11 := floatVar hdr "CD1_1";
     cd12 := floatVar hdr "CD1_2";
     cd21 := floatVar hdr "CD2_1";
     cd22 := floatVar hdr "CD2_2";
     imageW := imageDim hdr "IMAGEW" "NAXIS1";
     imageH := imageDim hdr "IMAGEH" "NAXIS2";
     hasWCS := match headerFloat hdr "CRVAL1" with
               | Some _ => true
               | None => false
               end |}.

(** The test of line 195: [hasWCS && imageW > 0 && imageH > 0]. *)
Definition usePrimary (p : Params) : bool :=
  hasWCS p && (imageW p >? zero)%f64 && (imageH p >? zero)%f64.

(** [for r < 0 { r += 360.0 }]: [None] when the loop is still running
    after [fuel] iterations. *)
Fixpoint addWhileNegative (fuel : nat) (r : float64) : option float64 :=
  if (r <? zero)%f64 then
    match fuel with
    | O => None
    | S fuel' => addWhileNegative fuel' (r + c360)%f64
    end
  else Some r.

(** [for r >= 360 { r -= 360.0 }] *)
Fixpoint subWhileAtLeast360 (fuel : nat) (r : float64) : option float64 :=
  if (r >=? c360)%f64 then
    match fuel with
    | O => None
    | S fuel' => subWhileAtLeast360 fuel' (r - c360)%f64
    end
  else Some r.

Definition normalizeRotation (fuel : nat) (r : float64) : option float64 :=
  match addWhileNegative fuel r with
  | Some r1 => subWhileAtLeast360 fuel r1
  | None => None
  end.

(** The rotation of the primary path before it is normalized. *)
Definition rawRotation (p : Params) : float64 :=
  let rotationRad := Atan2 (cd12 p) (cd11 p) in
  (c180 - (rotationRad * c180 / Pi))%f64.

(** The values a path assigns to RA, Dec, PixelScale and Rotation. *)
Record Center := mkCenter {
  cRA : float64; cDec : float64; cPixelScale : float64; cRotation : float64
}.

(** Lines 196-229. *)
Definition primaryPath (fuel : nat) (p : Params) : option Center :=
  let centerX := (imageW p / c2)%f64 in
  let centerY := (imageH p / c2)%f64 in
  let dx := (centerX - crpix1 p)%f64 in
  let dy := (centerY - crpix2 p)%f64 in
  let dRA := (cd11 p * dx + cd12 p * dy)%f64 in
  let dDec := (cd21 p * dx + cd22 p * dy)%f64 in
  let pixelScaleDeg := sqrt (cd11 p * cd11 p + cd21 p * cd21 p)%f64 in
  match normalizeRotation fuel (rawRotation p) with
  | Some rot =>
      Some {| cRA := (crval1 p + dRA)%f64;
              cDec := (crval2 p + dDec)%f64;
              cPixelScale := (pixelScaleDeg * c3600)%f64;
              cRotation := rot |}
  | None => None
  end.

(** Lines 231-245. *)
Definition fallbackPath (hdr : HeaderMap) (p : Params) : Center :=
  {| cRA := crval1 p;
     cDec := crval2 p;
     cPixelScale :=
       if (cd11 p != zero)%f64 then (abs (cd11 p) * c3600)%f64 else zero;
     cRotation := floatVar hdr "CROTA2" |}.

(** The branch of line 195. *)
Definition centerOf (fuel : nat) (hdr : HeaderMap) : option Center :=
  let p := extractParams hdr in
  if usePrimary p then primaryPath fuel p else Some (fallbackPath hdr p).

(** One assignment of lines 250-271: [if s, ok := hdr[key]; ok { if w, err
    := ParseFloat(s, 64); err == nil && pixelScale > 0 { field = (w *
    pixelScale) / 3600.0 } }]. *)
Definition fieldUpdate (hdr : HeaderMap) (key : string)
           (pixelScale old : float64) : float64 :=
  match hdr !! key with
  | Some s =>
      match ParseFloat s with
      | Some w =>
          if (pixelScale >? zero)%f64 then ((w * pixelScale) / c3600)%f64
          else old
      | None => old
      end
  | None => old
  end.

(** Everything between the reader and the final check: the Result as it
    stands at line 273, [None] when a normalization loop is still running
    after [fuel] iterations. *)
Definition computeResult (fuel : nat) (hdr : HeaderMap) : option Result :=
  match centerOf fuel hdr with
  | None => None
  | Some c =>
      let ps := cPixelScale c in
      Some {| Solved := true;
              RA := cRA c;
              Dec := cDec c;
              PixelScale := ps;
              Rotation := cRotation c;
              FieldWidth :=
                fieldUpdate hdr "NAXIS1" ps (fieldUpdate hdr "IMAGEW" ps zero);
              FieldHeight :=
                fieldUpdate hdr "NAXIS2" ps (fieldUpdate hdr "IMAGEH" ps zero);
              WCSHeader := hdr;
              OutputFiles := [];
              SolveTime := zero;
              RawOutput := "" |}
  end.

(** The test of line 274. *)
Definition noFields (r : Result) : bool :=
  (RA r == zero)%f64 && (Dec r == zero)%f64 && (PixelScale r == zero)%f64.

Definition wcsParseFailed : error :=
  Errorf_w_prefix (Sentinel ErrWCSParseFailed) "no valid WCS fields found".

(** What a call returns: Go's pair of a Result pointer and an error. *)
Definition returned : Type := option Result * option error.

(** Lines 273-278. *)
Definition validate (r : Result) : returned :=
  if noFields r then (None, Some wcsParseFailed) else (Some r, None).

(** ParseWCSFile: [None] when a normalization loop is still running after
    [fuel] iterations, else what the call returns. *)
Definition ParseWCSFile (fuel : nat) (fs : filesystem) (wcsPath : string)
  : option returned :=
  match os_Open fs wcsPath with
  | inr err => Some (None, Some (Errorf_w_suffix "failed to open WCS file" err))
  | inl file =>
      match computeResult fuel (readHeader file) with
      | Some r => Some (validate r)
      | None => None
      end
  end.

End Transform.

(** ** Reference models of the two library functions

  Used to run the parser on concrete files. [ParseFloat_ref] accepts signed
  decimal literals with an optional fraction and exponent and the names
  that strconv's [special] accepts, and returns the correctly rounded
  binary64 value as strconv does; hexadecimal literals and digit
  separators are left out and rejected. [Atan2_ref] follows the portable
  implementation of package math. *)

Module StrconvRef.

Definition digitVal (c : ascii) : option Z :=
  let n := Z.of_N (byte_of c) in
  if (48 <=? n) && (n <=? 57) then Some (n - 48) else None.

Definition lower (c : ascii) : ascii :=
  let n := byte_of c in
  if ((65 <=? n) && (n <=? 90))%N then ascii_of_N (n + 32) else c.

Fixpoint lowerString (s : string) : string :=
  match s with
  | EmptyString => EmptyString
  | String c s' => String (lower c) (lowerString s')
  end.

(** A run of decimal digits: its value continuing [acc], its length, and
    what follows. *)
Fixpoint readDigits (s : string) (acc : Z) (n : nat) : Z * nat * string :=
  match s with
  | EmptyString => (acc, n, s)
  | String c s' =>
      match digitVal c with
      | Some d => readDigits s' (10 * acc + d) (S n)
      | None => (acc, n, s)
      end
  end.

Definition readSign (s : string) : bool * string :=
  match s with
  | String c s' =>
      if byte_eqb c "-"%char then (true, s')
      else if byte_eqb c "+"%char then (false, s')
      else (false, s)
  | EmptyString => (false, s)
  end.

(** The optional exponent part; [None] is a syntax error. *)
Definition readExponent (s : string) : option Z :=
  match s with
  | EmptyString => Some 0
  | String c s' =>
      if byte_eqb (lower c) "e"%char then
        let '(esign, s'') := readSign s' in
        match readDigits s'' 0 O with
        | (e, S _, EmptyString) => Some (if esign then - e else e)
        | _ => None
        end
      else None
  end.

(** The binary64 nearest to [m * 10^e] for [m > 0]; [None] when it
    overflows (strconv's ErrRange). [nd] bounds the number of digits of [m]. *)
Definition roundDecimal (m : positive) (nd : nat) (e : Z) : option float64 :=
  if 310 <? e then None
  else if e <? - (Z.of_nat nd + 400) then Some zero
  else
    let v :=
      if 0 <=? e then binary_normalize prec emax (Zpos m * 10 ^ e) 0 false
      else
        let '(q, e', l) :=
          SFdiv_core_binary prec emax (Zpos m) 0 (10 ^ (- e)) 0 in
        binary_round_aux prec emax false q e' l in
    match v with
    | S754_infinity _ => None
    | _ => Some v
    end.

Definition special (s : string) : option float64 :=
  let '(sign, body) := readSign s in
  let body := lowerString body in
  if String.eqb body "inf" || String.eqb body "infinity"
  then Some (S754_infinity sign)
  else if String.eqb (lowerString s) "nan" then Some S754_nan
  else None.

Definition ParseFloat_ref (s : string) : option float64 :=
  match special s with
  | Some v => Some v
  | None =>
      let '(sign, s1) := readSign s in
      let '(ip, n1, s2) := readDigits s1 0 O in
      let '(m, n2, s3) :=
        match s2 with
        | String c s2' =>
            if byte_eqb c "."%char then readDigits s2' ip O else (ip, O, s2)
        | EmptyString => (ip, O, s2)
        end in
      match (n1 + n2)%nat, readExponent s3 with
      | S _, Some e =>
          let v :=
            match m with
            | Zpos mp => roundDecimal mp (n1 + n2) (e - Z.of_nat n2)
            | _ => Some zero
            end in
          match v with
          | Some x => Some (if sign then neg x else x)
          | None => None
          end
      | _, _ => None
      end
  end.

End StrconvRef.

Export StrconvRef.

Module MathRef.

(** The constant [c] of a Go source text as a float64. *)
Definition const (s : string) : float64 :=
  match ParseFloat_ref s with Some v => v | None => nan end.

Definition Signbit (x : float64) : bool :=
  match x with
  | S754_zero s | S754_infinity s | S754_finite s _ _ => s
  | S754_nan => false
  end.

Definition Copysign (f sign : float64) : float64 :=
  if Signbit sign then neg (SFabs f) else SFabs f.

Definition IsInf (x : float64) : bool :=
  match x with S754_infinity _ => true | _ => false end.

Definition PiOver2 : float64 := Eval vm_compute in (Pi / c2)%f64.
Definition PiOver4 : float64 := Eval vm_compute in (PiOver2 / c2)%f64.
Definition ThreePiOver4 : float64 :=
  Eval vm_compute in const "2.35619449019234492884698253745962716".
Definition Morebits : float64 :=
  Eval vm_compute in const "6.123233995736765886130e-17".
Definition HalfMorebits : float64 :=
  Eval vm_compute in (Morebits / c2)%f64.
Definition Tan3pio8 : float64 :=
  Eval vm_compute in const "2.41421356237309504880".

Definition P0 := Eval vm_compute in const "-8.750608600031904122785e-01".
Definition P1 := Eval vm_compute in const "-1.615753718733365076637e+01".
Definition P2 := Eval vm_compute in const "-7.500855792314704667340e+01".
Definition P3 := Eval vm_compute in const "-1.228866684490136173410e+02".
Definition P4 := Eval vm_compute in const "-6.485021904942025371773e+01".
Definition Q0 := Eval vm_compute in const "2.485846490142306297962e+01".
Definition Q1 := Eval vm_compute in const "1.650270098316988542046e+02".
Definition Q2 := Eval vm_compute in const "4.328810604912902668951e+02".
Definition Q3 := Eval vm_compute in const "4.853903996359136964868e+02".
Definition Q4 := Eval vm_compute in const "1.945506571482613964425e+02".

(** xatan: the rational approximation on [0, 0.66]. *)
Definition xatan (x : float64) : float64 :=
  let z := (x * x)%f64 in
  let z := (z * ((((P0 * z + P1) * z + P2) * z + P3) * z + P4)
            / (((((z + Q0) * z + Q1) * z + Q2) * z + Q3) * z + Q4))%f64 in
  (x * z + x)%f64.

(** satan: range reduction for a positive argument. *)
Definition satan (x : float64) : float64 :=
  if (x <=? const "0.66")%f64 then xatan x
  else if (x >? Tan3pio8)%f64
       then (PiOver2 - xatan (F64.of_Z 1 / x) + Morebits)%f64
       else (PiOver4 + xatan ((x - F64.of_Z 1) / (x + F64.of_Z 1))
             + HalfMorebits)%f64.

Definition Atan (x : float64) : float64 :=
  if (x == zero)%f64 then x
  else if (x >? zero)%f64 then satan x
  else neg (satan (neg x)).

Definition Atan2_ref (y x : float64) : float64 :=
  if is_nan x || is_nan y then nan
  else if (y == zero)%f64 then
    if (x >=? zero)%f64 && negb (Signbit x) then Copysign zero y
    else Copysign Pi y
  else if (x == zero)%f64 then Copysign PiOver2 y
  else if IsInf x then
    if negb (Signbit x) then
      if IsInf y then Copysign PiOver4 y else Copysign zero y
    else
      if IsInf y then Copysign ThreePiOver4 y else Copysign Pi y
  else if IsInf y then Copysign PiOver2 y
  else
    let q := Atan (y / x)%f64 in
    if (x <? zero)%f64 then
      if (q <=? zero)%f64 then (q + Pi)%f64 else (q - Pi)%f64
    else q.

End MathRef.

Export MathRef.


(** The two reference models as an implementation of the interface. *)
Definition RefLib : StdLib :=
  {| ParseFloat := ParseFloat_ref; Atan2 := Atan2_ref |}.

(** The keys that the gate of the primary path does not look at. *)
Definition ungatedKeys : list string :=
  ["CRVAL2"; "CRPIX1"; "CRPIX2"; "CD1_1"; "CD1_2"; "CD2_1"; "CD2_2"].


(** ** Test vectors *)

Fixpoint spaces (n : nat) : string :=
  match n with
  | O => EmptyString
  | S n' => String " "%char (spaces n')
  end.

(** An 80-byte record: the text padded with spaces. *)
Definition card (text : string) : string := take 80 (text +:+ spaces 80).

Fixpoint cards (texts : list string) : string :=
  match texts with
  | [] => EmptyString
  | t :: texts' => card t +:+ cards texts'
  end.

(** The file written by TestParseWCSFile_Success. *)
Definition success_file : string := cards [
  "SIMPLE  =                    T / file does conform to FITS standard";
  "BITPIX  =                    8 / number of bits per data pixel";
  "NAXIS   =                    0 / number of data axes";
  "EXTEND  =                    T / FITS dataset may contain extensions";
  "CRPIX1  =          3000.000000 / X reference pixel (image center)";
  "CRPIX2  =          2000.000000 / Y reference pixel (image center)";
  "CRVAL1  =        83.4230000000 / RA of reference point (deg)";
  "CRVAL2  =        -5.8930000000 / Dec of reference point (deg)";
  "CD1_1   =  -0.0010995000000000 / Transformation matrix";
  "CD1_2   =   0.0004600000000000 / Transformation matrix (~22deg rotation)";
  "CD2_1   =  -0.0004500000000000 / Transformation matrix";
  "CD2_2   =  -0.0011000000000000 / Transformation matrix";
  "CTYPE1  = 'RA---TAN'           / WCS projection type";
  "CTYPE2  = 'DEC--TAN'           / WCS projection type";
  "IMAGEW  =                 6000 / Image width";
  "IMAGEH  =                 4000 / Image height";
  "END" ].

(** CRVAL1, a CD entry and both image dimensions, but no CRVAL2. *)
Definition no_crval2_file : string := cards [
  "CRVAL1  =                   10 / RA of reference point (deg)";
  "CD1_1   =                    1 / Transformation matrix";
  "IMAGEW  =                  100 / Image width";
  "IMAGEH  =                  100 / Image height";
  "END" ].

(** A header whose CD1_1 value is the text NaN. *)
Definition nan_cd_file : string := cards [
  "CRVAL1  =                   10 / RA of reference point (deg)";
  "CD1_1   =                  NaN / Transformation matrix";
  "IMAGEW  =                  100 / Image width";
  "IMAGEH  =                  100 / Image height";
  "END" ].

(** No image dimensions at all, a CROTA2 outside of [0, 360). *)
Definition no_dimensions_file : string := cards [
  "CRVAL1  =                   10 / RA of reference point (deg)";
  "CRVAL2  =                   20 / Dec of reference point (deg)";
  "CD1_1   =                -0.25 / Transformation matrix";
  "CROTA2  =                  -90 / Rotation angle (deg)";
  "END" ].

(** IMAGEW and NAXIS1 disagree. *)
Definition two_widths_file : string := cards [
  "CRVAL1  =                   10 / RA of reference point (deg)";
  "CD1_1   =                  0.5 / Transformation matrix";
  "IMAGEW  =                  100 / Image width";
  "IMAGEH  =                  100 / Image height";
  "NAXIS1  =                  200 / Image width";
  "NAXIS2  =                  400 / Image height";
  "END" ].

(** Only an END record. *)
Definition end_only_file : string := cards [ "END" ].

Definition test_fs : filesystem := fun path =>
  if String.eqb path "success.wcs" then inr success_file
  else if String.eqb path "no_crval2.wcs" then inr no_crval2_file
  else if String.eqb path "nan_cd.wcs" then inr nan_cd_file
  else if String.eqb path "no_dimensions.wcs" then inr no_dimensions_file
  else if String.eqb path "two_widths.wcs" then inr two_widths_file
  else if String.eqb path "end_only.wcs" then inr end_only_file
  else inl 2%nat.


(** ** The metadata reader in the words of the specification

    Records are positional: record [i] is the 80 bytes from offset [80 * i],
    for every [i] below the number of full records. *)
Definition spec_records (f : string) : list string :=
  map (fun i => take 80 (drop (80 * i) f)) (seq 0 (len f / 80)).

(** Everything from the first '/' onward removed. *)
Definition stripComment (s : string) : string :=
  match IndexByte s "/"%char with
  | Some i => take i s
  | None => s
  end.

(** The key and value a record contributes, if any. *)
Definition spec_entry (record : string) : option (string * string) :=
  if HasPrefix record "END" then None
  else
    match IndexByte record "="%char with
    | None => None
    | Some i =>
        let key := TrimSpace (take i record) in
        let value := stripComment (drop (S i) record) in
        let value := TrimSpace value in
        let value := Trim value "'"%char in
        let value := TrimSpace value in
        Some (key, value)
    end.

Fixpoint spec_entries (records : list string) : list (string * string) :=
  match records with
  | [] => []
  | r :: records' =>
      match spec_entry r with
      | Some kv => kv :: spec_entries records'
      | None => spec_entries records'
      end
  end.

(** The value of the last entry with the given key. *)
Fixpoint lastValue (entries : list (string * string)) (key : string)
  : option string :=
  match entries with
  | [] => None
  | (k, v) :: entries' =>
      match lastValue entries' key with
      | Some v' => Some v'
      | None => if String.eqb k key then Some v else None
      end
  end.

(** A string starts with the encoding of a space rune. *)
Definition leadSpace (s : string) : bool :=
  match s with
  | String c1 s1 =>
      isSpace1 c1 ||
      match s1 with
      | String c2 s2 =>
          isSpace2 c1 c2 ||
          match s2 with
          | String c3 _ => isSpace3 c1 c2 c3
          | EmptyString => false
          end
      | EmptyString => false
      end
  | EmptyString => false
  end.


(** ** Rounding: what the proofs about binary64 arithmetic speak of *)

Definition b2z (b : bool) : Z := if b then 1 else 0.

(** The position of a value on the grid of a shift record: four times the
    mantissa plus the round and sticky bits. *)
Definition position (mrs : shr_record) : Z :=
  4 * shr_m mrs + 2 * b2z (shr_r mrs) + b2z (shr_s mrs).

(** [x] is a zero or a finite number in canonical form of magnitude at most
    [mB * 2^eB]. *)
Definition within (x : float64) (mB : positive) (eB : Z) : Prop :=
  match x with
  | S754_zero _ => True
  | S754_finite _ m e =>
      bounded prec emax m e = true /\ (e < eB \/ (e = eB /\ Z.pos m <= Z.pos mB))
  | _ => False
  end.

(** What math.Atan2 returns: a NaN, or an angle between -Pi and Pi. *)
Definition angle_ok (rad : float64) : bool :=
  is_nan rad || (valid rad && (SFabs rad <=? Pi)%f64).


(** [x] is a zero or a canonical number of magnitude at most [mB * 2^eB],
    of sign [s]. *)
Definition upto (s : bool) (mB : positive) (eB : Z) (x : float64) : Prop :=
  x = S754_zero s \/
  exists m e, x = S754_finite s m e /\ bounded prec emax m e = true /\
              (e < eB \/ (e = eB /\ Z.pos m <= Z.pos mB)).

(** ** What the reader stores

    The shape of an entry of the header map: key and value are trimmed, the
    key has no '=' and the value no '/'. *)
Definition entry_ok (k v : string) : Prop :=
  TrimSpace k = k /\ IndexByte k "="%char = None /\
  TrimSpace v = v /\ IndexByte v "/"%char = None.

(** The keys that ParseWCSFile looks up in the header map. *)
Definition usedKeys : list string :=
  ["CRVAL1"; "CRVAL2"; "CRPIX1"; "CRPIX2";
   "CD1_1"; "CD1_2"; "CD2_1"; "CD2_2";
   "IMAGEW"; "NAXIS1"; "IMAGEH"; "NAXIS2"; "CROTA2"].

(** A float64 that is a number: a zero or a finite value. *)
Definition is_number (x : float64) : bool :=
  match x with
  | S754_zero _ | S754_finite _ _ _ => true
  | _ => false
  end.

(** ** The caller of the parser: Client.Solve (internal/solver/solver.go)

    What Solve does once the solve-field command has run (lines 170-201),
    and the functions it is built from. Paths are those of a Unix system,
    where the only path separator is '/'. *)

(** strings.Contains(s, substr) *)
Fixpoint Contains (s substr : string) : bool :=
  HasPrefix s substr ||
  match s with
  | EmptyString => false
  | String _ s' => Contains s' substr
  end.

(** strings.HasSuffix(s, suffix): [len(s) >= len(suffix) &&
    s[len(s)-len(suffix):] == suffix] *)
Definition HasSuffix (s suffix : string) : bool :=
  (len suffix <=? len s)%nat &&
  String.eqb (drop (len s - len suffix) s) suffix.

(** strings.TrimSuffix(s, suffix) *)
Definition TrimSuffix (s suffix : string) : string :=
  if HasSuffix s suffix then take (len s - len suffix) s else s.

(** The loop of filepath.Ext: [for i := len(path) - 1; i >= 0 && path[i] !=
    '/'; i-- { if path[i] == '.' { return path[i:] } }; return ""], with
    [n] = [i + 1]. *)
Fixpoint ExtFrom (path : string) (n : nat) : string :=
  match n with
  | O => ""
  | S i =>
      match String.get i path with
      | Some c =>
          if byte_eqb c "/"%char then ""
          else if byte_eqb c "."%char then drop i path
          else ExtFrom path i
      | None => ""
      end
  end.

(** filepath.Ext(path) *)
Definition Ext (path : string) : string := ExtFrom path (len path).

(** ENOENT, the errno of a path that does not exist. *)
Definition ENOENT : nat := 2%nat.

(** os.IsNotExist(err): of the errors here only a PathError is unwrapped
    (an error made by fmt.Errorf is not); what is left has to be the errno
    ENOENT. *)
Definition os_IsNotExist (err : error) : bool :=
  match err with
  | PathError _ _ errno => (errno =? ENOENT)%nat
  | _ => false
  end.

(** errors.Is(err, fs.ErrNotExist): the chain is followed through every
    wrapper. *)
Fixpoint errors_Is_NotExist (err : error) : bool :=
  match err with
  | Sentinel _ => false
  | PathError _ _ errno => (errno =? ENOENT)%nat
  | Errorf_w_suffix _ inner => errors_Is_NotExist inner
  | Errorf_w_prefix inner _ => errors_Is_NotExist inner
  end.

(** filepath.Join for two elements belongs to Go's standard library and is
    the member of an interface. *)
Class PathLib := {
  Join : string -> string -> string
}.

(** [&Result{Solved: false}] *)
Definition unsolved : Result :=
  {| Solved := false; RA := zero; Dec := zero; PixelScale := zero;
     Rotation := zero; FieldWidth := zero; FieldHeight := zero;
     WCSHeader := empty; OutputFiles := []; SolveTime := zero;
     RawOutput := "" |}.

(** [result.SolveTime = solveTime; result.OutputFiles = files] *)
Definition setSolveInfo (r : Result) (solveTime : float64)
           (files : list string) : Result :=
  {| Solved := Solved r; RA := RA r; Dec := Dec r;
     PixelScale := PixelScale r; Rotation := Rotation r;
     FieldWidth := FieldWidth r; FieldHeight := FieldHeight r;
     WCSHeader := WCSHeader r; OutputFiles := files;
     SolveTime := solveTime; RawOutput := RawOutput r |}.

(** The extensions that collectOutputFiles looks for, in its order. *)
Definition extensions : list string :=
  [".wcs"; ".corr"; ".solved"; ".match"; ".rdls"; ".axy"; "-indx.xyls"].

(** The line feed of the format string of line 180. *)
Definition LF : string := String "010"%char EmptyString.

Section Solve.

Context {lib : StdLib} {paths : PathLib}.

(** os.Stat as collectOutputFiles uses it: [stat path] is [None] when the
    call returns a nil error, else the errno. *)
Variable stat : string -> option nat.

(** collectOutputFiles (lines 296-308) *)
Definition collectOutputFiles (tempDir imageFilename : string) : list string :=
  let baseName := TrimSuffix imageFilename (Ext imageFilename) in
  fold_left
    (fun files ext =>
       let path := Join tempDir (baseName +:+ ext) in
       match stat path with
       | None => files ++ [path]
       | Some _ => files
       end)
    extensions [].

(** The path of the WCS file (line 186). *)
Definition wcsPathOf (tempDir imageFilename : string) : string :=
  Join tempDir (TrimSuffix imageFilename (Ext imageFilename) +:+ ".wcs").

(** Lines 170-201 of Solve: [timedOut] is [solveCtx.Err() ==
    context.DeadlineExceeded], [cmdErr] the text of the error of
    cmd.CombinedOutput() if it is not nil, [output] what the command printed.
    [None] when a normalization loop of the parser is still running after
    [fuel] iterations, or when line 196 dereferences a nil pointer. *)
Definition finishSolve (fuel : nat) (fs : filesystem)
           (tempDir imageFilename : string)
           (timedOut : bool) (cmdErr : option string) (output : string)
           (solveTime : float64) : option returned :=
  if timedOut then Some (None, Some (Sentinel ErrTimeout))
  else
    match cmdErr with
    | Some e =>
        if Contains output "Did not solve" || Contains output "Failed to solve"
        then Some (Some unsolved, None)
        else Some (None,
                   Some (Errorf_w_prefix (Sentinel ErrDockerFailed)
                           (e +:+ LF +:+ "Output: " +:+ output)))
    | None =>
        match ParseWCSFile fuel fs (wcsPathOf tempDir imageFilename) with
        | None => None
        | Some (_, Some err) =>
            if os_IsNotExist err then Some (Some unsolved, None)
            else Some (None, Some err)
        | Some (Some result, None) =>
            Some (Some (setSolveInfo result solveTime
                          (collectOutputFiles tempDir imageFilename)),
                  None)
        | Some (None, None) => None
        end
    end.

End Solve.

(** ** A reference model of filepath.Join

    Used to run the caller on concrete paths. [Clean] is the lexical
    cleaning of a Unix path that filepath.Clean does: empty and "."
    elements go, an inner ".." element goes with the element before it, a
    ".." at the root goes, and the empty path becomes ".". *)

Module FilepathRef.

(** strings.Split(s, "/") *)
Fixpoint elements (s : string) : list string :=
  match s with
  | EmptyString => [EmptyString]
  | String c s' =>
      if byte_eqb c "/"%char then EmptyString :: elements s'
      else match elements s' with
           | e :: es => String c e :: es
           | [] => [String c EmptyString]
           end
  end.

(** The elements kept so far are in [out], the last one first. *)
Fixpoint cleanElements (rooted : bool) (es out : list string) : list string :=
  match es with
  | [] => rev out
  | e :: es' =>
      if String.eqb e "" || String.eqb e "." then cleanElements rooted es' out
      else if String.eqb e ".." then
        match out with
        | top :: out' =>
            if String.eqb top ".." then cleanElements rooted es' (e :: out)
            else cleanElements rooted es' out'
        | [] =>
            if rooted then cleanElements rooted es' []
            else cleanElements rooted es' [e]
        end
      else cleanElements rooted es' (e :: out)
  end.

(** strings.Join(es, "/") *)
Fixpoint joinSlash (es : list string) : string :=
  match es with
  | [] => EmptyString
  | [e] => e
  | e :: es' => e +:+ "/" +:+ joinSlash es'
  end.

Definition Clean (path : string) : string :=
  let rooted := HasPrefix path "/" && negb (String.eqb path "") in
  let kept := joinSlash (cleanElements rooted (elements path) []) in
  if rooted then "/" +:+ kept
  else if String.eqb kept "" then "." else kept.

(** filepath.Join(a, b): the empty elements are left out, the others are
    joined by '/' and the result is cleaned. *)
Definition Join_ref (a b : string) : string :=
  if negb (String.eqb a "") then Clean (a +:+ "/" +:+ b)
  else if negb (String.eqb b "") then Clean b
  else "".

End FilepathRef.

Definition RefPaths : PathLib := {| Join := FilepathRef.Join_ref |}.

(** ** Configuration and options (pkg/solver/options.go) and the command
    line of solve-field (solver.go, buildSolveArgs)

    Go's [int] values are only compared with 0 and printed, and are
    integers here; a time.Duration is its number of nanoseconds. *)

Module Options.

Record ClientConfig := mkClientConfig {
  DockerImage : string;
  IndexPath : string;
  TempDir : string;
  Timeout : Z;
  UseDockerExec : bool;
  ContainerName : string
}.

Record SolveOptions := mkSolveOptions {
  ScaleLow : float64;
  ScaleHigh : float64;
  ScaleUnits : string;
  DownsampleFactor : Z;
  DepthLow : Z;
  DepthHigh : Z;
  NoPlots : bool;
  RA : float64;
  Dec : float64;
  Radius : float64;
  OverwriteExisting : bool;
  Verbose : bool;
  KeepTempFiles : bool
}.

End Options.

(** 5 * time.Minute *)
Definition fiveMinutes : Z := 5 * 60 * 1000000000.

(** fmt.Sprintf("%d", n) *)
Definition Sprintf_d (n : Z) : string := NilZero.string_of_int (Z.to_int n).

(** fmt.Sprintf("%.6f", x) belongs to Go's standard library and is the
    member of an interface. *)
Class FmtLib := {
  Sprintf_6f : float64 -> string
}.

Section Command.

Context {paths : PathLib} {fmt : FmtLib}.

(** buildSolveArgs (lines 230-293); [append(args, a, b)] is [args ++ [a; b]]. *)
Definition buildSolveArgs (c : Options.ClientConfig)
           (imageFilename tempDir : string) (opts : Options.SolveOptions)
  : list string :=
  let args := ["solve-field"] in
  let args :=
    if (Options.ScaleLow opts >? zero)%f64
       && (Options.ScaleHigh opts >? zero)%f64
    then ((args ++ ["-L"; Sprintf_6f (Options.ScaleLow opts)])
            ++ ["-H"; Sprintf_6f (Options.ScaleHigh opts)])
           ++ ["-u"; Options.ScaleUnits opts]
    else args in
  let args :=
    if Options.DownsampleFactor opts >? 0
    then args ++ ["--downsample"; Sprintf_d (Options.DownsampleFactor opts)]
    else args in
  let args :=
    if (Options.DepthLow opts >? 0) && (Options.DepthHigh opts >? 0)
    then args ++ ["--depth";
                  Sprintf_d (Options.DepthLow opts) +:+ "-"
                  +:+ Sprintf_d (Options.DepthHigh opts)]
    else args in
  let args := if Options.NoPlots opts then args ++ ["--no-plots"] else args in
  let args :=
    if (Options.RA opts != zero)%f64 || (Options.Dec opts != zero)%f64
    then
      let args := args ++ ["--ra"; Sprintf_6f (Options.RA opts)] in
      let args := args ++ ["--dec"; Sprintf_6f (Options.Dec opts)] in
      if (Options.Radius opts >? zero)%f64
      then args ++ ["--radius"; Sprintf_6f (Options.Radius opts)]
      else args
    else args in
  let args :=
    if Options.OverwriteExisting opts then args ++ ["--overwrite"] else args in
  let args :=
    if negb (Options.Verbose opts) then args ++ ["--no-verify"] else args in
  let workDir :=
    if Options.UseDockerExec c then tempDir else "/data" in
  let imagePath :=
    if Options.UseDockerExec c then Join tempDir imageFilename
    else "/data/" +:+ imageFilename in
  let args := args ++ ["--dir"; workDir] in
  args ++ [imagePath].

(** The arguments of docker (lines 145-159). *)
Definition dockerArgs (c : Options.ClientConfig) (tempDir absIndexPath : string)
           (args : list string) : list string :=
  if Options.UseDockerExec c
  then ["exec"; Options.ContainerName c] ++ args
  else ["run"; "--rm";
        "-v"; tempDir +:+ ":/data";
        "-v"; absIndexPath +:+ ":/usr/local/astrometry/data";
        Options.DockerImage c] ++ args.

End Command.

Section Client.

(** The constant DefaultDockerImage of the package. *)
Variable DefaultDockerImage : string.

(** DefaultClientConfig *)
Definition DefaultClientConfig : Options.ClientConfig :=
  {| Options.DockerImage := DefaultDockerImage;
     Options.IndexPath := "";
     Options.TempDir := "";
     Options.Timeout := fiveMinutes;
     Options.UseDockerExec := false;
     Options.ContainerName := "" |}.

(** [os.Stat(path)] with its error put to the test of os.IsNotExist: [stat
    path] is [None] when the call succeeds, else the errno. *)
Definition statNotExist (stat : string -> option nat) (path : string) : bool :=
  match stat path with
  | Some errno => os_IsNotExist (PathError "stat" path errno)
  | None => false
  end.

(** NewClient (lines 67-94). [config] is [None] for a nil pointer and
    [osTempDir] what os.TempDir() returns; the Client that comes back is
    given by its configuration. *)
Definition NewClient (stat : string -> option nat) (osTempDir : string)
           (config : option Options.ClientConfig)
  : option Options.ClientConfig * option error :=
  let config :=
    match config with
    | Some c => c
    | None => DefaultClientConfig
    end in
  if String.eqb (Options.IndexPath config) ""
  then (None,
        Some (Errorf_w_prefix (Sentinel ErrInvalidInput)
                "IndexPath is required"))
  else if statNotExist stat (Options.IndexPath config)
  then (None,
        Some (Errorf_w_prefix (Sentinel ErrInvalidInput)
                ("IndexPath does not exist: " +:+ Options.IndexPath config)))
  else
    (Some {| Options.DockerImage :=
               if String.eqb (Options.DockerImage config) ""
               then DefaultDockerImage else Options.DockerImage config;
             Options.IndexPath := Options.IndexPath config;
             Options.TempDir :=
               if String.eqb (Options.TempDir config) ""
               then osTempDir else Options.TempDir config;
             Options.Timeout :=
               if Options.Timeout config =? 0
               then fiveMinutes else Options.Timeout config;
             Options.UseDockerExec := Options.UseDockerExec config;
             Options.ContainerName := Options.ContainerName config |},
     None).

End Client.


(** ** Camera detection (pkg/solver/fov: image.go, with the sensor sizes of
    fov.go and the tables of camera models) *)

Module Fov.

Record SensorSize := mkSensorSize {
  Width : float64;
  Height : float64;
  Name : string
}.

(** The float64 of a decimal constant. *)
Definition constant (text : string) : float64 :=
  match StrconvRef.ParseFloat_ref text with
  | Some v => v
  | None => nan
  end.

Definition FullFrame : SensorSize :=
  Eval vm_compute in
  {| Width := constant "36.0"; Height := constant "24.0"; Name := "Full Frame (35mm)" |}.

Definition APSCCanon : SensorSize :=
  Eval vm_compute in
  {| Width := constant "22.3"; Height := constant "14.9"; Name := "APS-C Canon" |}.

Definition APSCNikon : SensorSize :=
  Eval vm_compute in
  {| Width := constant "23.6"; Height := constant "15.7"; Name := "APS-C Nikon/Sony" |}.

Definition MicroFourThirds : SensorSize :=
  Eval vm_compute in
  {| Width := constant "17.3"; Height := constant "13.0"; Name := "Micro Four Thirds" |}.

Record CameraMapping := mkCameraMapping {
  Pattern : string;
  Sensor : SensorSize
}.

Definition canonMappings : list CameraMapping :=
  [ mkCameraMapping "EOS C50" FullFrame;
    mkCameraMapping "EOS R1" FullFrame;
    mkCameraMapping "EOS R3" FullFrame;
    mkCameraMapping "EOS R5 MARK II" FullFrame;
    mkCameraMapping "EOS R5" FullFrame;
    mkCameraMapping "EOS R6 MARK II" FullFrame;
    mkCameraMapping "EOS R6" FullFrame;
    mkCameraMapping "EOS R8" FullFrame;
    mkCameraMapping "EOS RA" FullFrame;
    mkCameraMapping "EOS RP" FullFrame;
    mkCameraMapping "EOS-1D C" FullFrame;
    mkCameraMapping "EOS-1D X MARK III" FullFrame;
    mkCameraMapping "EOS-1D X MARK II" FullFrame;
    mkCameraMapping "EOS-1D X" FullFrame;
    mkCameraMapping "EOS-1DS MARK III" FullFrame;
    mkCameraMapping "EOS-1DS MARK II" FullFrame;
    mkCameraMapping "EOS-1DS" FullFrame;
    mkCameraMapping "EOS 5D MARK IV" FullFrame;
    mkCameraMapping "EOS 5D MARK III" FullFrame;
    mkCameraMapping "EOS 5D MARK II" FullFrame;
    mkCameraMapping "EOS 5DS" FullFrame;
    mkCameraMapping "EOS 5D" FullFrame;
    mkCameraMapping "EOS 6D MARK II" FullFrame;
    mkCameraMapping "EOS 6D" FullFrame;
    mkCameraMapping "EOS M" APSCCanon;
    mkCameraMapping "EOS R7" APSCCanon;
    mkCameraMapping "EOS R10" APSCCanon;
    mkCameraMapping "EOS M5" APSCCanon;
    mkCameraMapping "EOS 7D" APSCCanon;
    mkCameraMapping "EOS 77D" APSCCanon;
    mkCameraMapping "EOS 80D" APSCCanon;
    mkCameraMapping "EOS 90D" APSCCanon;
    mkCameraMapping "REBEL" APSCCanon;
    mkCameraMapping "KISS" APSCCanon ].

Definition nikonMappings : list CameraMapping :=
  [ mkCameraMapping "Z FC" APSCNikon;
    mkCameraMapping "Z 50" APSCNikon;
    mkCameraMapping "Z50" APSCNikon;
    mkCameraMapping "D7500" APSCNikon;
    mkCameraMapping "D7200" APSCNikon;
    mkCameraMapping "D7100" APSCNikon;
    mkCameraMapping "D5600" APSCNikon;
    mkCameraMapping "D5500" APSCNikon;
    mkCameraMapping "D5300" APSCNikon;
    mkCameraMapping "D3500" APSCNikon;
    mkCameraMapping "D3400" APSCNikon;
    mkCameraMapping "D3300" APSCNikon;
    mkCameraMapping "D500" APSCNikon;
    mkCameraMapping "Z 5 II" FullFrame;
    mkCameraMapping "Z5II" FullFrame;
    mkCameraMapping "Z 5" FullFrame;
    mkCameraMapping "Z5" FullFrame;
    mkCameraMapping "Z 6 III" FullFrame;
    mkCameraMapping "Z6III" FullFrame;
    mkCameraMapping "Z 6 II" FullFrame;
    mkCameraMapping "Z6II" FullFrame;
    mkCameraMapping "Z 6" FullFrame;
    mkCameraMapping "Z6" FullFrame;
    mkCameraMapping "Z 7 II" FullFrame;
    mkCameraMapping "Z7II" FullFrame;
    mkCameraMapping "Z 7" FullFrame;
    mkCameraMapping "Z7" FullFrame;
    mkCameraMapping "Z 8" FullFrame;
    mkCameraMapping "Z8" FullFrame;
    mkCameraMapping "Z 9" FullFrame;
    mkCameraMapping "Z9" FullFrame;
    mkCameraMapping "Z F" FullFrame;
    mkCameraMapping "ZF" FullFrame;
    mkCameraMapping "Z R" FullFrame;
    mkCameraMapping "ZR" FullFrame;
    mkCameraMapping "D3S" FullFrame;
    mkCameraMapping "D3X" FullFrame;
    mkCameraMapping "D3 " FullFrame;
    mkCameraMapping "D4S" FullFrame;
    mkCameraMapping "D4 " FullFrame;
    mkCameraMapping "D5 " FullFrame;
    mkCameraMapping "D6 " FullFrame;
    mkCameraMapping "D600" FullFrame;
    mkCameraMapping "D610" FullFrame;
    mkCameraMapping "D700" FullFrame;
    mkCameraMapping "D750 " FullFrame;
    mkCameraMapping "D780" FullFrame;
    mkCameraMapping "D800" FullFrame;
    mkCameraMapping "D810A" FullFrame;
    mkCameraMapping "D810" FullFrame;
    mkCameraMapping "D850" FullFrame;
    mkCameraMapping "DF " FullFrame ].

Definition sonyMappings : list CameraMapping :=
  [ mkCameraMapping "ILCE-1" FullFrame;
    mkCameraMapping "A1" FullFrame;
    mkCameraMapping "ILCE-7M5" FullFrame;
    mkCameraMapping "ILCE-7M4" FullFrame;
    mkCameraMapping "ILCE-7M3" FullFrame;
    mkCameraMapping "ILCE-7M2" FullFrame;
    mkCameraMapping "ILCE-7" FullFrame;
    mkCameraMapping "ILCE-7RM5" FullFrame;
    mkCameraMapping "ILCE-7RM4" FullFrame;
    mkCameraMapping "ILCE-7RM3" FullFrame;
    mkCameraMapping "ILCE-7RM2" FullFrame;
    mkCameraMapping "ILCE-7SM3" FullFrame;
    mkCameraMapping "ILCE-7SM2" FullFrame;
    mkCameraMapping "ILCE-9M3" FullFrame;
    mkCameraMapping "ILCE-9" FullFrame;
    mkCameraMapping "FX3" FullFrame;
    mkCameraMapping "FX6" FullFrame;
    mkCameraMapping "ALPHA 99" FullFrame;
    mkCameraMapping "ALPHA 850" FullFrame;
    mkCameraMapping "ALPHA 900" FullFrame;
    mkCameraMapping "A99" FullFrame;
    mkCameraMapping "ILCE-6" APSCNikon;
    mkCameraMapping "A6" APSCNikon;
    mkCameraMapping "ZV-E10" APSCNikon ].

Definition olympusMappings : list CameraMapping :=
  [ mkCameraMapping "E-M1X" MicroFourThirds;
    mkCameraMapping "E-M1 MARK III" MicroFourThirds;
    mkCameraMapping "E-M1 MARK II" MicroFourThirds;
    mkCameraMapping "E-M1" MicroFourThirds;
    mkCameraMapping "E-M5 MARK III" MicroFourThirds;
    mkCameraMapping "E-M5 MARK II" MicroFourThirds;
    mkCameraMapping "E-M5" MicroFourThirds;
    mkCameraMapping "E-M10 MARK IV" MicroFourThirds;
    mkCameraMapping "E-M10 MARK III" MicroFourThirds;
    mkCameraMapping "E-M10 MARK II" MicroFourThirds;
    mkCameraMapping "E-M10" MicroFourThirds;
    mkCameraMapping "OM-1 MARK II" MicroFourThirds;
    mkCameraMapping "OM-1" MicroFourThirds;
    mkCameraMapping "OM-3" MicroFourThirds;
    mkCameraMapping "OM-5" MicroFourThirds;
    mkCameraMapping "E-1" MicroFourThirds;
    mkCameraMapping "E-3" MicroFourThirds;
    mkCameraMapping "E-5" MicroFourThirds;
    mkCameraMapping "E-30" MicroFourThirds;
    mkCameraMapping "E-300" MicroFourThirds;
    mkCameraMapping "E-330" MicroFourThirds;
    mkCameraMapping "E-400" MicroFourThirds;
    mkCameraMapping "E-410" MicroFourThirds;
    mkCameraMapping "E-420" MicroFourThirds;
    mkCameraMapping "E-450" MicroFourThirds;
    mkCameraMapping "E-500" MicroFourThirds;
    mkCameraMapping "E-510" MicroFourThirds;
    mkCameraMapping "E-520" MicroFourThirds;
    mkCameraMapping "E-620" MicroFourThirds;
    mkCameraMapping "PEN-F" MicroFourThirds;
    mkCameraMapping "E-P1" MicroFourThirds;
    mkCameraMapping "E-P2" MicroFourThirds;
    mkCameraMapping "E-P3" MicroFourThirds;
    mkCameraMapping "E-P5" MicroFourThirds;
    mkCameraMapping "E-P7" MicroFourThirds;
    mkCameraMapping "E-PL1" MicroFourThirds;
    mkCameraMapping "E-PL2" MicroFourThirds;
    mkCameraMapping "E-PL3" MicroFourThirds;
    mkCameraMapping "E-PL5" MicroFourThirds;
    mkCameraMapping "E-PL6" MicroFourThirds;
    mkCameraMapping "E-PL7" MicroFourThirds;
    mkCameraMapping "E-PL9" MicroFourThirds;
    mkCameraMapping "E-PM1" MicroFourThirds;
    mkCameraMapping "E-PM2" MicroFourThirds ].

Definition panasonicMappings : list CameraMapping :=
  [ mkCameraMapping "DC-G9 II" MicroFourThirds;
    mkCameraMapping "DC-G9" MicroFourThirds;
    mkCameraMapping "DC-GH6" MicroFourThirds;
    mkCameraMapping "DC-GH5S" MicroFourThirds;
    mkCameraMapping "DC-GH5M2" MicroFourThirds;
    mkCameraMapping "DC-GH5" MicroFourThirds;
    mkCameraMapping "DC-GX850" MicroFourThirds;
    mkCameraMapping "DC-GX800" MicroFourThirds;
    mkCameraMapping "DMC-G85" MicroFourThirds;
    mkCameraMapping "DMC-G80" MicroFourThirds;
    mkCameraMapping "DMC-G10" MicroFourThirds;
    mkCameraMapping "DMC-G7" MicroFourThirds;
    mkCameraMapping "DMC-G6" MicroFourThirds;
    mkCameraMapping "DMC-G5" MicroFourThirds;
    mkCameraMapping "DMC-G3" MicroFourThirds;
    mkCameraMapping "DMC-G2" MicroFourThirds;
    mkCameraMapping "DMC-G1" MicroFourThirds;
    mkCameraMapping "DMC-GF7" MicroFourThirds;
    mkCameraMapping "DMC-GF6" MicroFourThirds;
    mkCameraMapping "DMC-GF5" MicroFourThirds;
    mkCameraMapping "DMC-GF3" MicroFourThirds;
    mkCameraMapping "DMC-GF2" MicroFourThirds;
    mkCameraMapping "DMC-GF1" MicroFourThirds;
    mkCameraMapping "DMC-GH4" MicroFourThirds;
    mkCameraMapping "DMC-GH3" MicroFourThirds;
    mkCameraMapping "DMC-GH2" MicroFourThirds;
    mkCameraMapping "DMC-GH1" MicroFourThirds;
    mkCameraMapping "DMC-GM5" MicroFourThirds;
    mkCameraMapping "DMC-GM1" MicroFourThirds;
    mkCameraMapping "DMC-GX8" MicroFourThirds;
    mkCameraMapping "DMC-GX7" MicroFourThirds;
    mkCameraMapping "DMC-GX1" MicroFourThirds;
    mkCameraMapping "DMC-L10" MicroFourThirds;
    mkCameraMapping "DMC-L1" MicroFourThirds ].

Definition detectionSourceEXIF : string := "exif".
Definition detectionSourceDefault : string := "default".

(** [if c >= 'a' && c <= 'z' { c = c - 'a' + 'A' }] on a byte *)
Definition upperByte (c : ascii) : ascii :=
  let n := byte_of c in
  if ((97 <=? n) && (n <=? 122))%N then ascii_of_N ((n - 97 + 65) mod 256)
  else c.

(** toUpper: every byte of the string goes through the test above. *)
Fixpoint toUpper (s : string) : string :=
  match s with
  | EmptyString => EmptyString
  | String c s' => String (upperByte c) (toUpper s')
  end.

(** The inner loop of contains: [for j := 0; j < len(substr); j++ { if
    s[i+j] != substr[j] { match = false; break } }], with [n] iterations
    to go; the value is [match]. An index is never out of range there. *)
Fixpoint matchLoop (s substr : string) (i j n : nat) : bool :=
  match n with
  | O => true
  | S n' =>
      match String.get (i + j) s, String.get j substr with
      | Some a, Some b =>
          if byte_eqb a b then matchLoop s substr i (S j) n' else false
      | _, _ => false
      end
  end.

(** The outer loop: [for i := 0; i <= len(s)-len(substr); i++ { ...; if
    match { return true } }; return false], with [n] iterations to go. *)
Fixpoint searchLoop (s substr : string) (i n : nat) : bool :=
  match n with
  | O => false
  | S n' =>
      if matchLoop s substr i 0 (len substr) then true
      else searchLoop s substr (S i) n'
  end.

(** contains *)
Definition contains (s substr : string) : bool :=
  if (len s <? len substr)%nat then false
  else searchLoop s substr 0 (S (len s - len substr)).

(** [for _, mapping := range mappings { if contains(modelUpper,
    mapping.Pattern) { return mapping.Sensor, ... } }]: the sensor returned
    inside the loop, if any. *)
Fixpoint firstMatch (modelUpper : string) (mappings : list CameraMapping)
  : option SensorSize :=
  match mappings with
  | [] => None
  | mapping :: rest =>
      if contains modelUpper (Pattern mapping) then Some (Sensor mapping)
      else firstMatch modelUpper rest
  end.

(** detectSensor *)
Definition detectSensor (cameraMake model : string) : SensorSize * string :=
  let makeUpper := toUpper cameraMake in
  let modelUpper := toUpper model in
  match (if contains makeUpper "CANON"
         then firstMatch modelUpper canonMappings else None) with
  | Some sensor => (sensor, detectionSourceEXIF)
  | None =>
  match (if contains makeUpper "NIKON"
         then firstMatch modelUpper nikonMappings else None) with
  | Some sensor => (sensor, detectionSourceEXIF)
  | None =>
  match (if contains makeUpper "SONY"
         then firstMatch modelUpper sonyMappings else None) with
  | Some sensor => (sensor, detectionSourceEXIF)
  | None =>
  if contains makeUpper "OLYMPUS" || contains makeUpper "OM SYSTEM" then
    match firstMatch modelUpper olympusMappings with
    | Some sensor => (sensor, detectionSourceEXIF)
    | None => (MicroFourThirds, detectionSourceEXIF)
    end
  else if contains makeUpper "PANASONIC" then
    match firstMatch modelUpper panasonicMappings with
    | Some sensor => (sensor, detectionSourceEXIF)
    | None => (MicroFourThirds, detectionSourceEXIF)
    end
  else (APSCNikon, detectionSourceDefault)
  end end end.

End Fov.


(** ** Index files (pkg/solver/fov/indexes.go) *)

Module Indexes.

Record IndexFile := mkIndexFile {
  Name : string;
  MinFOV : float64;
  MaxFOV : float64;
  SizeMB : float64;
  DownloadURL : string
}.

Definition index (name minFOV maxFOV sizeMB url : string) : IndexFile :=
  {| Name := name;
     MinFOV := Fov.constant minFOV;
     MaxFOV := Fov.constant maxFOV;
     SizeMB := Fov.constant sizeMB;
     DownloadURL := url |}.

Definition AllIndexFiles : list IndexFile :=
  Eval vm_compute in
  [ index "index-4107" "8.0" "11.0" "165" "http://data.astrometry.net/4100/index-4107.fits";
    index "index-4108" "5.6" "8.0" "95" "http://data.astrometry.net/4100/index-4108.fits";
    index "index-4109" "4.2" "5.6" "50" "http://data.astrometry.net/4100/index-4109.fits";
    index "index-4110" "3.0" "4.2" "25" "http://data.astrometry.net/4100/index-4110.fits";
    index "index-4111" "2.2" "3.0" "10" "http://data.astrometry.net/4100/index-4111.fits";
    index "index-4112" "1.6" "2.2" "5.3" "http://data.astrometry.net/4100/index-4112.fits";
    index "index-4113" "1.1" "1.6" "2.7" "http://data.astrometry.net/4100/index-4113.fits";
    index "index-4114" "0.8" "1.1" "1.4" "http://data.astrometry.net/4100/index-4114.fits";
    index "index-4115" "0.56" "0.8" "0.74" "http://data.astrometry.net/4100/index-4115.fits";
    index "index-4116" "0.4" "0.56" "0.409" "http://data.astrometry.net/4100/index-4116.fits";
    index "index-4117" "0.28" "0.4" "0.248" "http://data.astrometry.net/4100/index-4117.fits";
    index "index-4118" "0.2" "0.28" "0.187" "http://data.astrometry.net/4100/index-4118.fits";
    index "index-4119" "0.1" "0.2" "0.144" "http://data.astrometry.net/4100/index-4119.fits" ].

(** The test of lines 62 and 123: the index overlaps the range. *)
Definition overlaps (minFOV maxFOV : float64) (idx : IndexFile) : bool :=
  (MaxFOV idx >=? minFOV)%f64 && (MinFOV idx <=? maxFOV)%f64.

(** The loop of lines 59-65 of RecommendIndexes, and of lines 120-126 of
    RecommendIndexesForLens: [recommended] before it is sorted. *)
Definition selectIndexes (minFOV maxFOV : float64) : list IndexFile :=
  fold_left
    (fun recommended idx =>
       if overlaps minFOV maxFOV idx then recommended ++ [idx]
       else recommended)
    AllIndexFiles [].

(** The widest and the narrowest field covered by the table. *)
Definition widest : float64 := Eval vm_compute in Fov.constant "11.0".
Definition narrowest : float64 := Eval vm_compute in Fov.constant "0.1".

(** A table in which every index has its bounds in order and ends where
    the index before it begins. *)
Fixpoint chain (l : list IndexFile) : Prop :=
  match l with
  | [] => True
  | a :: t =>
      (MinFOV a <=? MaxFOV a)%f64 = true /\
      match t with
      | [] => True
      | b :: _ => MaxFOV b = MinFOV a
      end /\
      chain t
  end.

End Indexes.

(** ** The order of float64 values

    Values that are no NaN are ordered like their ranks, which are ordered
    from left to right. *)

Definition rank (x : float64) : Z * Z * Z :=
  match x with
  | S754_zero _ => (0, 0, 0)
  | S754_infinity s => (if s then -2 else 2, 0, 0)
  | S754_nan => (0, 0, 0)
  | S754_finite s m e =>
      if s then (-1, - e, - Z.pos m) else (1, e, Z.pos m)
  end.

Definition rank_lt (a b : Z * Z * Z) : Prop :=
  let '(a1, a2, a3) := a in
  let '(b1, b2, b3) := b in
  a1 < b1 \/ (a1 = b1 /\ (a2 < b2 \/ (a2 = b2 /\ a3 < b3))).

Definition rank_le (a b : Z * Z * Z) : Prop := rank_lt a b \/ a = b.


(** ** More test vectors *)

(** Less than one record. *)
Definition short_file : string := "CRVAL1  =                   10".

(** Neither CRVAL1 nor CRVAL2 nor CD1_1. *)
Definition no_reference_file : string := cards [
  "CRPIX1  =                   50 / X reference pixel";
  "CD2_2   =                    1 / Transformation matrix";
  "IMAGEW  =                  100 / Image width";
  "IMAGEH  =                  100 / Image height";
  "CROTA2  =                   30 / Rotation angle (deg)";
  "END" ].

(** An IMAGEW that is not a number, beside a NAXIS1 that is one. *)
Definition bad_width_file : string := cards [
  "CRVAL1  =                   10 / RA of reference point (deg)";
  "CRVAL2  =                   20 / Dec of reference point (deg)";
  "CD1_1   =                  0.5 / Transformation matrix";
  "IMAGEW  =                 wide / Image width";
  "NAXIS1  =                  200 / Image width";
  "IMAGEH  =                  100 / Image height";
  "END" ].

(** A CRVAL1 that is the text NaN. *)
Definition nan_reference_file : string := cards [
  "CRVAL1  =                  NaN / RA of reference point (deg)";
  "CRVAL2  =                   20 / Dec of reference point (deg)";
  "CD1_1   =                  0.5 / Transformation matrix";
  "IMAGEW  =                  100 / Image width";
  "IMAGEH  =                  100 / Image height";
  "END" ].

(** The temporary directory of a solve of m42.jpg: solve-field has written
    m42.wcs and m42.axy there. *)
Definition solve_fs : filesystem := fun path =>
  if String.eqb path "/tmp/astrometry-1/m42.wcs" then inr success_file
  else if String.eqb path "/tmp/astrometry-1/m42.axy" then inr EmptyString
  else if String.eqb path "short.wcs" then inr short_file
  else if String.eqb path "no_reference.wcs" then inr no_reference_file
  else if String.eqb path "nan_reference.wcs" then inr nan_reference_file
  else inl ENOENT.

Definition solve_stat : string -> option nat := fun path =>
  match solve_fs path with
  | inr _ => None
  | inl errno => Some errno
  end.

(** A directory that is there but cannot be read: EACCES. *)
Definition index_stat : string -> option nat := fun path =>
  if String.eqb path "/data/indexes" then None
  else if String.eqb path "/root/indexes" then Some 13%nat
  else Some ENOENT.

(** Every key of the transform, with the reference pixel away from the
    centre of the image. *)
Definition offcenter_file : string := cards [
  "CRPIX1  =                  100 / X reference pixel";
  "CRPIX2  =                   50 / Y reference pixel";
  "CRVAL1  =                   10 / RA of reference point (deg)";
  "CRVAL2  =                   20 / Dec of reference point (deg)";
  "CD1_1   =                 0.25 / Transformation matrix";
  "CD1_2   =                  0.5 / Transformation matrix";
  "CD2_1   =                 -0.5 / Transformation matrix";
  "CD2_2   =                 0.25 / Transformation matrix";
  "IMAGEW  =                  400 / Image width";
  "IMAGEH  =                  300 / Image height";
  "END" ].

(** A CRVAL1 of zero and both image dimensions, no other key. *)
Definition zero_reference_file : string := cards [
  "CRVAL1  =                    0 / RA of reference point (deg)";
  "IMAGEW  =                  100 / Image width";
  "IMAGEH  =                  100 / Image height";
  "END" ].

(** CRVAL1 and both image dimensions, no other key. *)
Definition crval1_only_file : string := cards [
  "CRVAL1  =                   10 / RA of reference point (deg)";
  "IMAGEW  =                  100 / Image width";
  "IMAGEH  =                  100 / Image height";
  "END" ].

Definition gate_fs : filesystem := fun path =>
  if String.eqb path "offcenter.wcs" then inr offcenter_file
  else if String.eqb path "zero_reference.wcs" then inr zero_reference_file
  else if String.eqb path "crval1_only.wcs" then inr crval1_only_file
  else inl ENOENT.

(** * Properties *)

Section ResultShape.

Context {lib : StdLib}.

Lemma computeResult_inv fuel hdr r :
  computeResult fuel hdr = Some r ->
  exists c,
    centerOf fuel hdr = Some c /\
    Solved r = true /\
    RA r = cRA c /\ Dec r = cDec c /\
    PixelScale r = cPixelScale c /\ Rotation r = cRotation c /\
    FieldWidth r =
      fieldUpdate hdr "NAXIS1" (cPixelScale c)
        (fieldUpdate hdr "IMAGEW" (cPixelScale c) zero) /\
    FieldHeight r =
      fieldUpdate hdr "NAXIS2" (cPixelScale c)
        (fieldUpdate hdr "IMAGEH" (cPixelScale c) zero) /\
    WCSHeader r = hdr.
Proof.
  unfold computeResult.
  destruct (centerOf fuel hdr) as [c|]; [|discriminate].
  intros [= <-]. exists c. repeat split.
Qed.

Lemma computeResult_center fuel hdr c :
  centerOf fuel hdr = Some c ->
  exists r, computeResult fuel hdr = Some r /\
    RA r = cRA c /\ Dec r = cDec c /\
    PixelScale r = cPixelScale c /\ Rotation r = cRotation c.
Proof.
  unfold computeResult. intros ->.
  eexists. split; [reflexivity|]. repeat split.
Qed.

Lemma validate_cases r :
  (noFields r = true /\ validate r = (None, Some wcsParseFailed)) \/
  (noFields r = false /\ validate r = (Some r, None)).
Proof. unfold validate. destruct (noFields r); auto. Qed.

Lemma ParseWCSFile_opened fuel fs path file :
  os_Open fs path = inl file ->
  ParseWCSFile fuel fs path =
    match computeResult fuel (readHeader file) with
    | Some r => Some (validate r)
    | None => None
    end.
Proof. unfold ParseWCSFile. intros ->. reflexivity. Qed.

(** A Result that is returned is the one computed from the header of a
    file that opened, and it passed the final check. *)
Lemma ParseWCSFile_returns fuel fs path r e :
  ParseWCSFile fuel fs path = Some (Some r, e) ->
  exists file,
    os_Open fs path = inl file /\
    computeResult fuel (readHeader file) = Some r /\
    noFields r = false /\ e = None.
Proof.
  unfold ParseWCSFile.
  destruct (os_Open fs path) as [file|err]; [|discriminate].
  destruct (computeResult fuel (readHeader file)) as [r'|] eqn:Hc;
    [|discriminate].
  destruct (validate_cases r') as [[Hz ->]|[Hz ->]]; [discriminate|].
  intros [= <- <-]. exists file. auto.
Qed.

(** C10: every Result that ParseWCSFile returns has Solved set. *)
Theorem returned_result_is_solved fuel fs path r e :
  ParseWCSFile fuel fs path = Some (Some r, e) -> Solved r = true.
Proof.
  intros H. apply ParseWCSFile_returns in H as (file & _ & Hc & _).
  apply computeResult_inv in Hc as (c & _ & Hs & _). exact Hs.
Qed.

(** C2: once the file is read and the fields are computed, the call fails
    with the WCS-parse-failed error exactly when RA, Dec and PixelScale are
    all equal to zero, and it returns the computed Result exactly when they
    are not; so no returned Result has the three of them zero. *)
Theorem parse_failed_iff_no_fields fuel fs path file r :
  os_Open fs path = inl file ->
  computeResult fuel (readHeader file) = Some r ->
  (ParseWCSFile fuel fs path = Some (None, Some wcsParseFailed) <->
     ((RA r == zero) && (Dec r == zero) && (PixelScale r == zero))%f64 = true) /\
  (ParseWCSFile fuel fs path = Some (Some r, None) <->
     ((RA r == zero) && (Dec r == zero) && (PixelScale r == zero))%f64 = false) /\
  (forall r' e, ParseWCSFile fuel fs path = Some (Some r', e) ->
     ((RA r' == zero) && (Dec r' == zero) && (PixelScale r' == zero))%f64 = false) /\
  errors_Is wcsParseFailed ErrWCSParseFailed = true.
Proof.
  intros Ho Hc. rewrite (ParseWCSFile_opened _ _ _ _ Ho), Hc.
  fold (noFields r).
  destruct (validate_cases r) as [[Hz ->]|[Hz ->]]; rewrite Hz;
    (split; [split; [intros [= ]|]; (reflexivity || discriminate)|]);
    (split; [split; [intros [= ]|]; (reflexivity || discriminate)|]);
    (split; [|reflexivity]); intros r' e [= <- <-].
  exact Hz.
Qed.

(** C8: when the path cannot be opened the call returns no Result and the
    error of os.Open wrapped under "failed to open WCS file"; that error is
    not the WCS-parse-failed error, and errors.Is tells the two apart. *)
Theorem open_failure_is_io_error fuel fs path errno :
  fs path = inl errno ->
  let ioErr :=
    Errorf_w_suffix "failed to open WCS file" (PathError "open" path errno) in
  ParseWCSFile fuel fs path = Some (None, Some ioErr) /\
  ioErr <> wcsParseFailed /\
  errors_Is ioErr ErrWCSParseFailed = false /\
  errors_Is wcsParseFailed ErrWCSParseFailed = true /\
  error_cause ioErr = PathError "open" path errno.
Proof.
  intros Hfs ioErr. unfold ParseWCSFile, os_Open. rewrite Hfs.
  repeat split; discriminate.
Qed.


(** ** The gate of the primary path *)

Lemma hasWCS_iff hdr :
  hasWCS (extractParams hdr) = true <->
  exists s v, hdr !! "CRVAL1" = Some s /\ ParseFloat s = Some v.
Proof.
  unfold extractParams, headerFloat; simpl.
  destruct (hdr !! "CRVAL1") as [s|] eqn:Hk.
  - destruct (ParseFloat s) as [v|] eqn:Hp.
    + split; [intros _; exists s, v; auto | reflexivity].
    + split; [discriminate|]. intros (s' & v & [= <-] & Hv). congruence.
  - split; [discriminate|]. intros (s' & v & [=] & _).
Qed.

Lemma usePrimary_iff p :
  usePrimary p = true <->
  hasWCS p = true /\ (imageW p >? zero)%f64 = true
  /\ (imageH p >? zero)%f64 = true.
Proof.
  unfold usePrimary. rewrite !andb_true_iff. tauto.
Qed.


(** ** Signs *)

Lemma round_aux_not_negative m e l :
  (binary_round_aux prec emax false m e l <? zero)%f64 = false.
Proof.
  unfold binary_round_aux.
  destruct (shr_fexp prec emax m e l) as [mrs' e'].
  destruct (shr_fexp prec emax _ e' loc_Exact) as [mrs'' e''].
  destruct (shr_m mrs''); [reflexivity| |reflexivity].
  destruct (e'' <=? emax - prec); reflexivity.
Qed.

Lemma ltb_zero_false_cases (x : float64) :
  (x <? zero)%f64 = false <->
  match x with
  | S754_finite true _ _ | S754_infinity true => False
  | _ => True
  end.
Proof. destruct x as [[]|[]| |[] m e]; simpl; intuition discriminate. Qed.

Lemma mul_not_negative (x y : float64) :
  (x <? zero)%f64 = false -> (y <? zero)%f64 = false ->
  (x * y <? zero)%f64 = false.
Proof.
  intros Hx Hy. apply ltb_zero_false_cases in Hx, Hy.
  destruct x as [[]|[]| |[] mx ex], y as [[]|[]| |[] my ey];
    try contradiction; try reflexivity.
  apply round_aux_not_negative.
Qed.

Lemma sqrt_not_negative (x : float64) : (sqrt x <? zero)%f64 = false.
Proof.
  destruct x as [[]|[]| |[] m e]; try reflexivity.
  unfold sqrt, SFsqrt.
  destruct (SFsqrt_core_binary prec emax (Z.pos m) e) as [[mz ez] lz].
  apply round_aux_not_negative.
Qed.

Lemma abs_not_negative (x : float64) : (abs x <? zero)%f64 = false.
Proof.
  unfold abs. destruct (x <? zero)%f64 eqn:Hx; [|exact Hx].
  destruct x as [[]|[]| |[] m e]; try discriminate; reflexivity.
Qed.

Lemma primaryPath_pixel_scale fuel p c :
  primaryPath fuel p = Some c ->
  cPixelScale c = (sqrt (cd11 p * cd11 p + cd21 p * cd21 p) * c3600)%f64.
Proof.
  unfold primaryPath. destruct (normalizeRotation fuel _); [|discriminate].
  intros [= <-]. reflexivity.
Qed.

(** C9: the PixelScale of a returned Result is a square root times 3600 on
    the primary path and an absolute value times 3600 or zero on the
    fallback path, and it is never below zero. *)
Theorem pixel_scale_not_negative fuel fs path r e :
  ParseWCSFile fuel fs path = Some (Some r, e) ->
  (PixelScale r <? zero)%f64 = false /\
  exists file, os_Open fs path = inl file /\
    let p := extractParams (readHeader file) in
    PixelScale r =
      if usePrimary p
      then (sqrt (cd11 p * cd11 p + cd21 p * cd21 p) * c3600)%f64
      else if (cd11 p != zero)%f64 then (abs (cd11 p) * c3600)%f64
           else zero.
Proof.
  intros H. apply ParseWCSFile_returns in H as (file & Ho & Hc & _).
  apply computeResult_inv in Hc as (c & Hc & _ & _ & _ & -> & _).
  unfold centerOf in Hc.
  assert (Hps : cPixelScale c =
    let p := extractParams (readHeader file) in
    if usePrimary p
    then (sqrt (cd11 p * cd11 p + cd21 p * cd21 p) * c3600)%f64
    else if (cd11 p != zero)%f64 then (abs (cd11 p) * c3600)%f64 else zero).
  { revert Hc. simpl. destruct (usePrimary _); intros Hc.
    - apply (primaryPath_pixel_scale _ _ _ Hc).
    - injection Hc as <-. reflexivity. }
  split; [|exists file; auto].
  rewrite Hps. simpl.
  destruct (usePrimary _).
  - apply mul_not_negative; [apply sqrt_not_negative | reflexivity].
  - destruct (_ != _)%f64; [|reflexivity].
    apply mul_not_negative; [apply abs_not_negative | reflexivity].
Qed.

(** ** Field dimensions *)

(** C7: with a strictly positive PixelScale, a header in which IMAGEW and
    NAXIS1 both parse gets FieldWidth from NAXIS1 (the later assignment
    wins), and FieldHeight from NAXIS2 when IMAGEH and NAXIS2 both parse;
    with a PixelScale that is not strictly positive both stay zero. *)
Theorem field_dimensions_last_write_wins fuel hdr r :
  computeResult fuel hdr = Some r ->
  ((PixelScale r >? zero)%f64 = true ->
     (forall si wi sn wn,
        hdr !! "IMAGEW" = Some si -> ParseFloat si = Some wi ->
        hdr !! "NAXIS1" = Some sn -> ParseFloat sn = Some wn ->
        FieldWidth r = ((wn * PixelScale r) / c3600)%f64) /\
     (forall si hi sn hn,
        hdr !! "IMAGEH" = Some si -> ParseFloat si = Some hi ->
        hdr !! "NAXIS2" = Some sn -> ParseFloat sn = Some hn ->
        FieldHeight r = ((hn * PixelScale r) / c3600)%f64)) /\
  ((PixelScale r >? zero)%f64 = false ->
     FieldWidth r = zero /\ FieldHeight r = zero).
Proof.
  intros Hc.
  apply computeResult_inv in Hc as (c & _ & _ & _ & _ & Hps & _ & Hw & Hh & _).
  rewrite Hw, Hh, Hps. unfold fieldUpdate. split.
  - intros Hpos. rewrite Hpos. split; intros si wi sn wn H1 H2 H3 H4;
      rewrite H1, H2, H3, H4; reflexivity.
  - intros Hneg. rewrite Hneg.
    split; repeat (destruct (hdr !! _); [destruct (ParseFloat _)|]);
      reflexivity.
Qed.


(** ** The fallback path *)

Lemma imageDim_absent hdr k1 k2 :
  hdr !! k1 = None -> hdr !! k2 = None -> imageDim hdr k1 k2 = zero.
Proof. unfold imageDim. intros -> ->. reflexivity. Qed.

Lemma fallback_result fuel hdr :
  usePrimary (extractParams hdr) = false ->
  exists r,
    computeResult fuel hdr = Some r /\
    centerOf fuel hdr = Some (fallbackPath hdr (extractParams hdr)) /\
    RA r = floatVar hdr "CRVAL1" /\ Dec r = floatVar hdr "CRVAL2" /\
    PixelScale r = cPixelScale (fallbackPath hdr (extractParams hdr)) /\
    Rotation r = floatVar hdr "CROTA2".
Proof.
  intros Hu.
  assert (Hc : centerOf fuel hdr = Some (fallbackPath hdr (extractParams hdr))).
  { unfold centerOf. rewrite Hu. reflexivity. }
  destruct (computeResult_center _ _ _ Hc) as (r & Hr & H1 & H2 & H3 & H4).
  exists r. repeat split; assumption.
Qed.

(** C4, amended: a file in which CRVAL1 is absent, or IMAGEW and NAXIS1 are
    both absent, or IMAGEH and NAXIS2 are both absent, takes the fallback
    path, for which RA and Dec are the extracted CRVAL1 and CRVAL2 with no
    offset applied. The absence of CRVAL2 is not among the conditions. *)
Theorem fallback_when_reference_or_dimension_absent fs path file :
  os_Open fs path = inl file ->
  readHeader file !! "CRVAL1" = None \/
  (readHeader file !! "IMAGEW" = None /\ readHeader file !! "NAXIS1" = None) \/
  (readHeader file !! "IMAGEH" = None /\ readHeader file !! "NAXIS2" = None) ->
  usePrimary (extractParams (readHeader file)) = false /\
  forall fuel, exists r,
    computeResult fuel (readHeader file) = Some r /\
    ParseWCSFile fuel fs path = Some (validate r) /\
    RA r = floatVar (readHeader file) "CRVAL1" /\
    Dec r = floatVar (readHeader file) "CRVAL2".
Proof.
  intros Ho Hmiss.
  assert (Hu : usePrimary (extractParams (readHeader file)) = false).
  { unfold usePrimary, extractParams, headerFloat; simpl.
    destruct Hmiss as [H1 | [[H1 H2] | [H1 H2]]].
    - rewrite H1. reflexivity.
    - rewrite (imageDim_absent _ _ _ H1 H2).
      rewrite andb_false_r. reflexivity.
    - rewrite (imageDim_absent _ _ _ H1 H2).
      rewrite andb_false_r. reflexivity. }
  split; [exact Hu|]. intros fuel.
  destruct (fallback_result fuel _ Hu) as (r & Hr & _ & HRA & HDec & _).
  exists r. rewrite (ParseWCSFile_opened _ _ _ _ Ho), Hr. auto.
Qed.


(** ** Fuel

    A loop that has stopped within some fuel gives the same value with
    more, so the Result does not depend on the fuel once there is enough. *)

Lemma addWhileNegative_more fuel k r r' :
  addWhileNegative fuel r = Some r' ->
  addWhileNegative (fuel + k) r = Some r'.
Proof.
  revert r. induction fuel as [|fuel IH]; intros r; simpl.
  - destruct (r <? zero)%f64 eqn:E; [discriminate|].
    intros [= <-]. destruct k; simpl; rewrite E; reflexivity.
  - destruct (r <? zero)%f64; [apply IH|auto].
Qed.

Lemma subWhileAtLeast360_more fuel k r r' :
  subWhileAtLeast360 fuel r = Some r' ->
  subWhileAtLeast360 (fuel + k) r = Some r'.
Proof.
  revert r. induction fuel as [|fuel IH]; intros r; simpl.
  - destruct (r >=? c360)%f64 eqn:E; [discriminate|].
    intros [= <-]. destruct k; simpl; rewrite E; reflexivity.
  - destruct (r >=? c360)%f64; [apply IH|auto].
Qed.

Lemma normalizeRotation_more fuel k r r' :
  normalizeRotation fuel r = Some r' ->
  normalizeRotation (fuel + k) r = Some r'.
Proof.
  unfold normalizeRotation.
  destruct (addWhileNegative fuel r) as [r1|] eqn:E1; [|discriminate].
  rewrite (addWhileNegative_more _ k _ _ E1).
  apply subWhileAtLeast360_more.
Qed.

Lemma computeResult_more fuel k hdr r :
  computeResult fuel hdr = Some r ->
  computeResult (fuel + k) hdr = Some r.
Proof.
  unfold computeResult, centerOf.
  destruct (usePrimary (extractParams hdr)); [|auto].
  unfold primaryPath.
  destruct (normalizeRotation fuel _) as [rot|] eqn:E; [|discriminate].
  rewrite (normalizeRotation_more _ k _ _ E). auto.
Qed.

Lemma ParseWCSFile_more fuel k fs path out :
  ParseWCSFile fuel fs path = Some out ->
  ParseWCSFile (fuel + k) fs path = Some out.
Proof.
  unfold ParseWCSFile. destruct (os_Open fs path) as [file|err]; [|auto].
  destruct (computeResult fuel (readHeader file)) as [r|] eqn:E;
    [|discriminate].
  rewrite (computeResult_more _ k _ _ E). auto.
Qed.

End ResultShape.

(** * Properties of the metadata reader *)

(** ** Strings *)

Lemma app_nil_l b : EmptyString +:+ b = b.
Proof. reflexivity. Qed.

Lemma app_cons c a b : String c a +:+ b = String c (a +:+ b).
Proof. reflexivity. Qed.

Ltac sapp := rewrite ?app_cons, ?app_nil_l.

Lemma len_app a b : len (a +:+ b) = (len a + len b)%nat.
Proof.
  induction a as [|c a IH]; sapp; simpl; [reflexivity|].
  rewrite IH. reflexivity.
Qed.

Lemma take_app_exact a b : take (len a) (a +:+ b) = a.
Proof.
  induction a as [|c a IH]; sapp; simpl; [destruct b; reflexivity|].
  rewrite IH. reflexivity.
Qed.

Lemma take_drop n s : take n s +:+ drop n s = s.
Proof.
  revert s. induction n as [|n IH]; intros [|c s]; simpl; sapp;
    try reflexivity.
  rewrite IH. reflexivity.
Qed.

Lemma len_take n s : len (take n s) = Nat.min n (len s).
Proof.
  revert s. induction n as [|n IH]; intros [|c s]; simpl; try reflexivity.
  rewrite IH. reflexivity.
Qed.

Lemma len_drop n s : len (drop n s) = (len s - n)%nat.
Proof.
  revert s. induction n as [|n IH]; intros [|c s]; simpl; try reflexivity.
  apply IH.
Qed.

Lemma drop_drop n m s : drop m (drop n s) = drop (n + m) s.
Proof.
  revert s. induction n as [|n IH]; intros s; simpl; [reflexivity|].
  destruct s as [|c s]; simpl; [destruct m; reflexivity|]. apply IH.
Qed.

Lemma len_zero s : len s = O -> s = EmptyString.
Proof. destruct s; [reflexivity|discriminate]. Qed.

(** The first occurrence of a byte splits the string. *)
Lemma IndexByte_Some s c i :
  IndexByte s c = Some i ->
  s = take i s +:+ String c (drop (S i) s) /\ IndexByte (take i s) c = None.
Proof.
  revert i. induction s as [|d s IH]; intros i; simpl; [discriminate|].
  unfold byte_eqb. destruct (Ascii.eqb_spec d c) as [->|Hne].
  - intros [= <-]. simpl. sapp. destruct s; auto.
  - destruct (IndexByte s c) as [j|]; [|discriminate].
    intros [= <-]. destruct (IH j eq_refl) as [Hs Hn]. simpl. sapp.
    unfold byte_eqb. destruct (Ascii.eqb_spec d c); [contradiction|].
    rewrite Hn. split; [f_equal; exact Hs | reflexivity].
Qed.

Lemma IndexByte_app a c b :
  IndexByte a c = None -> IndexByte (a +:+ String c b) c = Some (len a).
Proof.
  induction a as [|d a IH]; sapp; simpl.
  - intros _. unfold byte_eqb. rewrite Ascii.eqb_refl. reflexivity.
  - destruct (byte_eqb d c); [discriminate|].
    destruct (IndexByte a c); [discriminate|]. intros _.
    rewrite IH by reflexivity. reflexivity.
Qed.

Lemma IndexByte_None_cons d s c :
  IndexByte (String d s) c = None -> IndexByte s c = None.
Proof.
  simpl. destruct (byte_eqb d c); [discriminate|].
  destruct (IndexByte s c); [discriminate|reflexivity].
Qed.

Lemma stripComment_app a b :
  IndexByte a "/"%char = None -> stripComment (a +:+ String "/"%char b) = a.
Proof.
  intros Ha. unfold stripComment. rewrite (IndexByte_app _ _ _ Ha).
  apply take_app_exact.
Qed.

Lemma stripComment_None s :
  IndexByte s "/"%char = None -> stripComment s = s.
Proof. unfold stripComment. intros ->. reflexivity. Qed.

Lemma stripComment_cases s :
  (IndexByte s "/"%char = None /\ stripComment s = s) \/
  (exists a b, s = a +:+ String "/"%char b /\ IndexByte a "/"%char = None
               /\ stripComment s = a).
Proof.
  destruct (IndexByte s "/"%char) as [i|] eqn:Hi.
  - right. destruct (IndexByte_Some _ _ _ Hi) as [Hs Hn].
    exists (take i s), (drop (S i) s). repeat split; try assumption.
    unfold stripComment. rewrite Hi. reflexivity.
  - left. split; [reflexivity|]. apply stripComment_None, Hi.
Qed.

(** ** Trimming *)

Lemma isSpace2_slash_r c : isSpace2 c "/"%char = false.
Proof. unfold isSpace2. simpl. apply andb_false_r. Qed.

Lemma isSpace3_slash_2 c1 c3 : isSpace3 c1 "/"%char c3 = false.
Proof.
  unfold isSpace3. simpl.
  rewrite !andb_false_r. reflexivity.
Qed.

Lemma isSpace3_slash_3 c1 c2 : isSpace3 c1 c2 "/"%char = false.
Proof.
  unfold isSpace3. simpl.
  rewrite !andb_false_r. reflexivity.
Qed.

Lemma TrimLeftSpace_no_lead s : leadSpace s = false -> TrimLeftSpace s = s.
Proof.
  destruct s as [|c1 [|c2 [|c3 s3]]]; simpl; try reflexivity.
  - rewrite orb_false_r. intros ->. reflexivity.
  - rewrite orb_false_r. intros [-> ->]%orb_false_elim. reflexivity.
  - intros [-> [-> ->]%orb_false_elim]%orb_false_elim. reflexivity.
Qed.

(** Induction along the runs of [TrimLeftSpace]. *)
Lemma TrimLeftSpace_ind (P : string -> string -> Prop) :
  (forall c1 s1, isSpace1 c1 = true ->
     P s1 (TrimLeftSpace s1) -> P (String c1 s1) (TrimLeftSpace s1)) ->
  (forall c1 c2 s2, isSpace1 c1 = false -> isSpace2 c1 c2 = true ->
     P s2 (TrimLeftSpace s2) ->
     P (String c1 (String c2 s2)) (TrimLeftSpace s2)) ->
  (forall c1 c2 c3 s3, isSpace1 c1 = false -> isSpace2 c1 c2 = false ->
     isSpace3 c1 c2 c3 = true -> P s3 (TrimLeftSpace s3) ->
     P (String c1 (String c2 (String c3 s3))) (TrimLeftSpace s3)) ->
  (forall s, leadSpace s = false -> P s s) ->
  forall s, P s (TrimLeftSpace s).
Proof.
  intros H1 H2 H3 H0.
  assert (Hn : forall n s, (len s <= n)%nat -> P s (TrimLeftSpace s)).
  { induction n as [|n IH]; intros s Hlen.
    - destruct s; [|simpl in Hlen; lia]. apply (H0 EmptyString). reflexivity.
    - destruct (leadSpace s) eqn:Hlead.
      2:{ rewrite (TrimLeftSpace_no_lead _ Hlead). apply H0, Hlead. }
      destruct s as [|c1 s1]; [discriminate|]. simpl in Hlen.
      simpl. destruct (isSpace1 c1) eqn:E1.
      { apply H1; [exact E1|]. apply IH. lia. }
      simpl in Hlead. rewrite E1 in Hlead. simpl in Hlead.
      destruct s1 as [|c2 s2]; [discriminate|]. simpl in Hlen.
      destruct (isSpace2 c1 c2) eqn:E2.
      { apply H2; try assumption. apply IH. lia. }
      simpl in Hlead.
      destruct s2 as [|c3 s3]; [discriminate|].
      simpl in Hlen. rewrite Hlead. apply H3; try assumption. apply IH. lia. }
  intros s. apply (Hn (len s)). lia.
Qed.

Lemma leadSpace_app_slash s b :
  leadSpace s = false -> leadSpace (s +:+ String "/"%char b) = false.
Proof.
  destruct s as [|c1 [|c2 [|c3 s3]]]; sapp; simpl.
  - intros _. destruct b as [|c2 [|c3 b]]; reflexivity.
  - rewrite orb_false_r. intros ->. rewrite isSpace2_slash_r. simpl.
    destruct b; [reflexivity|]. apply isSpace3_slash_2.
  - rewrite orb_false_r. intros [-> ->]%orb_false_elim. simpl.
    apply isSpace3_slash_3.
  - auto.
Qed.

Lemma TrimLeftSpace_app_slash a b :
  TrimLeftSpace (a +:+ String "/"%char b)
  = TrimLeftSpace a +:+ String "/"%char b.
Proof.
  revert b. pattern a, (TrimLeftSpace a). apply TrimLeftSpace_ind; clear a.
  - intros c1 s1 E1 IH b. sapp. simpl. rewrite E1. apply IH.
  - intros c1 c2 s2 E1 E2 IH b. sapp. simpl. rewrite E1, E2. apply IH.
  - intros c1 c2 c3 s3 E1 E2 E3 IH b. sapp. simpl. rewrite E1, E2, E3.
    apply IH.
  - intros s Hs b. apply TrimLeftSpace_no_lead, leadSpace_app_slash, Hs.
Qed.

Lemma TrimLeftSpace_suffix s : exists w, s = w +:+ TrimLeftSpace s.
Proof.
  pattern s, (TrimLeftSpace s). apply TrimLeftSpace_ind; clear s.
  - intros c1 s1 _ [w Hw]. exists (String c1 w). sapp. congruence.
  - intros c1 c2 s2 _ _ [w Hw]. exists (String c1 (String c2 w)). sapp.
    congruence.
  - intros c1 c2 c3 s3 _ _ _ [w Hw].
    exists (String c1 (String c2 (String c3 w))). sapp. congruence.
  - intros s _. exists EmptyString. reflexivity.
Qed.

Lemma leadSpace_TrimLeftSpace s : leadSpace (TrimLeftSpace s) = false.
Proof.
  pattern s, (TrimLeftSpace s). apply TrimLeftSpace_ind; clear s; auto.
Qed.

Lemma TrimLeftSpace_idem s :
  TrimLeftSpace (TrimLeftSpace s) = TrimLeftSpace s.
Proof. apply TrimLeftSpace_no_lead, leadSpace_TrimLeftSpace. Qed.

Lemma leadSpace_prefix p q : leadSpace p = true -> leadSpace (p +:+ q) = true.
Proof.
  destruct p as [|c1 [|c2 [|c3 p]]]; sapp; simpl; try discriminate.
  - rewrite orb_false_r. intros ->. reflexivity.
  - rewrite orb_false_r. intros [->| ->]%orb_true_iff; [reflexivity|].
    simpl. apply orb_true_r.
  - auto.
Qed.

Lemma isSpaceRune_slash x y : isSpaceRune (x +:+ String "/"%char y) = false.
Proof.
  destruct x as [|c1 [|c2 [|c3 x]]]; sapp; simpl.
  - destruct y as [|c2 [|c3 [|c4 y]]]; reflexivity.
  - destruct y as [|c3 [|c4 y]]; [apply isSpace2_slash_r| |reflexivity].
    apply isSpace3_slash_2.
  - destruct y; [apply isSpace3_slash_3|reflexivity].
  - destruct x; sapp; reflexivity.
Qed.

Lemma TrimRightSpace_app_slash a b :
  TrimRightSpace (a +:+ String "/"%char b)
  = a +:+ String "/"%char (TrimRightSpace b).
Proof.
  induction a as [|c a IH]; sapp; cbn [TrimRightSpace].
  - pose proof (isSpaceRune_slash EmptyString (TrimRightSpace b)) as H.
    rewrite app_nil_l in H. rewrite H. reflexivity.
  - rewrite IH.
    pose proof (isSpaceRune_slash (String c a) (TrimRightSpace b)) as H.
    rewrite app_cons in H. rewrite H. reflexivity.
Qed.

Lemma TrimRightSpace_idem s :
  TrimRightSpace (TrimRightSpace s) = TrimRightSpace s.
Proof.
  induction s as [|c s IH]; cbn [TrimRightSpace]; [reflexivity|].
  destruct (isSpaceRune (String c (TrimRightSpace s))) eqn:E; [reflexivity|].
  cbn [TrimRightSpace]. rewrite IH, E. reflexivity.
Qed.

Lemma TrimRightSpace_prefix s : exists w, s = TrimRightSpace s +:+ w.
Proof.
  induction s as [|c s [w Hw]]; cbn [TrimRightSpace];
    [exists EmptyString; reflexivity|].
  destruct (isSpaceRune _).
  - exists (String c s). reflexivity.
  - exists w. sapp. congruence.
Qed.

Lemma IndexByte_None_app a b c :
  IndexByte (a +:+ b) c = None ->
  IndexByte a c = None /\ IndexByte b c = None.
Proof.
  induction a as [|d a IH]; sapp; simpl; [auto|].
  destruct (byte_eqb d c); [discriminate|].
  destruct (IndexByte (a +:+ b) c); [discriminate|]. intros _.
  destruct (IH eq_refl) as [-> ->]. auto.
Qed.

Lemma IndexByte_TrimLeftSpace s c :
  IndexByte s c = None -> IndexByte (TrimLeftSpace s) c = None.
Proof.
  destruct (TrimLeftSpace_suffix s) as [w Hw]. rewrite Hw at 1.
  intros H. apply IndexByte_None_app in H. tauto.
Qed.

Lemma IndexByte_TrimRightSpace s c :
  IndexByte s c = None -> IndexByte (TrimRightSpace s) c = None.
Proof.
  destruct (TrimRightSpace_prefix s) as [w Hw]. rewrite Hw at 1.
  intros H. apply IndexByte_None_app in H. tauto.
Qed.

Lemma TrimSpace_idem s : TrimSpace (TrimSpace s) = TrimSpace s.
Proof.
  unfold TrimSpace.
  assert (H : TrimLeftSpace (TrimRightSpace (TrimLeftSpace s))
              = TrimRightSpace (TrimLeftSpace s)).
  { apply TrimLeftSpace_no_lead.
    destruct (leadSpace (TrimRightSpace (TrimLeftSpace s))) eqn:E;
      [|reflexivity].
    destruct (TrimRightSpace_prefix (TrimLeftSpace s)) as [w Hw].
    apply (leadSpace_prefix _ w) in E. rewrite <- Hw in E.
    rewrite leadSpace_TrimLeftSpace in E. discriminate. }
  rewrite H. apply TrimRightSpace_idem.
Qed.

(** Trimming before the comment is cut off changes nothing once the value
    is trimmed again afterwards. *)
Lemma TrimSpace_stripComment_TrimSpace s :
  TrimSpace (stripComment (TrimSpace s)) = TrimSpace (stripComment s).
Proof.
  destruct (stripComment_cases s) as [[Hn ->]|(a & b & -> & Ha & ->)].
  - rewrite stripComment_None; [apply TrimSpace_idem|].
    apply IndexByte_TrimRightSpace, IndexByte_TrimLeftSpace, Hn.
  - unfold TrimSpace at 2.
    rewrite TrimLeftSpace_app_slash, TrimRightSpace_app_slash.
    rewrite stripComment_app by (apply IndexByte_TrimLeftSpace, Ha).
    unfold TrimSpace. rewrite TrimLeftSpace_idem. reflexivity.
Qed.

(** ** One record *)

Lemma parseRecord_spec_entry line hdr :
  parseRecord line hdr =
  match spec_entry line with
  | Some (key, value) => <[key := value]> hdr
  | None => hdr
  end.
Proof.
  unfold parseRecord, spec_entry.
  destruct (len line =? 0)%nat eqn:Hlen.
  - apply Nat.eqb_eq, len_zero in Hlen. subst line. reflexivity.
  - simpl. destruct (HasPrefix line "END"); [reflexivity|].
    unfold SplitN2. destruct (IndexByte line "="%char) as [i|]; [|reflexivity].
    fold (stripComment (TrimSpace (drop (S i) line))).
    rewrite TrimSpace_stripComment_TrimSpace. reflexivity.
Qed.

(** ** The records of a file *)

Lemma spec_records_short f : (len f < 80)%nat -> spec_records f = [].
Proof.
  intros H. unfold spec_records. rewrite Nat.div_small by exact H. reflexivity.
Qed.

Lemma spec_records_step f :
  (80 <= len f)%nat ->
  spec_records f = take 80 f :: spec_records (drop 80 f).
Proof.
  intros H. unfold spec_records.
  assert (Hd : (len f / 80 = S (len (drop 80 f) / 80))%nat).
  { rewrite len_drop.
    replace (len f) with ((len f - 80) + 1 * 80)%nat at 1 by lia.
    rewrite Nat.div_add by discriminate. lia. }
  rewrite Hd. cbn [seq map]. f_equal.
  rewrite <- seq_shift, map_map. apply map_ext. intros i.
  rewrite drop_drop. do 2 f_equal. lia.
Qed.

Lemma readRecords_fold fuel f hdr :
  (len f < fuel)%nat ->
  readRecords fuel f hdr
  = fold_left (fun h line => parseRecord line h) (spec_records f) hdr.
Proof.
  revert f hdr. induction fuel as [|fuel IH]; intros f hdr Hf; [lia|].
  cbn [readRecords]. unfold file_Read.
  destruct f as [|c f'] eqn:Ef; [reflexivity|]. rewrite <- Ef in *.
  assert (Hpos : (0 < len f)%nat) by (subst f; simpl; lia).
  clear Ef c f'.
  rewrite len_take.
  destruct (Nat.min 80 (len f) =? 80)%nat eqn:E; simpl.
  - apply Nat.eqb_eq in E.
    rewrite spec_records_step by lia. cbn [fold_left].
    apply IH. rewrite len_drop. lia.
  - apply Nat.eqb_neq in E. rewrite spec_records_short by lia. reflexivity.
Qed.

Lemma fold_parseRecord_lookup records hdr key :
  fold_left (fun h line => parseRecord line h) records hdr !! key
  = match lastValue (spec_entries records) key with
    | Some v => Some v
    | None => hdr !! key
    end.
Proof.
  revert hdr. induction records as [|r records IH]; intros hdr;
    cbn [fold_left spec_entries]; [reflexivity|].
  rewrite IH, parseRecord_spec_entry.
  destruct (spec_entry r) as [[k v]|]; [|reflexivity].
  cbn [lastValue].
  destruct (lastValue (spec_entries records) key); [reflexivity|].
  destruct (String.eqb_spec k key) as [->|Hne].
  - apply lookup_insert_eq.
  - apply lookup_insert_ne. exact Hne.
Qed.

(** C6: the header map holds, for every key, the value of the last full
    80-byte record that yields this key, where the full records are the
    consecutive 80-byte blocks of the file, a record that begins with END
    or has no '=' yields nothing, the key is the trimmed text before the
    first '=' and the value is the text after it with the comment cut off,
    trimmed, stripped of single quotes and trimmed again. *)
Theorem header_map_of_records (f : string) (key : string) :
  readHeader f !! key = lastValue (spec_entries (spec_records f)) key.
Proof.
  unfold readHeader. rewrite readRecords_fold by lia.
  rewrite fold_parseRecord_lookup, lookup_empty.
  destruct (lastValue _ key); reflexivity.
Qed.

(** * Properties of binary64 rounding *)

(** ** Digits *)

Lemma digits2_size p : digits2_pos p = Pos.size p.
Proof. induction p; simpl; congruence. Qed.

Lemma digits_bounds p :
  2 ^ (Z.pos (digits2_pos p) - 1) <= Z.pos p < 2 ^ Z.pos (digits2_pos p).
Proof.
  rewrite digits2_size. split.
  - pose proof (Pos.size_le p) as H.
    assert (H' : 2 ^ Z.pos (Pos.size p) <= 2 * Z.pos p).
    { change (2 * Z.pos p) with (Z.pos p~0). rewrite <- Pos2Z.inj_pow.
      apply Pos2Z.pos_le_pos. exact H. }
    replace (Z.pos (Pos.size p)) with (Z.pos (Pos.size p) - 1 + 1) in H' by lia.
    rewrite Z.pow_add_r in H' by lia. lia.
  - pose proof (Pos.size_gt p) as H.
    change 2 with (Z.pos 2). rewrite <- Pos2Z.inj_pow.
    apply Pos2Z.pos_lt_pos. exact H.
Qed.

Lemma Zdigits2_nonneg m : 0 <= Zdigits2 m.
Proof. destruct m; simpl; lia. Qed.

Lemma Zdigits2_bounds m :
  0 < m -> 2 ^ (Zdigits2 m - 1) <= m < 2 ^ Zdigits2 m.
Proof. destruct m as [|p|p]; try lia. intros _. apply digits_bounds. Qed.

(** A positive number below [2^d] has at most [d] digits, one from [2^(d-1)]
    on has at least [d]. *)
Lemma Zdigits2_le m d : 0 <= d -> 0 <= m < 2 ^ d -> Zdigits2 m <= d.
Proof.
  intros Hd [H0 H]. destruct (Z.eq_dec m 0) as [->|Hm]; [simpl; lia|].
  destruct (Zdigits2_bounds m ltac:(lia)) as [Hl _].
  destruct (Z.le_gt_cases (Zdigits2 m) d) as [|Hgt]; [assumption|].
  exfalso. assert (2 ^ d <= 2 ^ (Zdigits2 m - 1)) by (apply Z.pow_le_mono_r; lia).
  lia.
Qed.

Lemma Zdigits2_ge m d : 0 < d -> 2 ^ (d - 1) <= m -> d <= Zdigits2 m.
Proof.
  intros Hd H. assert (0 < m) by (pose proof (Z.pow_pos_nonneg 2 (d - 1)); lia).
  destruct (Zdigits2_bounds m ltac:(lia)) as [_ Hu].
  destruct (Z.le_gt_cases d (Zdigits2 m)) as [|Hgt]; [assumption|].
  exfalso. assert (2 ^ Zdigits2 m <= 2 ^ (d - 1)) by (apply Z.pow_le_mono_r; lia).
  lia.
Qed.

Lemma fexp_mono a b : a <= b -> fexp prec emax a <= fexp prec emax b.
Proof. unfold fexp, emin, prec, emax. lia. Qed.

Lemma fexp_ge_emin a : -1074 <= fexp prec emax a.
Proof. unfold fexp, emin, prec, emax. lia. Qed.

Lemma fexp_eq a : fexp prec emax a = Z.max (a - 53) (-1074).
Proof. reflexivity. Qed.

(** ** Shifting right with round and sticky bits *)

Lemma iter_pos_nat {A} (f : A -> A) p x :
  SpecFloat.iter_pos f p x = Nat.iter (Pos.to_nat p) f x.
Proof.
  revert x. induction p as [p IH|p IH|]; intros x; cbn [SpecFloat.iter_pos].
  - rewrite !IH. rewrite Pos2Nat.inj_xI.
    replace (S (2 * Pos.to_nat p)) with (Pos.to_nat p + (Pos.to_nat p + 1))%nat
      by lia.
    rewrite !Nat.iter_add. reflexivity.
  - rewrite !IH. rewrite Pos2Nat.inj_xO.
    replace (2 * Pos.to_nat p)%nat with (Pos.to_nat p + Pos.to_nat p)%nat by lia.
    rewrite Nat.iter_add. reflexivity.
  - reflexivity.
Qed.

Lemma shr_1_m mrs : 0 <= shr_m mrs -> shr_m (shr_1 mrs) = shr_m mrs / 2.
Proof.
  destruct mrs as [m r s]. simpl. intros Hm.
  destruct m as [|[p|p|]|p]; simpl; try lia; try reflexivity.
  - rewrite Pos2Z.inj_xI. apply Z.div_unique with 1; lia.
  - rewrite Pos2Z.inj_xO. apply Z.div_unique with 0; lia.
Qed.

(** One step halves the position, the sticky bit keeping what is lost. *)
Lemma shr_1_position mrs :
  0 <= shr_m mrs ->
  position (shr_1 mrs)
  = 2 * shr_m mrs + b2z (shr_r mrs || shr_s mrs).
Proof.
  destruct mrs as [m r s]. unfold position. simpl. intros Hm.
  destruct m as [|[p|p|]|p]; simpl shr_m; simpl shr_r; simpl shr_s;
    try lia; destruct r, s; simpl; lia.
Qed.

Lemma shr_1_position_lt mrs u :
  0 <= shr_m mrs -> position mrs < 2 * (2 * u) ->
  position (shr_1 mrs) < 2 * u.
Proof.
  intros Hm H. rewrite shr_1_position by assumption.
  unfold position in H. destruct (shr_r mrs), (shr_s mrs); simpl in *; lia.
Qed.

Lemma shr_1_nonneg mrs : 0 <= shr_m mrs -> 0 <= shr_m (shr_1 mrs).
Proof.
  intros H. rewrite shr_1_m by assumption. apply Z.div_pos; lia.
Qed.

Lemma shr_iter_nonneg n mrs :
  0 <= shr_m mrs -> 0 <= shr_m (Nat.iter n shr_1 mrs).
Proof.
  induction n as [|n IH]; simpl; intros H; [assumption|].
  apply shr_1_nonneg, IH, H.
Qed.

Lemma shr_iter_m n mrs :
  0 <= shr_m mrs ->
  shr_m (Nat.iter n shr_1 mrs) = shr_m mrs / 2 ^ Z.of_nat n.
Proof.
  intros H. induction n as [|n IH].
  - simpl. rewrite Z.div_1_r. reflexivity.
  - rewrite Nat.iter_succ. rewrite shr_1_m by (apply shr_iter_nonneg, H).
    rewrite IH, Nat2Z.inj_succ, Z.pow_succ_r by lia.
    rewrite Z.div_div by (try apply Z.pow_pos_nonneg; lia).
    f_equal. lia.
Qed.

(** A position below an even bound times [2^n] is below the bound after
    [n] steps. *)
Lemma shr_iter_position_lt n mrs u :
  0 <= shr_m mrs ->
  position mrs < 2 * u * 2 ^ Z.of_nat n ->
  position (Nat.iter n shr_1 mrs) < 2 * u.
Proof.
  revert u. induction n as [|n IH]; intros u Hm H.
  - simpl in *. lia.
  - rewrite Nat.iter_succ. apply shr_1_position_lt; [apply shr_iter_nonneg, Hm|].
    apply IH; [assumption|].
    rewrite Nat2Z.inj_succ, Z.pow_succ_r in H by lia. lia.
Qed.

(** Rounding to nearest even is read off the position. *)
Lemma round_position_le mrs mB :
  0 <= shr_m mrs ->
  position mrs < 4 * mB + 2 ->
  round_nearest_even (shr_m mrs) (loc_of_shr_record mrs) <= mB.
Proof.
  destruct mrs as [m r s]. unfold position. simpl. intros Hm H.
  destruct r, s; simpl in *; try lia.
  destruct (Z.even m); lia.
Qed.

Lemma round_bounds mrs :
  shr_m mrs
  <= round_nearest_even (shr_m mrs) (loc_of_shr_record mrs)
  <= shr_m mrs + 1.
Proof.
  destruct mrs as [m r s]. simpl.
  destruct r, s; simpl; try lia. destruct (Z.even m); lia.
Qed.

Lemma shr_record_of_loc_m m l : shr_m (shr_record_of_loc m l) = m.
Proof. destruct l as [|[]]; reflexivity. Qed.

(** The shift of [shr_fexp], for an input at least as fine as the target. *)
Lemma shr_fexp_eq m e l :
  0 <= m -> e <= fexp prec emax (Zdigits2 m + e) ->
  shr_fexp prec emax m e l
  = (Nat.iter (Z.to_nat (fexp prec emax (Zdigits2 m + e) - e)) shr_1
       (shr_record_of_loc m l),
     fexp prec emax (Zdigits2 m + e)).
Proof.
  intros Hm He. unfold shr_fexp, shr.
  destruct (fexp prec emax (Zdigits2 m + e) - e) as [|p|p] eqn:E; try lia.
  - simpl. f_equal. lia.
  - rewrite iter_pos_nat. rewrite Z2Nat.inj_pos. f_equal. lia.
Qed.

(** ** Rounding stays below a representable bound *)

Lemma bounded_inv m e :
  bounded prec emax m e = true ->
  fexp prec emax (Z.pos (digits2_pos m) + e) = e /\ e <= 971.
Proof.
  unfold bounded, canonical_mantissa. intros [H1 H2]%andb_true_iff.
  apply Z.eqb_eq in H1. apply Z.leb_le in H2. unfold emax, prec in H2.
  split; [exact H1 | lia].
Qed.

Lemma bounded_intro m e :
  fexp prec emax (Z.pos (digits2_pos m) + e) = e -> e <= 971 ->
  bounded prec emax m e = true.
Proof.
  intros H1 H2. unfold bounded, canonical_mantissa.
  apply andb_true_iff. split; [apply Z.eqb_eq, H1|].
  apply Z.leb_le. unfold emax, prec. lia.
Qed.

(** A canonical mantissa has at most 53 digits, and exactly 53 above the
    smallest exponent. *)
Lemma bounded_digits m e :
  bounded prec emax m e = true ->
  -1074 <= e /\ Z.pos m < 2 ^ 53 /\ (-1074 < e -> 2 ^ 52 <= Z.pos m).
Proof.
  intros [H _]%bounded_inv. rewrite fexp_eq in H.
  pose proof (digits_bounds m) as [Hl Hu].
  split; [lia|]. split.
  - assert (Z.pos (digits2_pos m) <= 53) by lia.
    assert (2 ^ Z.pos (digits2_pos m) <= 2 ^ 53) by (apply Z.pow_le_mono_r; lia).
    lia.
  - intros He. assert (E : Z.pos (digits2_pos m) = 53) by lia.
    rewrite E in Hl. exact Hl.
Qed.

Lemma shr_fexp_id m e l :
  fexp prec emax (Zdigits2 m + e) <= e ->
  shr_fexp prec emax m e l = (shr_record_of_loc m l, e).
Proof.
  intros H. unfold shr_fexp, shr.
  destruct (fexp prec emax (Zdigits2 m + e) - e) as [|p|p] eqn:E; try lia;
    reflexivity.
Qed.

(** A value below the midpoint above a canonical bound is rounded to at
    most that bound. *)
Lemma round_aux_upto s mx ex lx mB eB :
  0 <= mx ->
  ex <= fexp prec emax (Zdigits2 mx + ex) ->
  bounded prec emax mB eB = true ->
  ex <= eB ->
  position (shr_record_of_loc mx lx) < (4 * Z.pos mB + 2) * 2 ^ (eB - ex) ->
  upto s mB eB (binary_round_aux prec emax s mx ex lx).
Proof.
  intros Hmx Hfine HB HexB Hpos.
  destruct (bounded_inv _ _ HB) as [HcanB HeB].
  destruct (bounded_digits _ _ HB) as (HeBmin & HmBu & HmBl).
  pose proof (digits_bounds mB) as [HdBl HdBu].
  set (d := Zdigits2 mx) in *.
  set (eT := fexp prec emax (d + ex)) in *.
  set (dB := Z.pos (digits2_pos mB)) in *.
  assert (Hpow : 0 < 2 ^ (eB - ex)) by (apply Z.pow_pos_nonneg; lia).
  (* the target exponent is at most that of the bound *)
  assert (Hmxlt : mx < 2 ^ (dB + (eB - ex))).
  { assert (H4 : 4 * mx <= position (shr_record_of_loc mx lx)).
    { unfold position. rewrite shr_record_of_loc_m.
      destruct (shr_r _), (shr_s _); simpl; lia. }
    rewrite Z.pow_add_r by (unfold dB; lia).
    assert (4 * Z.pos mB + 2 <= 4 * 2 ^ dB) by lia.
    assert ((4 * Z.pos mB + 2) * 2 ^ (eB - ex) <= 4 * 2 ^ dB * 2 ^ (eB - ex))
      by (apply Z.mul_le_mono_nonneg_r; lia).
    lia. }
  assert (Hd : d <= dB + (eB - ex))
    by (apply Zdigits2_le; [unfold dB; lia | lia]).
  assert (HeT : eT <= eB).
  { unfold eT. rewrite <- HcanB. apply fexp_mono. fold dB. lia. }
  assert (HeTmin : -1074 <= eT) by apply fexp_ge_emin.
  assert (HeTd : d + ex - 53 <= eT) by (unfold eT; rewrite fexp_eq; lia).
  unfold binary_round_aux.
  rewrite (shr_fexp_eq mx ex lx Hmx Hfine). fold d. fold eT.
  set (n := Z.to_nat (eT - ex)).
  set (mrs1 := Nat.iter n shr_1 (shr_record_of_loc mx lx)).
  assert (Hrec0 : 0 <= shr_m (shr_record_of_loc mx lx))
    by (rewrite shr_record_of_loc_m; exact Hmx).
  assert (Hm1 : shr_m mrs1 = mx / 2 ^ (eT - ex)).
  { unfold mrs1. rewrite shr_iter_m by exact Hrec0.
    rewrite shr_record_of_loc_m. unfold n. rewrite Z2Nat.id by lia.
    reflexivity. }
  assert (Hpn : 0 < 2 ^ (eT - ex)) by (apply Z.pow_pos_nonneg; lia).
  assert (Hm1nn : 0 <= shr_m mrs1) by (unfold mrs1; apply shr_iter_nonneg, Hrec0).
  assert (Hm1u : shr_m mrs1 < 2 ^ 53).
  { rewrite Hm1. apply Z.div_lt_upper_bound; [exact Hpn|].
    rewrite <- Z.pow_add_r by lia.
    destruct (Z.eq_dec mx 0) as [->|Hne];
      [apply Z.pow_pos_nonneg; lia|].
    destruct (Zdigits2_bounds mx ltac:(lia)) as [_ Hu]. fold d in Hu.
    assert (2 ^ d <= 2 ^ (eT - ex + 53)) by (apply Z.pow_le_mono_r; lia).
    lia. }
  assert (Hm1l : -1074 < eT -> 2 ^ 52 <= shr_m mrs1).
  { intros Hnorm. assert (EeT : eT = d + ex - 53)
      by (unfold eT in *; rewrite fexp_eq in *; lia).
    rewrite Hm1. apply Z.div_le_lower_bound; [exact Hpn|].
    rewrite <- Z.pow_add_r by lia.
    assert (Hdpos : 0 < d) by lia.
    assert (Hmxpos : 0 < mx).
    { destruct mx; simpl in d; unfold d in Hdpos; lia. }
    destruct (Zdigits2_bounds mx Hmxpos) as [Hl _]. fold d in Hl.
    replace (eT - ex + 52) with (d - 1) by lia. exact Hl. }
  pose proof (round_bounds mrs1) as [Hr1 Hr2].
  set (m2 := round_nearest_even (shr_m mrs1) (loc_of_shr_record mrs1)) in *.
  (* at the exponent of the bound the rounded mantissa is at most the bound's *)
  assert (Hm2B : eT = eB -> m2 <= Z.pos mB).
  { intros E. apply round_position_le; [exact Hm1nn|].
    unfold mrs1. replace (4 * Z.pos mB + 2) with (2 * (2 * Z.pos mB + 1)) by lia.
    apply shr_iter_position_lt; [exact Hrec0|].
    unfold n. rewrite Z2Nat.id by lia. rewrite E.
    replace (2 * (2 * Z.pos mB + 1)) with (4 * Z.pos mB + 2) by lia.
    exact Hpos. }
  destruct (Z.eq_dec m2 (2 ^ 53)) as [Hcarry|Hnocarry].
  - (* the mantissa overflows into the next binade *)
    assert (HeTlt : eT < eB).
    { destruct (Z.eq_dec eT eB) as [E|]; [|lia]. specialize (Hm2B E). lia. }
    assert (Hdig : Zdigits2 m2 = 54).
    { rewrite Hcarry. reflexivity. }
    rewrite shr_fexp_eq; [|lia|rewrite Hdig, fexp_eq; lia].
    rewrite Hdig.
    assert (Ef : fexp prec emax (54 + eT) = eT + 1) by (rewrite fexp_eq; lia).
    rewrite Ef. replace (eT + 1 - eT) with 1 by lia.
    rewrite Hcarry.
    assert (Hs : Nat.iter (Z.to_nat 1) shr_1 (shr_record_of_loc (2 ^ 53) loc_Exact)
                 = Build_shr_record 4503599627370496 false false)
      by (vm_compute; reflexivity).
    rewrite Hs. cbn [shr_m].
    assert (Hle : (eT + 1 <=? emax - prec) = true)
      by (apply Z.leb_le; unfold emax, prec; lia).
    rewrite Hle. right. eexists _, _. split; [reflexivity|]. split.
    + apply bounded_intro; [|lia].
      change (Z.pos (digits2_pos 4503599627370496)) with 53.
      rewrite fexp_eq. lia.
    + destruct (Z.eq_dec (eT + 1) eB) as [E|]; [right|left; lia].
      split; [exact E|]. specialize (HmBl ltac:(lia)).
      change (Z.pos 4503599627370496) with (2 ^ 52). exact HmBl.
  - (* no overflow: the rounded mantissa stays at the target exponent *)
    assert (Hm2u : m2 < 2 ^ 53) by lia.
    assert (Hm2nn : 0 <= m2) by lia.
    assert (Hd2 : Zdigits2 m2 <= 53) by (apply Zdigits2_le; lia).
    rewrite shr_fexp_id by (rewrite fexp_eq; lia).
    rewrite shr_record_of_loc_m.
    destruct m2 as [|p2|p2] eqn:Em2; [left; reflexivity| |lia].
    assert (Hle : (eT <=? emax - prec) = true)
      by (apply Z.leb_le; unfold emax, prec; lia).
    rewrite Hle. right. exists p2, eT. split; [reflexivity|]. split.
    + apply bounded_intro; [|lia].
      change (Z.pos (digits2_pos p2)) with (Zdigits2 (Z.pos p2)).
      rewrite fexp_eq.
      destruct (Z.eq_dec eT (-1074)) as [E|Hne]; [lia|].
      assert (53 <= Zdigits2 (Z.pos p2)).
      { apply Zdigits2_ge; [lia|]. specialize (Hm1l ltac:(lia)). lia. }
      lia.
    + destruct (Z.eq_dec eT eB) as [E|]; [right|left; lia].
      split; [exact E|]. apply Hm2B, E.
Qed.


(** ** Multiplication by a constant *)

Lemma upto_within s mB eB x : upto s mB eB x -> within x mB eB.
Proof.
  intros [->|(m & e & -> & Hb & Hle)]; simpl; auto.
Qed.

(** The mantissa of a number within a normal bound, scaled to the exponent
    of the bound, is at most that of the bound. *)
Lemma within_scaled m e mB eB :
  bounded prec emax m e = true ->
  2 ^ 52 <= Z.pos mB ->
  e < eB \/ (e = eB /\ Z.pos m <= Z.pos mB) ->
  e <= eB /\ Z.pos m <= Z.pos mB * 2 ^ (eB - e).
Proof.
  intros Hb HB [Hlt|[-> Hle]].
  - split; [lia|]. destruct (bounded_digits _ _ Hb) as (_ & Hu & _).
    assert (2 ^ 1 <= 2 ^ (eB - e)) by (apply Z.pow_le_mono_r; lia).
    change (2 ^ 1) with 2 in *. nia.
  - split; [lia|]. rewrite Z.sub_diag. simpl. lia.
Qed.

Lemma mul_const_within x mB eB mc ec mB' eB' :
  within x mB eB ->
  2 ^ 52 <= Z.pos mB ->
  2 ^ 52 <= Z.pos mc ->
  bounded prec emax mB' eB' = true ->
  eB + ec <= eB' ->
  Z.pos mB * Z.pos mc <= Z.pos mB' * 2 ^ (eB' - eB - ec) ->
  within (x * S754_finite false mc ec)%f64 mB' eB'.
Proof.
  intros Hx HB HC HB' He Hprod.
  destruct x as [s|s| |s m e]; simpl in Hx; try contradiction.
  - exact I.
  - destruct Hx as [Hb Hle].
    destruct (within_scaled _ _ _ _ Hb HB Hle) as [HeB Hm].
    unfold F64.mul, SFmul.
    apply (upto_within (xorb s false)).
    apply round_aux_upto; try assumption; try lia.
    + (* the product is finer than its target exponent *)
      pose proof (digits_bounds m) as [Hdl _].
      set (dm := Z.pos (digits2_pos m)) in *.
      assert (Hdm : 1 <= dm) by (unfold dm; lia).
      assert (Hd : dm + 52 <= Zdigits2 (Z.pos (m * mc))).
      { apply Zdigits2_ge; [lia|]. rewrite Pos2Z.inj_mul.
        replace (dm + 52 - 1) with ((dm - 1) + 52) by lia.
        rewrite Z.pow_add_r by lia.
        apply Z.mul_le_mono_nonneg; try lia; apply Z.pow_nonneg; lia. }
      rewrite fexp_eq. lia.
    + (* the product is at most the bound *)
      unfold position. simpl. rewrite Pos2Z.inj_mul.
      replace (eB' - (e + ec)) with ((eB' - eB - ec) + (eB - e)) by lia.
      rewrite Z.pow_add_r by lia.
      assert (0 < 2 ^ (eB - e)) by (apply Z.pow_pos_nonneg; lia).
      assert (0 < 2 ^ (eB' - eB - ec)) by (apply Z.pow_pos_nonneg; lia).
      assert (Z.pos m * Z.pos mc <= Z.pos mB * 2 ^ (eB - e) * Z.pos mc)
        by (apply Z.mul_le_mono_nonneg_r; lia).
      assert (Z.pos mB * Z.pos mc * 2 ^ (eB - e)
              <= Z.pos mB' * 2 ^ (eB' - eB - ec) * 2 ^ (eB - e))
        by (apply Z.mul_le_mono_nonneg_r; lia).
      nia.
Qed.

(** ** Division by a constant *)

(** The location that [SFdiv_core_binary] computes from a remainder. *)
Lemma new_location_cases mc r :
  0 < mc -> 0 <= r < mc ->
  (r = 0 /\ new_location mc r = loc_Exact) \/
  (0 < r /\ 2 * r < mc /\ new_location mc r = loc_Inexact Lt) \/
  (2 * r = mc /\ new_location mc r = loc_Inexact Eq) \/
  (mc < 2 * r /\ new_location mc r = loc_Inexact Gt).
Proof.
  intros Hmc Hr. unfold new_location.
  destruct (Z.even mc) eqn:Heven;
    unfold new_location_even, new_location_odd;
    (destruct (Z.eqb_spec r 0) as [->|Hne]; [left; auto|right]).
  - destruct (Z.compare_spec (2 * r) mc) as [E|E|E];
        [right; left|left|right; right]; repeat split; auto; try lia.
  - assert (Hodd : Z.odd mc = true) by (rewrite <- Z.negb_even, Heven; reflexivity).
    apply Z.odd_spec in Hodd as [k Hk].
    destruct (Z.compare_spec (2 * r + 1) mc) as [E|E|E];
        [left|left|right; right]; repeat split; auto; try lia.
Qed.

(** The position of a quotient is below any bound of the form
    [(4 * M + 2) * 2^N] that four times the exact quotient is below. *)
Lemma div_position m' mc M N :
  0 <= m' -> 0 < mc -> 0 <= N ->
  4 * m' < (4 * M + 2) * 2 ^ N * mc ->
  position (shr_record_of_loc (m' / mc) (new_location mc (m' mod mc)))
  < (4 * M + 2) * 2 ^ N.
Proof.
  intros Hm' Hmc HN H.
  pose proof (Z.div_mod m' mc ltac:(lia)) as Hdm.
  pose proof (Z.mod_pos_bound m' mc Hmc) as Hr.
  set (q := m' / mc) in *. set (r := m' mod mc) in *.
  assert (Hq : 0 <= q) by (apply Z.div_pos; lia).
  assert (Hpos3 : position (shr_record_of_loc q (new_location mc r)) <= 4 * q + 3).
  { unfold position. rewrite shr_record_of_loc_m.
    destruct (shr_r _), (shr_s _); simpl; lia. }
  destruct (Z.eq_dec N 0) as [->|HN0].
  - rewrite Z.pow_0_r, Z.mul_1_r in *.
    assert (q <= M) by nia.
    destruct (Z.eq_dec q M) as [E|]; [|lia].
    assert (2 * r < mc) by nia.
    destruct (new_location_cases mc r Hmc Hr)
      as [[_ ->]|[(_ & _ & ->)|[[? _]|[? _]]]]; try lia;
      unfold position; simpl; lia.
  - replace N with (1 + (N - 1)) in * by lia.
    rewrite Z.pow_add_r in * by lia. change (2 ^ 1) with 2 in *.
    assert (0 < 2 ^ (N - 1)) by (apply Z.pow_pos_nonneg; lia).
    set (K := (2 * M + 1) * 2 ^ (N - 1)) in *.
    assert (HK : (4 * M + 2) * (2 * 2 ^ (N - 1)) = 4 * K) by (unfold K; lia).
    rewrite HK in *.
    assert (q < K) by nia. lia.
Qed.

Lemma normal_digits m : 2 ^ 52 <= Z.pos m < 2 ^ 53 -> Zdigits2 (Z.pos m) = 53.
Proof.
  intros [Hl Hu]. apply Z.le_antisymm.
  - apply Zdigits2_le; lia.
  - apply Zdigits2_ge; [lia|exact Hl].
Qed.

(** The quotient, exponent and location that division hands to the
    rounding, for a canonical dividend and a normal divisor. *)
Lemma SFdiv_core_eq m e mc ec :
  bounded prec emax m e = true ->
  2 ^ 52 <= Z.pos mc < 2 ^ 53 -> ec <= 0 ->
  let e' := fexp prec emax (Zdigits2 (Z.pos m) + e - (53 + ec)) in
  let m' := Z.pos m * 2 ^ (e - ec - e') in
  e' <= e - ec /\
  SFdiv_core_binary prec emax (Z.pos m) e (Z.pos mc) ec
  = (m' / Z.pos mc, e', new_location (Z.pos mc) (m' mod Z.pos mc)).
Proof.
  intros Hb Hmc Hec e' m'.
  destruct (bounded_digits _ _ Hb) as (Hemin & Hmu & _).
  assert (Hdm : Zdigits2 (Z.pos m) <= 53) by (apply Zdigits2_le; lia).
  assert (He' : e' <= e - ec) by (unfold e'; rewrite fexp_eq; lia).
  split; [exact He'|].
  unfold SFdiv_core_binary. rewrite (normal_digits mc Hmc). fold e'.
  rewrite Z.min_l by exact He'.
  assert (Hm' : match e - ec - e' with
                | 0 => Z.pos m
                | Z.pos _ => Z.shiftl (Z.pos m) (e - ec - e')
                | Z.neg _ => 0
                end = m').
  { unfold m'. destruct (e - ec - e') as [|p|p] eqn:E; try lia.
    rewrite Z.shiftl_mul_pow2 by lia. reflexivity. }
  rewrite Hm'. unfold Z.div, Z.modulo.
  destruct (Z.div_eucl m' (Z.pos mc)) as [q r]. reflexivity.
Qed.

Lemma div_const_within x mB eB mc ec mB' eB' :
  within x mB eB ->
  2 ^ 52 <= Z.pos mB < 2 ^ 53 ->
  2 ^ 52 <= Z.pos mc < 2 ^ 53 -> ec <= 0 ->
  bounded prec emax mB' eB' = true ->
  fexp prec emax (eB - ec) <= eB' ->
  0 <= eB - ec - eB' ->
  2 * Z.pos mB * 2 ^ (eB - ec - eB') < (2 * Z.pos mB' + 1) * Z.pos mc ->
  within (x / S754_finite false mc ec)%f64 mB' eB'.
Proof.
  intros Hx HB HC Hec HB' HeB' HD Hquot.
  destruct x as [s|s| |s m e]; simpl in Hx; try contradiction.
  - exact I.
  - destruct Hx as [Hb Hle].
    destruct (within_scaled m e mB eB Hb (proj1 HB) Hle) as [HeB Hm].
    destruct (bounded_digits _ _ Hb) as (Hemin & Hmu & _).
    unfold F64.div, SFdiv.
    destruct (SFdiv_core_eq m e mc ec Hb HC Hec) as [He' ->].
    set (dm := Zdigits2 (Z.pos m)) in *.
    set (e' := fexp prec emax (dm + e - (53 + ec))) in *.
    set (s' := e - ec - e') in *.
    set (m' := Z.pos m * 2 ^ s') in *.
    assert (Hs' : 0 <= s') by (unfold s'; lia).
    assert (Hps : 0 < 2 ^ s') by (apply Z.pow_pos_nonneg; lia).
    assert (Hm'nn : 0 <= m') by (unfold m'; lia).
    assert (Hdm : 1 <= dm <= 53).
    { unfold dm. split; [simpl; lia|apply Zdigits2_le; lia]. }
    assert (He'B : e' <= eB').
    { etransitivity; [|exact HeB']. unfold e'. apply fexp_mono.
      destruct Hle as [?|[-> ?]]; lia. }
    apply (upto_within (xorb s false)).
    apply round_aux_upto; try assumption.
    + apply Z.div_pos; lia.
    + (* the quotient is finer than its target exponent *)
      assert (Hdq : dm + s' - 53 <= Zdigits2 (m' / Z.pos mc)).
      { destruct (Z.le_gt_cases (dm + s' - 53) 0) as [Hsmall|Hbig].
        - pose proof (Zdigits2_nonneg (m' / Z.pos mc)). lia.
        - apply Zdigits2_ge; [lia|].
          destruct (Zdigits2_bounds (Z.pos m) ltac:(lia)) as [Hl _]. fold dm in Hl.
          assert (H1 : 2 ^ (dm + s' - 53 - 1) * 2 ^ 53 = 2 ^ (dm - 1) * 2 ^ s').
          { rewrite <- !Z.pow_add_r by lia. f_equal. lia. }
          apply Z.div_le_lower_bound; [lia|].
          assert (2 ^ (dm + s' - 53 - 1) * Z.pos mc
                  <= 2 ^ (dm + s' - 53 - 1) * 2 ^ 53).
          { apply Z.mul_le_mono_nonneg_l; [apply Z.pow_nonneg|]; lia. }
          assert (2 ^ (dm - 1) * 2 ^ s' <= m')
            by (unfold m'; apply Z.mul_le_mono_nonneg_r; lia).
          lia. }
      etransitivity; [|apply fexp_mono;
        apply (Z.add_le_mono_r _ _ e') in Hdq; exact Hdq].
      unfold e' at 1, s'. apply fexp_mono. lia.
    + (* four times the exact quotient is below the midpoint above the bound *)
      apply div_position; try lia.
      set (J := eB' - e') in *. set (D := eB - ec - eB') in *.
      set (k := eB - e) in *.
      assert (Hk : 0 <= k) by (unfold k; lia).
      assert (HJ : 0 <= J) by (unfold J; lia).
      assert (Hsum : s' + k = D + J) by (unfold s', k, D, J; lia).
      assert (Hpk : 0 < 2 ^ k) by (apply Z.pow_pos_nonneg; lia).
      assert (HpJ : 0 < 2 ^ J) by (apply Z.pow_pos_nonneg; lia).
      assert (HpD : 0 < 2 ^ D) by (apply Z.pow_pos_nonneg; lia).
      assert (Hpow : 2 ^ s' * 2 ^ k = 2 ^ D * 2 ^ J).
      { rewrite <- !Z.pow_add_r by lia. f_equal. exact Hsum. }
      apply (Z.mul_lt_mono_pos_r (2 ^ k)); [exact Hpk|].
      unfold m'.
      replace (4 * (Z.pos m * 2 ^ s') * 2 ^ k)
        with (2 * (2 * Z.pos m * 2 ^ D) * 2 ^ J) by nia.
      replace ((4 * Z.pos mB' + 2) * 2 ^ J * Z.pos mc * 2 ^ k)
        with (2 * ((2 * Z.pos mB' + 1) * Z.pos mc * 2 ^ k) * 2 ^ J) by nia.
      apply Z.mul_lt_mono_pos_r; [exact HpJ|].
      apply Z.mul_lt_mono_pos_l; [lia|].
      assert (2 * Z.pos m * 2 ^ D <= 2 * (Z.pos mB * 2 ^ k) * 2 ^ D)
        by (apply Z.mul_le_mono_nonneg_r; lia).
      assert (2 * Z.pos mB * 2 ^ D * 2 ^ k
              < (2 * Z.pos mB' + 1) * Z.pos mc * 2 ^ k)
        by (apply Z.mul_lt_mono_pos_r; [exact Hpk|exact Hquot]).
      nia.
Qed.

(** ** Subtraction from a constant *)

Lemma iter_xO_value p d : Z.pos (Pos.iter xO p d) = Z.pos p * 2 ^ Z.pos d.
Proof.
  induction d as [|d IH] using Pos.peano_ind.
  - simpl. lia.
  - rewrite Pos.iter_succ, Pos2Z.inj_xO, IH, Pos2Z.inj_succ.
    rewrite Z.pow_succ_r by lia. lia.
Qed.

(** [shl_align] keeps the value and moves to the smaller exponent. *)
Lemma shl_align_spec m e e' :
  snd (shl_align m e e') = Z.min e e' /\
  Z.pos (fst (shl_align m e e')) = Z.pos m * 2 ^ (e - Z.min e e').
Proof.
  unfold shl_align. destruct (e' - e) as [|d|d] eqn:E; simpl.
  - rewrite Z.min_l by lia. rewrite Z.sub_diag. simpl. lia.
  - rewrite Z.min_l by lia. rewrite Z.sub_diag. simpl. lia.
  - rewrite Z.min_r by lia. rewrite iter_xO_value.
    split; [reflexivity|]. do 2 f_equal. lia.
Qed.

Lemma Zdigits2_shift p k :
  0 < p -> 0 <= k -> Zdigits2 (p * 2 ^ k) = Zdigits2 p + k.
Proof.
  intros Hp Hk. destruct (Zdigits2_bounds p Hp) as [Hl Hu].
  assert (Hd : 1 <= Zdigits2 p) by (destruct p; simpl; lia).
  assert (0 < 2 ^ k) by (apply Z.pow_pos_nonneg; lia).
  apply Z.le_antisymm.
  - apply Zdigits2_le; [lia|]. rewrite Z.pow_add_r by lia. nia.
  - apply Zdigits2_ge; [lia|].
    replace (Zdigits2 p + k - 1) with (Zdigits2 p - 1 + k) by lia.
    rewrite Z.pow_add_r by lia. nia.
Qed.

Lemma binary_round_upto p e mB eB :
  bounded prec emax mB eB = true ->
  e <= eB ->
  Z.pos p <= Z.pos mB * 2 ^ (eB - e) ->
  upto false mB eB (binary_round prec emax false p e).
Proof.
  intros HB He Hp. unfold binary_round.
  destruct (shl_align_spec p e (fexp prec emax (Z.pos (digits2_pos p) + e)))
    as [Hsnd Hfst].
  destruct (shl_align p e _) as [mz ez]. simpl in Hsnd, Hfst. subst ez.
  set (eF := fexp prec emax (Z.pos (digits2_pos p) + e)) in *.
  set (ez := Z.min e eF) in *.
  assert (Hez : ez <= e /\ ez <= eF) by (unfold ez; lia).
  assert (0 < 2 ^ (e - ez)) by (apply Z.pow_pos_nonneg; lia).
  apply round_aux_upto; try assumption; try lia.
  - rewrite Hfst, Zdigits2_shift by lia.
    replace (Zdigits2 (Z.pos p) + (e - ez) + ez)
      with (Z.pos (digits2_pos p) + e) by (simpl; lia).
    fold eF. lia.
  - unfold position. simpl. rewrite Hfst.
    replace (eB - ez) with ((eB - e) + (e - ez)) by lia.
    rewrite Z.pow_add_r by lia.
    assert (0 < 2 ^ (eB - e)) by (apply Z.pow_pos_nonneg; lia).
    assert (Z.pos p * 2 ^ (e - ez) <= Z.pos mB * 2 ^ (eB - e) * 2 ^ (e - ez))
      by (apply Z.mul_le_mono_nonneg_r; lia).
    nia.
Qed.

Lemma sub_const_upto mC eC x :
  bounded prec emax mC eC = true ->
  2 ^ 52 <= Z.pos mC ->
  eC + 1 <= 971 ->
  within x mC eC ->
  upto false mC (eC + 1) (S754_finite false mC eC - x)%f64.
Proof.
  intros HC HCn HeC Hx.
  destruct (bounded_digits _ _ HC) as (HeCmin & HmCu & _).
  assert (HC2 : bounded prec emax mC (eC + 1) = true).
  { apply bounded_intro; [|lia].
    change (Z.pos (digits2_pos mC)) with (Zdigits2 (Z.pos mC)).
    rewrite (normal_digits mC) by lia. rewrite fexp_eq. lia. }
  destruct x as [s|s| |s m e]; simpl in Hx; try contradiction.
  - right. exists mC, eC. repeat split; auto. left. lia.
  - destruct Hx as [Hb Hle].
    destruct (within_scaled m e mC eC Hb HCn Hle) as [HeB Hm].
    unfold F64.sub, SFsub. rewrite (Z.min_r eC e) by lia.
    destruct (shl_align_spec mC eC e) as [_ HA].
    destruct (shl_align_spec m e e) as [_ Hm0].
    rewrite Z.min_r in HA by lia. rewrite Z.min_l, Z.sub_diag in Hm0 by lia.
    simpl in Hm0. rewrite Z.mul_1_r in Hm0.
    set (A := fst (shl_align mC eC e)) in *.
    set (m0 := fst (shl_align m e e)) in *.
    assert (0 < 2 ^ (eC - e)) by (apply Z.pow_pos_nonneg; lia).
    assert (Hz : 0 <= cond_Zopp false (Z.pos A) - cond_Zopp s (Z.pos m0)
                 <= 2 * Z.pos mC * 2 ^ (eC - e)).
    { destruct s; simpl; lia. }
    destruct (cond_Zopp false (Z.pos A) - cond_Zopp s (Z.pos m0))
      as [|p|p] eqn:Ez; [left; reflexivity| |lia].
    unfold binary_normalize.
    apply binary_round_upto; [exact HC2|lia|].
    replace (eC + 1 - e) with (1 + (eC - e)) by lia.
    rewrite Z.pow_add_r by lia. change (2 ^ 1) with 2. lia.
Qed.

(** ** The angle of the primary path *)

Lemma leb_abs_within x mB eB :
  valid x = true ->
  (SFabs x <=? S754_finite false mB eB)%f64 = true ->
  within x mB eB.
Proof.
  destruct x as [s|s| |s m e]; simpl; try discriminate; auto.
  intros Hb. unfold F64.leb, SFleb, SFcompare.
  destruct (Z.compare_spec e eB) as [->|Hlt|Hgt]; try discriminate.
  - intros H. split; [exact Hb|]. right. split; [reflexivity|].
    change (Pos.compare_cont Eq m mB) with (Pos.compare m mB) in H.
    destruct (Pos.compare_spec m mB) as [->|Hl|Hg]; try discriminate; lia.
  - intros _. split; [exact Hb|]. left. exact Hlt.
Qed.

(** Side conditions on the constants are settled by evaluation. *)
Ltac side_condition :=
  first [ assumption
        | reflexivity
        | lia
        | vm_compute; (discriminate || reflexivity)
        | split; vm_compute; (discriminate || reflexivity) ].

(** 180 - rad * 180 / Pi for an angle between -Pi and Pi lies between 0
    and 360. *)
Lemma degrees_upto rad :
  valid rad = true -> (SFabs rad <=? Pi)%f64 = true ->
  upto false 6333186975989760 (-44) (c180 - (rad * c180 / Pi))%f64.
Proof.
  intros Hv Hle.
  pose proof (leb_abs_within rad _ _ Hv Hle) as H0.
  assert (H1 : within (rad * c180)%f64 4974073419394997 (-43)).
  { apply (mul_const_within rad 7074237752028440 (-51)); side_condition. }
  assert (H2 : within (rad * c180 / Pi)%f64 6333186975989760 (-45)).
  { apply (div_const_within _ 4974073419394997 (-43)); side_condition. }
  apply (sub_const_upto 6333186975989760 (-45)); side_condition.
Qed.

Lemma addWhileNegative_not_negative fuel r :
  (r <? zero)%f64 = false -> addWhileNegative fuel r = Some r.
Proof. intros H. destruct fuel; simpl; rewrite H; reflexivity. Qed.

Lemma subWhileAtLeast360_below fuel r :
  (r >=? c360)%f64 = false -> subWhileAtLeast360 fuel r = Some r.
Proof. intros H. destruct fuel; simpl; rewrite H; reflexivity. Qed.

(** Comparing canonical positive numbers compares exponents, then
    mantissas. *)
Lemma finite_compare_lex m e mB eB :
  e < eB \/ (e = eB /\ Z.pos m <= Z.pos mB) ->
  (SFcompare (S754_finite false m e) (S754_finite false mB eB) = Some Lt /\
   SFcompare (S754_finite false mB eB) (S754_finite false m e) = Some Gt) \/
  (m = mB /\ e = eB).
Proof.
  intros H. unfold SFcompare.
  destruct (Z.compare_spec e eB) as [->|Hlt|Hgt]; [|left|exfalso; lia].
  - rewrite Z.compare_refl.
    change (Pos.compare_cont Eq m mB) with (Pos.compare m mB).
    change (Pos.compare_cont Eq mB m) with (Pos.compare mB m).
    rewrite (Pos.compare_antisym m mB).
    destruct (Pos.compare_spec m mB) as [->|Hl|Hg]; [right; auto|left; auto|].
    exfalso. destruct H as [?|[_ Hle]]; [lia|].
    apply Pos2Z.pos_lt_pos in Hg. lia.
  - rewrite (proj2 (Z.compare_gt_iff eB e)) by lia. auto.
Qed.

(** Both loops stop after at most one turn on a value between 0 and 360,
    and leave it in [0, 360). *)
Lemma normalizeRotation_upto fuel r0 :
  upto false 6333186975989760 (-44) r0 ->
  exists r,
    normalizeRotation (S fuel) r0 = Some r /\
    (r >=? zero)%f64 = true /\ (r <? c360)%f64 = true.
Proof.
  intros [->|(m & e & -> & Hb & Hle)].
  - exists zero. split; [|split; reflexivity].
    unfold normalizeRotation.
    rewrite addWhileNegative_not_negative by reflexivity.
    apply subWhileAtLeast360_below. reflexivity.
  - unfold normalizeRotation.
    rewrite addWhileNegative_not_negative by reflexivity.
    destruct (finite_compare_lex _ _ _ _ Hle) as [[Hlt Hgt]|[-> ->]].
    + exists (S754_finite false m e). split; [|split].
      * apply subWhileAtLeast360_below.
        unfold F64.geb, F64.leb, SFleb, c360. rewrite Hgt. reflexivity.
      * reflexivity.
      * unfold F64.ltb, SFltb, c360. rewrite Hlt. reflexivity.
    + exists zero. split; [|split; reflexivity].
      cbn [subWhileAtLeast360].
      change ((S754_finite false 6333186975989760 (-44) >=? c360)%f64)
        with true. cbv iota.
      change ((S754_finite false 6333186975989760 (-44) - c360)%f64)
        with zero.
      apply subWhileAtLeast360_below. reflexivity.
Qed.

Lemma normalizeRotation_nan fuel : normalizeRotation fuel nan = Some nan.
Proof. destruct fuel; reflexivity. Qed.

(** For an angle as math.Atan2 returns it, the normalization stops within
    one turn of each loop; the rotation lies in [0, 360) unless the angle
    is NaN, which is handed through. *)
Lemma normalizeRotation_angle fuel rad :
  angle_ok rad = true ->
  exists r,
    normalizeRotation (S fuel) (c180 - (rad * c180 / Pi))%f64 = Some r /\
    (is_nan rad = true -> r = nan) /\
    (is_nan rad = false ->
       (r >=? zero)%f64 = true /\ (r <? c360)%f64 = true).
Proof.
  unfold angle_ok. destruct (is_nan rad) eqn:Hnan.
  - intros _. destruct rad; try discriminate.
    exists nan. split; [apply normalizeRotation_nan|]. split; auto;
      discriminate.
  - simpl. intros [Hv Hle]%andb_true_iff.
    destruct (normalizeRotation_upto fuel _ (degrees_upto rad Hv Hle))
      as (r & Hr & H0 & H360).
    exists r. split; [exact Hr|]. split; [discriminate|auto].
Qed.


(** * The primary path *)

Section PrimaryPath.

Context {lib : StdLib}.

Lemma floatVar_cases hdr key :
  floatVar hdr key =
  match hdr !! key with
  | Some text =>
      match ParseFloat text with Some v => v | None => zero end
  | None => zero
  end.
Proof.
  unfold floatVar, headerFloat. destruct (hdr !! key); reflexivity.
Qed.

(** With an angle as math.Atan2 returns it, the primary path runs to its
    end with one unit of fuel or more. *)
Lemma primaryPath_returns fuel p :
  angle_ok (Atan2 (cd12 p) (cd11 p)) = true ->
  exists rot,
    normalizeRotation (S fuel) (rawRotation p) = Some rot /\
    primaryPath (S fuel) p =
      Some {| cRA := (crval1 p
                      + (cd11 p * (imageW p / c2 - crpix1 p)
                         + cd12 p * (imageH p / c2 - crpix2 p)))%f64;
              cDec := (crval2 p
                       + (cd21 p * (imageW p / c2 - crpix1 p)
                          + cd22 p * (imageH p / c2 - crpix2 p)))%f64;
              cPixelScale :=
                (sqrt (cd11 p * cd11 p + cd21 p * cd21 p) * c3600)%f64;
              cRotation := rot |} /\
    (is_nan (Atan2 (cd12 p) (cd11 p)) = true -> rot = nan) /\
    (is_nan (Atan2 (cd12 p) (cd11 p)) = false ->
       (rot >=? zero)%f64 = true /\ (rot <? c360)%f64 = true).
Proof.
  intros Hok.
  destruct (normalizeRotation_angle fuel _ Hok) as (rot & Hn & Hnan & Hrange).
  exists rot. fold (rawRotation p) in Hn. split; [exact Hn|].
  split; [|split; assumption].
  unfold primaryPath. rewrite Hn. reflexivity.
Qed.

Lemma primaryPath_fields fuel p c :
  primaryPath fuel p = Some c ->
  cRA c = (crval1 p
           + (cd11 p * (imageW p / c2 - crpix1 p)
              + cd12 p * (imageH p / c2 - crpix2 p)))%f64 /\
  cDec c = (crval2 p
            + (cd21 p * (imageW p / c2 - crpix1 p)
               + cd22 p * (imageH p / c2 - crpix2 p)))%f64 /\
  cPixelScale c = (sqrt (cd11 p * cd11 p + cd21 p * cd21 p) * c3600)%f64.
Proof.
  unfold primaryPath. destruct (normalizeRotation fuel _); [|discriminate].
  intros [= <-]. repeat split.
Qed.

Lemma imageDim_cases hdr image naxis :
  imageDim hdr image naxis =
  match hdr !! image with
  | Some _ => floatVar hdr image
  | None => floatVar hdr naxis
  end.
Proof.
  unfold imageDim, floatVar, headerFloat.
  destruct (hdr !! image); [reflexivity|]. destruct (hdr !! naxis); reflexivity.
Qed.

Lemma primaryPath_rotation fuel p c :
  primaryPath fuel p = Some c ->
  normalizeRotation fuel (rawRotation p) = Some (cRotation c).
Proof.
  unfold primaryPath.
  destruct (normalizeRotation fuel _) as [rot|]; [|discriminate].
  intros [= <-]. reflexivity.
Qed.

(** C1, amended: when CRVAL1 is present and parses and both image
    dimensions are strictly positive, the primary path is taken and the
    Result computed has RA = crval1 + (cd11 * dx + cd12 * dy), Dec = crval2
    + (cd21 * dx + cd22 * dy) with dx = imageW / 2 - crpix1 and dy = imageH
    / 2 - crpix2, and PixelScale = sqrt (cd11 * cd11 + cd21 * cd21) * 3600,
    every value being the parsed header value or zero and an image
    dimension the value of IMAGEW (IMAGEH) or, when that key is absent, of
    NAXIS1 (NAXIS2); the sums are grouped as the steps of the specification
    group them. With an angle as math.Atan2 returns it the Result is
    computed; the call returns it when RA, Dec and PixelScale are not all
    equal to zero, and returns the WCS-parse-failed error and no Result
    when they are. *)
Theorem primary_path_center fs path file text v :
  os_Open fs path = inl file ->
  readHeader file !! "CRVAL1" = Some text ->
  ParseFloat text = Some v ->
  (imageDim (readHeader file) "IMAGEW" "NAXIS1" >? zero)%f64 = true ->
  (imageDim (readHeader file) "IMAGEH" "NAXIS2" >? zero)%f64 = true ->
  let hdr := readHeader file in
  let dx := (imageDim hdr "IMAGEW" "NAXIS1" / c2 - floatVar hdr "CRPIX1")%f64 in
  let dy := (imageDim hdr "IMAGEH" "NAXIS2" / c2 - floatVar hdr "CRPIX2")%f64 in
  let ra :=
    (floatVar hdr "CRVAL1"
     + (floatVar hdr "CD1_1" * dx + floatVar hdr "CD1_2" * dy))%f64 in
  let dec :=
    (floatVar hdr "CRVAL2"
     + (floatVar hdr "CD2_1" * dx + floatVar hdr "CD2_2" * dy))%f64 in
  let scale :=
    (sqrt (floatVar hdr "CD1_1" * floatVar hdr "CD1_1"
           + floatVar hdr "CD2_1" * floatVar hdr "CD2_1") * c3600)%f64 in
  usePrimary (extractParams hdr) = true /\
  floatVar hdr "CRVAL1" = v /\
  (forall key,
     floatVar hdr key =
     match hdr !! key with
     | Some t => match ParseFloat t with Some x => x | None => zero end
     | None => zero
     end) /\
  (forall image naxis,
     imageDim hdr image naxis =
     match hdr !! image with
     | Some _ => floatVar hdr image
     | None => floatVar hdr naxis
     end) /\
  (forall fuel r,
     computeResult fuel hdr = Some r ->
     RA r = ra /\ Dec r = dec /\ PixelScale r = scale) /\
  (angle_ok (Atan2 (floatVar hdr "CD1_2") (floatVar hdr "CD1_1")) = true ->
   forall fuel, exists r,
     computeResult (S fuel) hdr = Some r /\
     RA r = ra /\ Dec r = dec /\ PixelScale r = scale /\
     ParseWCSFile (S fuel) fs path =
       Some (if ((ra == zero) && (dec == zero) && (scale == zero))%f64
             then (None, Some wcsParseFailed)
             else (Some r, None))).
Proof.
  intros Ho Hk Hp HW HH hdr dx dy ra dec scale.
  assert (Hu : usePrimary (extractParams hdr) = true).
  { apply usePrimary_iff. split; [|split; assumption].
    apply hasWCS_iff. exists text, v. auto. }
  assert (Hcenter : forall fuel,
            centerOf fuel hdr = primaryPath fuel (extractParams hdr)).
  { intros fuel. unfold centerOf. rewrite Hu. reflexivity. }
  assert (Hfields : forall fuel r,
            computeResult fuel hdr = Some r ->
            RA r = ra /\ Dec r = dec /\ PixelScale r = scale).
  { intros fuel r Hr.
    apply computeResult_inv in Hr as (c & Hc & _ & -> & -> & -> & _).
    rewrite Hcenter in Hc. apply (primaryPath_fields _ _ _ Hc). }
  split; [exact Hu|]. split.
  { rewrite floatVar_cases. fold hdr in Hk. rewrite Hk, Hp. reflexivity. }
  split; [apply floatVar_cases|]. split; [apply imageDim_cases|].
  split; [exact Hfields|].
  intros Hok fuel.
  destruct (primaryPath_returns fuel (extractParams hdr) Hok)
    as (rot & _ & Hpp & _).
  rewrite <- Hcenter in Hpp.
  destruct (computeResult_center _ _ _ Hpp) as (r & Hr & _).
  destruct (Hfields _ _ Hr) as (HRA & HDec & HPS).
  exists r. repeat (split; [assumption|]).
  rewrite (ParseWCSFile_opened _ _ _ _ Ho). fold hdr. rewrite Hr.
  unfold validate, noFields. rewrite HRA, HDec, HPS. reflexivity.
Qed.

(** C3: the primary path is taken exactly when CRVAL1 is present and
    parses and both image dimensions (the value of IMAGEW or, when that key
    is absent, of NAXIS1, and the same for IMAGEH and NAXIS2) are strictly
    positive. When that holds, the Result computed has the RA, Dec and
    PixelScale of the full-matrix transform and a Rotation normalized from
    the CD matrix, values of absent or unparsable keys being zero, and with
    an angle as math.Atan2 returns it the Result is computed; when it does
    not hold, RA, Dec and Rotation are the header values CRVAL1, CRVAL2 and
    CROTA2. Setting or removing CRVAL2, CRPIX1, CRPIX2 or a CD key never
    changes which path is taken. *)
Theorem only_crval1_gates_primary hdr :
  let value key :=
    match hdr !! key with
    | Some t => match ParseFloat t with Some x => x | None => zero end
    | None => zero
    end in
  let dim image naxis :=
    match hdr !! image with
    | Some _ => value image
    | None => value naxis
    end in
  let gate :=
    (exists s v, hdr !! "CRVAL1" = Some s /\ ParseFloat s = Some v) /\
    (dim "IMAGEW" "NAXIS1" >? zero)%f64 = true /\
    (dim "IMAGEH" "NAXIS2" >? zero)%f64 = true in
  let dx := (dim "IMAGEW" "NAXIS1" / c2 - value "CRPIX1")%f64 in
  let dy := (dim "IMAGEH" "NAXIS2" / c2 - value "CRPIX2")%f64 in
  (usePrimary (extractParams hdr) = true <-> gate) /\
  (gate ->
   (forall fuel r,
      computeResult fuel hdr = Some r ->
      RA r = (value "CRVAL1"
              + (value "CD1_1" * dx + value "CD1_2" * dy))%f64 /\
      Dec r = (value "CRVAL2"
               + (value "CD2_1" * dx + value "CD2_2" * dy))%f64 /\
      PixelScale r =
        (sqrt (value "CD1_1" * value "CD1_1"
               + value "CD2_1" * value "CD2_1") * c3600)%f64 /\
      normalizeRotation fuel
        (c180 - (Atan2 (value "CD1_2") (value "CD1_1") * c180 / Pi))%f64
        = Some (Rotation r)) /\
   (angle_ok (Atan2 (value "CD1_2") (value "CD1_1")) = true ->
    forall fuel, exists r, computeResult (S fuel) hdr = Some r)) /\
  (~ gate ->
   forall fuel, exists r,
     computeResult fuel hdr = Some r /\
     RA r = value "CRVAL1" /\ Dec r = value "CRVAL2" /\
     PixelScale r =
       (if (value "CD1_1" != zero)%f64
        then (abs (value "CD1_1") * c3600)%f64 else zero) /\
     Rotation r = value "CROTA2") /\
  (forall k o, In k ungatedKeys ->
     usePrimary (extractParams (partial_alter (fun _ => o) k hdr)) =
     usePrimary (extractParams hdr)).
Proof.
  intros value dim gate dx dy.
  assert (Hv : forall key, value key = floatVar hdr key).
  { intros key. symmetry. apply floatVar_cases. }
  assert (Hd : forall image naxis, dim image naxis = imageDim hdr image naxis).
  { intros image naxis. rewrite imageDim_cases. unfold dim.
    rewrite !Hv. reflexivity. }
  assert (Hg : usePrimary (extractParams hdr) = true <-> gate).
  { unfold gate. rewrite !Hd, usePrimary_iff, hasWCS_iff. tauto. }
  split; [exact Hg|]. split; [|split].
  - intros G. apply Hg in G.
    assert (Hcenter : forall fuel,
              centerOf fuel hdr = primaryPath fuel (extractParams hdr)).
    { intros fuel. unfold centerOf. rewrite G. reflexivity. }
    split.
    + intros fuel r Hr.
      apply computeResult_inv in Hr as (c & Hc & _ & -> & -> & -> & -> & _).
      rewrite Hcenter in Hc.
      destruct (primaryPath_fields _ _ _ Hc) as (H1 & H2 & H3).
      apply primaryPath_rotation in Hc.
      unfold dx, dy. rewrite !Hd, !Hv. auto.
    + rewrite !Hv. intros Hok fuel.
      destruct (primaryPath_returns fuel (extractParams hdr) Hok)
        as (rot & _ & Hpp & _).
      rewrite <- Hcenter in Hpp.
      destruct (computeResult_center _ _ _ Hpp) as (r & Hr & _).
      exists r. exact Hr.
  - intros G fuel.
    assert (Hu : usePrimary (extractParams hdr) = false).
    { destruct (usePrimary (extractParams hdr)); [|reflexivity].
      exfalso. apply G, Hg. reflexivity. }
    destruct (fallback_result fuel _ Hu) as (r & Hr & _ & HRA & HDec & HPS & HR).
    exists r. rewrite !Hv. repeat split; assumption.
  - intros k o Hk. unfold usePrimary, extractParams, headerFloat, imageDim;
      simpl.
    unfold ungatedKeys in Hk.
    repeat (destruct Hk as [<- | Hk];
            [rewrite !lookup_partial_alter_ne by discriminate; reflexivity|]).
    inversion Hk.
Qed.

(** C5, amended: on the primary path the Rotation is 180 - atan2 (cd12,
    cd11) * 180 / Pi put through the two loops; when atan2 gives a number
    between -Pi and Pi, as math.Atan2 does unless an argument is NaN, the
    loops stop and the Rotation lies in [0, 360); when it gives NaN the
    Rotation is NaN. On the fallback path the Rotation is the parsed CROTA2
    value as it is, or zero. *)
Theorem rotation_of_each_path fs path file :
  os_Open fs path = inl file ->
  let hdr := readHeader file in
  let p := extractParams hdr in
  let rad := Atan2 (cd12 p) (cd11 p) in
  (usePrimary p = true -> angle_ok rad = true ->
   forall fuel, exists r,
     computeResult (S fuel) hdr = Some r /\
     ParseWCSFile (S fuel) fs path = Some (validate r) /\
     normalizeRotation (S fuel) (c180 - (rad * c180 / Pi))%f64
       = Some (Rotation r) /\
     (is_nan rad = false ->
        (Rotation r >=? zero)%f64 = true /\ (Rotation r <? c360)%f64 = true) /\
     (is_nan rad = true -> Rotation r = nan)) /\
  (usePrimary p = false ->
   forall fuel, exists r,
     computeResult fuel hdr = Some r /\
     ParseWCSFile fuel fs path = Some (validate r) /\
     Rotation r =
       match hdr !! "CROTA2" with
       | Some t => match ParseFloat t with Some x => x | None => zero end
       | None => zero
       end).
Proof.
  intros Ho hdr p rad. split.
  - intros Hu Hok fuel.
    destruct (primaryPath_returns fuel p Hok)
      as (rot & Hn & Hpp & Hnan & Hrange).
    assert (Hc : centerOf (S fuel) hdr = primaryPath (S fuel) p).
    { unfold centerOf. fold p. rewrite Hu. reflexivity. }
    rewrite Hpp in Hc.
    destruct (computeResult_center _ _ _ Hc) as (r & Hr & _ & _ & _ & Hrot).
    simpl in Hrot. exists r. split; [exact Hr|]. split.
    { rewrite (ParseWCSFile_opened _ _ _ _ Ho). fold hdr. rewrite Hr.
      reflexivity. }
    rewrite Hrot. split; [exact Hn|]. split; assumption.
  - intros Hu fuel.
    destruct (fallback_result fuel hdr Hu) as (r & Hr & _ & _ & _ & _ & Hrot).
    exists r. split; [exact Hr|]. split.
    { rewrite (ParseWCSFile_opened _ _ _ _ Ho). fold hdr. rewrite Hr.
      reflexivity. }
    rewrite Hrot. apply floatVar_cases.
Qed.

End PrimaryPath.

(** * Further properties of the parser *)

(** ** More about strings *)

Lemma drop_all s : drop (len s) s = EmptyString.
Proof. induction s as [|c s IH]; simpl; [reflexivity|exact IH]. Qed.

Lemma take_all s : take (len s) s = s.
Proof.
  induction s as [|c s IH]; simpl; [reflexivity|]. rewrite IH. reflexivity.
Qed.

Lemma get_drop i s c :
  String.get i s = Some c -> drop i s = String c (drop (S i) s).
Proof.
  revert s. induction i as [|i IH]; intros [|d s]; simpl; try discriminate.
  - intros [= ->]. destruct s; reflexivity.
  - intros H. rewrite (IH _ H). reflexivity.
Qed.

Lemma get_lt i s c : String.get i s = Some c -> (i < len s)%nat.
Proof.
  revert s. induction i as [|i IH]; intros [|d s]; simpl; try discriminate.
  - lia.
  - intros H. apply IH in H. lia.
Qed.

Lemma IndexByte_cons_None c s sep :
  c <> sep -> IndexByte s sep = None -> IndexByte (String c s) sep = None.
Proof.
  intros Hne Hs. cbn [IndexByte]. unfold byte_eqb.
  destruct (Ascii.eqb_spec c sep); [contradiction|]. rewrite Hs. reflexivity.
Qed.

Lemma app_assoc_s (a b c : string) : (a +:+ b) +:+ c = a +:+ (b +:+ c).
Proof.
  induction a as [|x a IH]; [reflexivity|].
  rewrite !app_cons, IH. reflexivity.
Qed.

Lemma app_nil_r_s (a : string) : a +:+ EmptyString = a.
Proof.
  induction a as [|x a IH]; [reflexivity|]. rewrite app_cons, IH. reflexivity.
Qed.

(** ** Files without a full record, and the tail of a file *)

Lemma take_take a b s : take a (take b s) = take (Nat.min a b) s.
Proof.
  revert b s. induction a as [|a IH]; intros [|b] [|c s]; simpl;
    try reflexivity.
  rewrite IH. reflexivity.
Qed.

Lemma drop_take n m s : drop n (take m s) = take (m - n) (drop n s).
Proof.
  revert m s. induction n as [|n IH]; intros m s; simpl.
  - rewrite Nat.sub_0_r. reflexivity.
  - destruct m as [|m]; simpl.
    + destruct s; [reflexivity|]. destruct (drop n s); reflexivity.
    + destruct s as [|c s]; simpl; [destruct (m - n)%nat; reflexivity|].
      apply IH.
Qed.

Lemma spec_records_take f :
  spec_records (take (80 * (len f / 80)) f) = spec_records f.
Proof.
  unfold spec_records.
  pose proof (Nat.Div0.mul_div_le (len f) 80) as Hle.
  assert (Hlen : len (take (80 * (len f / 80)) f) = (80 * (len f / 80))%nat).
  { rewrite len_take. lia. }
  rewrite Hlen.
  rewrite (Nat.mul_comm 80), Nat.div_mul by discriminate.
  apply map_ext_in. intros i Hi. apply in_seq in Hi.
  rewrite drop_take, take_take. f_equal. lia.
Qed.

Lemma readHeader_fold f :
  readHeader f
  = fold_left (fun h line => parseRecord line h) (spec_records f) empty.
Proof. unfold readHeader. apply readRecords_fold. lia. Qed.

(** X1: what follows the last full 80-byte record is never looked at. *)
Theorem partial_last_record_is_ignored (f : string) :
  readHeader f = readHeader (take (80 * (len f / 80)) f).
Proof.
  rewrite !readHeader_fold, spec_records_take. reflexivity.
Qed.

Lemma readHeader_short f : (len f < 80)%nat -> readHeader f = empty.
Proof.
  intros H. rewrite readHeader_fold, spec_records_short by exact H.
  reflexivity.
Qed.

Section NoReference.

Context {lib : StdLib}.

Lemma usePrimary_no_CRVAL1 hdr :
  headerFloat hdr "CRVAL1" = None -> usePrimary (extractParams hdr) = false.
Proof.
  intros H. unfold usePrimary, extractParams. cbn [hasWCS]. rewrite H.
  reflexivity.
Qed.

(** X2: without a usable CRVAL1, CRVAL2 and CD1_1 there is no result,
    whatever else the header holds. *)
Theorem no_reference_no_scale_is_parse_failure
  (fuel : nat) (fs : filesystem) (path file : string) :
  fs path = inr file ->
  headerFloat (readHeader file) "CRVAL1" = None ->
  headerFloat (readHeader file) "CRVAL2" = None ->
  headerFloat (readHeader file) "CD1_1" = None ->
  ParseWCSFile fuel fs path = Some (None, Some wcsParseFailed).
Proof.
  intros Hfs H1 H2 H3.
  unfold ParseWCSFile, os_Open. rewrite Hfs.
  unfold computeResult, centerOf.
  rewrite (usePrimary_no_CRVAL1 _ H1).
  unfold validate, noFields. cbn [RA Dec PixelScale cRA cDec cPixelScale fallbackPath].
  unfold extractParams. cbn [crval1 crval2 cd11].
  unfold floatVar. rewrite H1, H2, H3. reflexivity.
Qed.

(** X3: a file shorter than one record, the empty file included, has no
    header entry and is a parse failure. *)
Theorem short_file_is_parse_failure
  (fuel : nat) (fs : filesystem) (path file : string) :
  fs path = inr file -> (len file < 80)%nat ->
  readHeader file = empty /\
  ParseWCSFile fuel fs path = Some (None, Some wcsParseFailed).
Proof.
  intros Hfs Hlen. pose proof (readHeader_short _ Hlen) as He.
  split; [exact He|].
  unfold ParseWCSFile, os_Open. rewrite Hfs, He.
  unfold computeResult, centerOf, usePrimary, extractParams, floatVar,
    headerFloat, imageDim, fallbackPath, fieldUpdate.
  cbn [hasWCS crval1 crval2 cd11].
  rewrite !lookup_empty. reflexivity.
Qed.

End NoReference.

(** ** Two blocks of records *)

Lemma take_app_ge n a b : (n <= len a)%nat -> take n (a +:+ b) = take n a.
Proof.
  revert a. induction n as [|n IH]; intros a Hn;
    [destruct a; destruct b; reflexivity|].
  destruct a as [|c a]; [simpl in Hn; lia|].
  rewrite app_cons. cbn [take]. rewrite IH; [reflexivity|]. simpl in Hn. lia.
Qed.

Lemma drop_app_ge n a b : (n <= len a)%nat -> drop n (a +:+ b) = drop n a +:+ b.
Proof.
  revert a. induction n as [|n IH]; intros a Hn; [reflexivity|].
  destruct a as [|c a]; [simpl in Hn; lia|].
  rewrite app_cons. cbn [drop]. apply IH. simpl in Hn. lia.
Qed.

Lemma spec_records_app n a b :
  len a = (80 * n)%nat ->
  spec_records (a +:+ b) = spec_records a ++ spec_records b.
Proof.
  revert a. induction n as [|n IH]; intros a Hlen.
  - rewrite (len_zero a) by lia. reflexivity.
  - rewrite (spec_records_step (a +:+ b)) by (rewrite len_app; lia).
    rewrite (spec_records_step a) by lia.
    rewrite take_app_ge, drop_app_ge by lia.
    rewrite (IH (drop 80 a)) by (rewrite len_drop; lia).
    reflexivity.
Qed.

Lemma fold_parseRecord_union records (hdr : HeaderMap) :
  fold_left (fun h line => parseRecord line h) records hdr
  = union (fold_left (fun h line => parseRecord line h) records empty) hdr.
Proof.
  revert hdr. induction records as [|r records IH]; intros hdr;
    cbn [fold_left].
  - rewrite (left_id_L empty union). reflexivity.
  - rewrite (IH (parseRecord r hdr)), (IH (parseRecord r empty)).
    rewrite !parseRecord_spec_entry.
    destruct (spec_entry r) as [[k v]|];
      [|rewrite (right_id_L empty union); reflexivity].
    rewrite (insert_union_singleton_l hdr), (insert_union_singleton_l empty).
    rewrite (right_id_L empty union), (assoc_L union). reflexivity.
Qed.

(** X4: the header map of a file made of two blocks, the first a whole
    number of 80-byte records, is the union of the maps of the two blocks
    in which the entries of the second block win: reading goes on after
    any record, an END record included. *)
Theorem header_of_two_blocks (a b : string) :
  (len a mod 80 = 0)%nat ->
  readHeader (a +:+ b) = union (readHeader b) (readHeader a) /\
  forall key,
    readHeader (a +:+ b) !! key =
    match readHeader b !! key with
    | Some v => Some v
    | None => readHeader a !! key
    end.
Proof.
  intros Hmod.
  assert (E : readHeader (a +:+ b) = union (readHeader b) (readHeader a)).
  { rewrite !readHeader_fold.
    rewrite (spec_records_app (len a / 80) a b).
    - rewrite fold_left_app. apply fold_parseRecord_union.
    - pose proof (Nat.div_mod_eq (len a) 80). lia. }
  split; [exact E|]. intros key. rewrite E.
  rewrite lookup_union.
  destruct (readHeader b !! key), (readHeader a !! key); reflexivity.
Qed.

(** ** What the stored keys and values look like *)

Lemma TrimLeftByte_suffix s c : exists w, s = w +:+ TrimLeftByte s c.
Proof.
  induction s as [|d s [w Hw]]; simpl; [exists EmptyString; reflexivity|].
  destruct (byte_eqb d c).
  - exists (String d w). sapp. congruence.
  - exists EmptyString. reflexivity.
Qed.

Lemma TrimRightByte_prefix s c : exists w, s = TrimRightByte s c +:+ w.
Proof.
  induction s as [|d s [w Hw]]; simpl; [exists EmptyString; reflexivity|].
  destruct (TrimRightByte s c) as [|e t] eqn:Et.
  - destruct (byte_eqb d c).
    + exists (String d s). reflexivity.
    + exists s. reflexivity.
  - exists w. rewrite app_cons. f_equal. exact Hw.
Qed.

Lemma IndexByte_Trim s q c :
  IndexByte s c = None -> IndexByte (Trim s q) c = None.
Proof.
  intros H. unfold Trim.
  destruct (TrimRightByte_prefix s q) as [w Hw]. rewrite Hw in H.
  apply IndexByte_None_app in H. destruct H as [H _].
  destruct (TrimLeftByte_suffix (TrimRightByte s q) q) as [w' Hw'].
  rewrite Hw' in H. apply IndexByte_None_app in H. tauto.
Qed.

Lemma IndexByte_TrimSpace s c :
  IndexByte s c = None -> IndexByte (TrimSpace s) c = None.
Proof.
  intros H. apply IndexByte_TrimRightSpace, IndexByte_TrimLeftSpace, H.
Qed.

Lemma IndexByte_stripComment s : IndexByte (stripComment s) "/"%char = None.
Proof.
  unfold stripComment. destruct (IndexByte s "/"%char) as [i|] eqn:Hi.
  - apply IndexByte_Some in Hi. tauto.
  - exact Hi.
Qed.

Lemma parseRecord_entries line hdr :
  (forall k v, hdr !! k = Some v -> entry_ok k v) ->
  forall k v, parseRecord line hdr !! k = Some v -> entry_ok k v.
Proof.
  intros Hh k v. unfold parseRecord.
  destruct ((len line =? 0)%nat || HasPrefix line "END"); [apply Hh|].
  unfold SplitN2. destruct (IndexByte line "="%char) as [i|] eqn:Hi;
    [|apply Hh].
  fold (stripComment (TrimSpace (drop (S i) line))).
  destruct (String.eqb_spec (TrimSpace (take i line)) k) as [<-|Hne].
  - rewrite lookup_insert_eq. intros [= <-]. repeat split.
    + apply TrimSpace_idem.
    + apply IndexByte_TrimSpace. apply IndexByte_Some in Hi. tauto.
    + apply TrimSpace_idem.
    + apply IndexByte_TrimSpace, IndexByte_Trim, IndexByte_TrimSpace,
        IndexByte_stripComment.
  - rewrite lookup_insert_ne by exact Hne. apply Hh.
Qed.

Lemma readRecords_entries fuel f hdr :
  (forall k v, hdr !! k = Some v -> entry_ok k v) ->
  forall k v, readRecords fuel f hdr !! k = Some v -> entry_ok k v.
Proof.
  revert f hdr. induction fuel as [|fuel IH]; intros f hdr Hh;
    cbn [readRecords]; [exact Hh|].
  destruct (file_Read 80 f) as [[buf rest]|]; [|exact Hh].
  destruct (negb (len buf =? 80)%nat); [exact Hh|].
  apply IH, parseRecord_entries, Hh.
Qed.

(** X5: no key or value of the header map starts or ends with white space,
    no key holds '=' and no value holds '/'. *)
Theorem header_entries_are_trimmed (f key value : string) :
  readHeader f !! key = Some value ->
  TrimSpace key = key /\ IndexByte key "="%char = None /\
  TrimSpace value = value /\ IndexByte value "/"%char = None.
Proof.
  apply (readRecords_entries (S (len f)) f empty).
  intros k v. rewrite lookup_empty. discriminate.
Qed.

(** ** A card is read back *)

Lemma drop_app_exact a b : drop (len a) (a +:+ b) = b.
Proof.
  induction a as [|c a IH]; [reflexivity|]. rewrite app_cons. exact IH.
Qed.

Lemma IndexByte_app_None a b c :
  IndexByte a c = None -> IndexByte b c = None -> IndexByte (a +:+ b) c = None.
Proof.
  induction a as [|d a IH]; [intros _ H; exact H|].
  rewrite app_cons. cbn [IndexByte]. destruct (byte_eqb d c); [discriminate|].
  destruct (IndexByte a c); [discriminate|]. intros _ Hb.
  rewrite (IH eq_refl Hb). reflexivity.
Qed.

Lemma IndexByte_spaces n c : c <> " "%char -> IndexByte (spaces n) c = None.
Proof.
  intros Hc. induction n as [|n IH]; [reflexivity|].
  cbn [spaces]. apply IndexByte_cons_None; [congruence|exact IH].
Qed.

Lemma spaces_add n m : spaces n +:+ spaces m = spaces (n + m).
Proof.
  induction n as [|n IH]; [reflexivity|].
  cbn [spaces Nat.add]. rewrite app_cons, IH. reflexivity.
Qed.

Lemma TrimLeftSpace_spaces n s :
  TrimLeftSpace (spaces n +:+ s) = TrimLeftSpace s.
Proof.
  induction n as [|n IH]; [reflexivity|].
  cbn [spaces]. rewrite app_cons. cbn [TrimLeftSpace].
  change (isSpace1 " "%char) with true. cbv iota. exact IH.
Qed.

Lemma TrimRightSpace_spaces n : TrimRightSpace (spaces n) = EmptyString.
Proof.
  induction n as [|n IH]; [reflexivity|].
  cbn [spaces TrimRightSpace]. rewrite IH. reflexivity.
Qed.

Lemma TrimRightSpace_app_blank s w :
  TrimRightSpace w = EmptyString ->
  TrimRightSpace (s +:+ w) = TrimRightSpace s.
Proof.
  intros Hw. induction s as [|c s IH]; [exact Hw|].
  rewrite app_cons. cbn [TrimRightSpace]. rewrite IH. reflexivity.
Qed.

(** A string that TrimSpace leaves alone is left alone by both halves. *)
Lemma TrimSpace_fixed s :
  TrimSpace s = s -> TrimLeftSpace s = s /\ TrimRightSpace s = s.
Proof.
  unfold TrimSpace. intros H.
  destruct (TrimLeftSpace_suffix s) as [w Hw].
  destruct (TrimRightSpace_prefix (TrimLeftSpace s)) as [w' Hw'].
  rewrite H in Hw'.
  assert (Hlen : len w = O).
  { apply (f_equal len) in Hw, Hw'. rewrite len_app in Hw, Hw'. lia. }
  apply len_zero in Hlen. subst w. rewrite app_nil_l in Hw.
  split; [congruence|]. rewrite <- Hw in H. exact H.
Qed.

(** A byte of ASCII that is no white space. *)
Lemma isSpace2_ascii c1 c2 : (byte_of c2 < 128)%N -> isSpace2 c1 c2 = false.
Proof.
  intros H. unfold isSpace2.
  destruct (byte_of c2 =? 133)%N eqn:E1; [apply N.eqb_eq in E1; lia|].
  destruct (byte_of c2 =? 160)%N eqn:E2; [apply N.eqb_eq in E2; lia|].
  apply andb_false_r.
Qed.

Lemma isSpace3_ascii_2 c1 c2 c3 :
  (byte_of c2 < 128)%N -> isSpace3 c1 c2 c3 = false.
Proof.
  intros H. unfold isSpace3.
  destruct (byte_of c2 =? 154)%N eqn:E1; [apply N.eqb_eq in E1; lia|].
  destruct (byte_of c2 =? 128)%N eqn:E2; [apply N.eqb_eq in E2; lia|].
  destruct (byte_of c2 =? 129)%N eqn:E3; [apply N.eqb_eq in E3; lia|].
  rewrite !andb_false_r. reflexivity.
Qed.

Lemma isSpace3_ascii_3 c1 c2 c3 :
  (byte_of c3 < 128)%N -> isSpace3 c1 c2 c3 = false.
Proof.
  intros H. unfold isSpace3.
  destruct (byte_of c3 =? 128)%N eqn:E1; [apply N.eqb_eq in E1; lia|].
  destruct (128 <=? byte_of c3)%N eqn:E2; [apply N.leb_le in E2; lia|].
  destruct (byte_of c3 =? 168)%N eqn:E3; [apply N.eqb_eq in E3; lia|].
  destruct (byte_of c3 =? 169)%N eqn:E4; [apply N.eqb_eq in E4; lia|].
  destruct (byte_of c3 =? 175)%N eqn:E5; [apply N.eqb_eq in E5; lia|].
  destruct (byte_of c3 =? 159)%N eqn:E6; [apply N.eqb_eq in E6; lia|].
  cbn [andb orb]. rewrite !andb_false_r. reflexivity.
Qed.

(** What follows a string does not turn its start into white space when it
    begins with a byte of ASCII. *)
Lemma leadSpace_app_ascii s c t :
  s <> EmptyString -> (byte_of c < 128)%N ->
  leadSpace s = false -> leadSpace (s +:+ String c t) = false.
Proof.
  intros Hs Hc. destruct s as [|c1 [|c2 [|c3 s3]]]; [contradiction| | |];
    rewrite ?app_cons, ?app_nil_l; cbn [leadSpace].
  - rewrite orb_false_r. intros ->. rewrite (isSpace2_ascii _ _ Hc).
    destruct t; [reflexivity|]. apply (isSpace3_ascii_2 _ _ _ Hc).
  - rewrite orb_false_r. intros [-> ->]%orb_false_elim.
    apply (isSpace3_ascii_3 _ _ _ Hc).
  - auto.
Qed.

Lemma leadSpace_fixed s : TrimLeftSpace s = s -> leadSpace s = false.
Proof. intros H. rewrite <- H. apply leadSpace_TrimLeftSpace. Qed.

(** Blanks around a trimmed string are trimmed away. *)
Lemma TrimSpace_blanks n s m :
  TrimSpace s = s -> TrimSpace (spaces n +:+ s +:+ spaces m) = s.
Proof.
  intros H. destruct (TrimSpace_fixed _ H) as [HL HR].
  unfold TrimSpace. rewrite TrimLeftSpace_spaces.
  destruct s as [|c s'] eqn:Es.
  - rewrite app_nil_l.
    pose proof (TrimLeftSpace_spaces m EmptyString) as E.
    rewrite app_nil_r_s in E. rewrite E. reflexivity.
  - rewrite <- Es in *.
    assert (E : TrimLeftSpace (s +:+ spaces m) = s +:+ spaces m).
    { apply TrimLeftSpace_no_lead. destruct m as [|m].
      - cbn [spaces]. rewrite app_nil_r_s. apply leadSpace_fixed, HL.
      - cbn [spaces]. apply leadSpace_app_ascii.
        + rewrite Es. discriminate.
        + vm_compute. reflexivity.
        + apply leadSpace_fixed, HL. }
    rewrite E, TrimRightSpace_app_blank by apply TrimRightSpace_spaces.
    exact HR.
Qed.

Lemma TrimRightSpace_ends_ascii s c :
  (byte_of c < 128)%N -> isSpace1 c = false ->
  TrimRightSpace (s +:+ String c EmptyString) = s +:+ String c EmptyString.
Proof.
  intros Hc Hn. induction s as [|d s IH].
  - rewrite app_nil_l. cbn [TrimRightSpace isSpaceRune]. rewrite Hn.
    reflexivity.
  - rewrite app_cons. cbn [TrimRightSpace]. rewrite IH.
    assert (E : isSpaceRune (String d (s +:+ String c EmptyString)) = false).
    { destruct s as [|e [|f s]]; rewrite ?app_cons, ?app_nil_l;
        cbn [isSpaceRune].
      - apply (isSpace2_ascii _ _ Hc).
      - apply (isSpace3_ascii_3 _ _ _ Hc).
      - destruct s; rewrite ?app_cons, ?app_nil_l; reflexivity. }
    rewrite E. reflexivity.
Qed.

Lemma TrimRightByte_snoc s c :
  TrimRightByte (s +:+ String c EmptyString) c = TrimRightByte s c.
Proof.
  induction s as [|d s IH].
  - rewrite app_nil_l. cbn [TrimRightByte]. unfold byte_eqb.
    rewrite Ascii.eqb_refl. reflexivity.
  - rewrite app_cons. cbn [TrimRightByte]. rewrite IH. reflexivity.
Qed.

Lemma Trim_fixed s c :
  Trim s c = s -> TrimRightByte s c = s /\ TrimLeftByte s c = s.
Proof.
  unfold Trim. intros H.
  destruct (TrimRightByte_prefix s c) as [w Hw].
  destruct (TrimLeftByte_suffix (TrimRightByte s c) c) as [w' Hw'].
  rewrite H in Hw'.
  assert (Hlen : len w = O).
  { apply (f_equal len) in Hw, Hw'. rewrite len_app in Hw, Hw'. lia. }
  apply len_zero in Hlen. subst w. rewrite app_nil_r_s in Hw.
  split; [congruence|]. rewrite <- Hw in H. exact H.
Qed.

Lemma TrimRightByte_app_spaces s n c :
  c <> " "%char -> TrimRightByte s c = s ->
  TrimRightByte (s +:+ spaces n) c = s +:+ spaces n.
Proof.
  intros Hc Hs.
  destruct n as [|n]; [cbn [spaces]; rewrite app_nil_r_s; exact Hs|].
  clear Hs. induction s as [|d s IH].
  - rewrite app_nil_l. induction n as [|n IHn].
    + cbn [spaces TrimRightByte]. unfold byte_eqb.
      destruct (Ascii.eqb_spec " "%char c); [congruence|]. reflexivity.
    + change (spaces (S (S n))) with (String " "%char (spaces (S n))).
      cbn [TrimRightByte]. rewrite IHn. reflexivity.
  - rewrite app_cons. cbn [TrimRightByte]. rewrite IH.
    destruct (s +:+ spaces (S n)) eqn:E; [|reflexivity].
    apply (f_equal len) in E. rewrite len_app in E. simpl in E. lia.
Qed.

Lemma TrimLeftByte_app s t c :
  s <> EmptyString -> TrimLeftByte s c = s -> TrimLeftByte (s +:+ t) c = s +:+ t.
Proof.
  destruct s as [|d s]; [contradiction|]. intros _.
  rewrite app_cons. cbn [TrimLeftByte].
  destruct (byte_eqb d c); [|reflexivity].
  intros H. exfalso.
  destruct (TrimLeftByte_suffix s c) as [w Hw].
  apply (f_equal len) in H, Hw. rewrite len_app in Hw. simpl in H. lia.
Qed.

Lemma TrimLeftByte_spaces n c :
  c <> " "%char -> TrimLeftByte (spaces n) c = spaces n.
Proof.
  intros Hc. destruct n as [|n]; [reflexivity|]. cbn [spaces TrimLeftByte].
  unfold byte_eqb. destruct (Ascii.eqb_spec " "%char c); [congruence|].
  reflexivity.
Qed.

Lemma TrimLeftByte_cons_same s c :
  TrimLeftByte (String c s) c = TrimLeftByte s c.
Proof.
  change (TrimLeftByte (String c s) c)
    with (if byte_eqb c c then TrimLeftByte s c else String c s).
  unfold byte_eqb. rewrite Ascii.eqb_refl. reflexivity.
Qed.

(** Single quotes around a value that has none at its ends are stripped,
    and the blanks inside them are kept. *)
Lemma Trim_quoted value n :
  Trim value "'"%char = value ->
  Trim ("'" +:+ value +:+ spaces n +:+ "'") "'"%char = value +:+ spaces n.
Proof.
  intros H. destruct (Trim_fixed _ _ H) as [HR HL].
  assert (Hq : "'"%char <> " "%char) by discriminate.
  assert (HV : TrimLeftByte (value +:+ spaces n) "'"%char
               = value +:+ spaces n).
  { destruct value as [|e value'] eqn:Ev.
    - rewrite app_nil_l. apply TrimLeftByte_spaces, Hq.
    - rewrite <- Ev in *. apply TrimLeftByte_app; [rewrite Ev; discriminate|].
      exact HL. }
  unfold Trim.
  replace ("'" +:+ value +:+ spaces n +:+ "'")
    with (("'" +:+ value +:+ spaces n) +:+ "'")
    by (rewrite !app_assoc_s; reflexivity).
  rewrite TrimRightByte_snoc.
  change ("'" +:+ value +:+ spaces n)
    with (String "'"%char (value +:+ spaces n)).
  cbn [TrimRightByte].
  rewrite (TrimRightByte_app_spaces _ n _ Hq HR).
  destruct (value +:+ spaces n) as [|x v].
  - unfold byte_eqb. rewrite Ascii.eqb_refl. reflexivity.
  - rewrite TrimLeftByte_cons_same. exact HV.
Qed.

Lemma HasPrefix_END key c rest :
  HasPrefix key "END" = false -> c <> "E"%char -> c <> "N"%char ->
  c <> "D"%char ->
  HasPrefix (key +:+ String c rest) "END" = false.
Proof.
  intros H HE HN HD.
  destruct key as [|k1 [|k2 [|k3 key]]]; rewrite ?app_cons, ?app_nil_l;
    cbn [HasPrefix] in *; unfold byte_eqb in *.
  - destruct (Ascii.eqb_spec c "E"%char); [contradiction|reflexivity].
  - destruct (Ascii.eqb k1 "E"); [|reflexivity]. cbn [andb].
    destruct (Ascii.eqb_spec c "N"%char); [contradiction|reflexivity].
  - destruct (Ascii.eqb k1 "E"); [|reflexivity].
    destruct (Ascii.eqb k2 "N"); [|reflexivity]. cbn [andb].
    destruct (Ascii.eqb_spec c "D"%char); [contradiction|].
    destruct rest; reflexivity.
  - destruct (Ascii.eqb k1 "E"); [|reflexivity].
    destruct (Ascii.eqb k2 "N"); [|reflexivity].
    destruct (Ascii.eqb k3 "D"); [|reflexivity].
    cbn [andb] in *. destruct key; discriminate.
Qed.

(** X6: a card is read back. A record made of a key, blanks, '=', blanks, a
    value that may stand in single quotes with blanks behind it, blanks,
    and a comment after '/' or nothing, stores the value under the key,
    when key and value are trimmed, the key has no '=' and does not begin
    with END, and the value has no '/' and no quote at its ends. *)
Theorem card_is_read_back
  (key value comment : string) (a b c d : nat) (quoted slash : bool)
  (hdr : HeaderMap) :
  TrimSpace key = key -> IndexByte key "="%char = None ->
  HasPrefix key "END" = false ->
  TrimSpace value = value -> IndexByte value "/"%char = None ->
  Trim value "'"%char = value ->
  let q := if quoted then "'" else "" in
  let tail := if slash then "/" +:+ comment else "" in
  parseRecord
    (key +:+ spaces a +:+ "=" +:+ spaces b +:+ q +:+ value +:+ spaces d
       +:+ q +:+ spaces c +:+ tail) hdr
  = <[key := value]> hdr.
Proof.
  intros Hk Hke Hkend Hv Hvs Hvq q tail.
  set (body := spaces b +:+ q +:+ value +:+ spaces d +:+ q +:+ spaces c).
  set (line := key +:+ spaces a +:+ "=" +:+ spaces b +:+ q +:+ value
                 +:+ spaces d +:+ q +:+ spaces c +:+ tail).
  assert (Hline : line = (key +:+ spaces a) +:+ String "="%char (body +:+ tail)).
  { unfold line, body. rewrite !app_assoc_s. reflexivity. }
  assert (Hend : HasPrefix line "END" = false).
  { unfold line. destruct a as [|a].
    - cbn [spaces]. rewrite app_nil_l.
      apply HasPrefix_END; [exact Hkend|discriminate..].
    - cbn [spaces]. rewrite app_cons.
      apply HasPrefix_END; [exact Hkend|discriminate..]. }
  assert (Hidx : IndexByte line "="%char = Some (len (key +:+ spaces a))).
  { rewrite Hline. apply IndexByte_app.
    apply IndexByte_app_None; [exact Hke|].
    apply IndexByte_spaces. discriminate. }
  assert (Hbody : IndexByte body "/"%char = None).
  { unfold body, q.
    assert (Hq : IndexByte (if quoted then "'" else "") "/"%char = None)
      by (destruct quoted; reflexivity).
    repeat (apply IndexByte_app_None);
      try exact Hq; try exact Hvs; apply IndexByte_spaces; discriminate. }
  assert (Hstrip : stripComment (body +:+ tail) = body).
  { unfold tail. destruct slash.
    - change ("/" +:+ comment) with (String "/"%char comment).
      apply stripComment_app, Hbody.
    - rewrite app_nil_r_s. apply stripComment_None, Hbody. }
  assert (Hvalue :
            TrimSpace (Trim (TrimSpace body) "'"%char) = value).
  { unfold body, q. destruct quoted.
    - assert (E : TrimSpace (spaces b +:+ "'" +:+ value +:+ spaces d +:+ "'"
                              +:+ spaces c)
                  = "'" +:+ value +:+ spaces d +:+ "'").
      { unfold TrimSpace. rewrite TrimLeftSpace_spaces.
        change ("'" +:+ value +:+ spaces d +:+ "'" +:+ spaces c)
          with (String "'"%char (value +:+ spaces d +:+ "'" +:+ spaces c)).
        rewrite TrimLeftSpace_no_lead.
        2:{ destruct (value +:+ spaces d +:+ "'" +:+ spaces c)
              as [|x [|y z]]; reflexivity. }
        replace (String "'"%char (value +:+ spaces d +:+ "'" +:+ spaces c))
          with ((("'" +:+ value +:+ spaces d) +:+ "'") +:+ spaces c)
          by (rewrite !app_assoc_s; reflexivity).
        rewrite TrimRightSpace_app_blank by apply TrimRightSpace_spaces.
        rewrite TrimRightSpace_ends_ascii;
          [|vm_compute; reflexivity|reflexivity].
        rewrite !app_assoc_s. reflexivity. }
      rewrite E, (Trim_quoted _ _ Hvq).
      pose proof (TrimSpace_blanks 0 value d Hv) as Hb.
      cbn [spaces] in Hb. rewrite app_nil_l in Hb. exact Hb.
    - rewrite !app_nil_l.
      replace (spaces b +:+ value +:+ spaces d +:+ spaces c)
        with (spaces b +:+ value +:+ spaces (d + c))
        by (rewrite <- spaces_add; reflexivity).
      rewrite (TrimSpace_blanks _ _ _ Hv), Hvq. exact Hv. }
  rewrite parseRecord_spec_entry. fold line. unfold spec_entry.
  rewrite Hend, Hidx.
  assert (Htake : take (len (key +:+ spaces a)) line = key +:+ spaces a).
  { rewrite Hline. apply take_app_exact. }
  assert (Hdrop : drop (S (len (key +:+ spaces a))) line = body +:+ tail).
  { rewrite Hline.
    change (S (len (key +:+ spaces a)))
      with (len (key +:+ spaces a) + 1)%nat || idtac.
    replace (S (len (key +:+ spaces a)))
      with (len ((key +:+ spaces a) +:+ "=")) by (rewrite len_app; simpl; lia).
    replace ((key +:+ spaces a) +:+ String "="%char (body +:+ tail))
      with (((key +:+ spaces a) +:+ "=") +:+ (body +:+ tail))
      by (rewrite !app_assoc_s; reflexivity).
    apply drop_app_exact. }
  rewrite Htake, Hdrop, Hstrip, Hvalue.
  pose proof (TrimSpace_blanks 0 key a Hk) as Hb.
  cbn [spaces] in Hb. rewrite app_nil_l in Hb. rewrite Hb. reflexivity.
Qed.

(** * More about the coordinate transform *)

Section TransformMore.

Context {lib : StdLib}.

Lemma headerFloat_other hdr k o key :
  k <> key ->
  headerFloat (partial_alter (fun _ => o) k hdr) key = headerFloat hdr key.
Proof.
  intros Hne. unfold headerFloat.
  rewrite lookup_partial_alter_ne by exact Hne. reflexivity.
Qed.

Lemma floatVar_other hdr k o key :
  k <> key ->
  floatVar (partial_alter (fun _ => o) k hdr) key = floatVar hdr key.
Proof.
  intros Hne. unfold floatVar. rewrite headerFloat_other by exact Hne.
  reflexivity.
Qed.

Lemma imageDim_other hdr k o key1 key2 :
  k <> key1 -> k <> key2 ->
  imageDim (partial_alter (fun _ => o) k hdr) key1 key2
  = imageDim hdr key1 key2.
Proof.
  intros H1 H2. unfold imageDim.
  rewrite !lookup_partial_alter_ne by assumption. reflexivity.
Qed.

Lemma fieldUpdate_other hdr k o key ps old :
  k <> key ->
  fieldUpdate (partial_alter (fun _ => o) k hdr) key ps old
  = fieldUpdate hdr key ps old.
Proof.
  intros Hne. unfold fieldUpdate.
  rewrite lookup_partial_alter_ne by exact Hne. reflexivity.
Qed.

Lemma centerOf_other fuel hdr k o :
  ~ In k usedKeys ->
  centerOf fuel (partial_alter (fun _ => o) k hdr) = centerOf fuel hdr.
Proof.
  intros Hk. unfold usedKeys in Hk. cbn [In] in Hk.
  assert (He : extractParams (partial_alter (fun _ => o) k hdr)
               = extractParams hdr).
  { unfold extractParams.
    rewrite !floatVar_other, !imageDim_other, !headerFloat_other
      by (intros ->; tauto).
    reflexivity. }
  unfold centerOf. rewrite He. unfold fallbackPath.
  rewrite floatVar_other by (intros ->; tauto). reflexivity.
Qed.

(** X7: a key that the parser does not look up changes nothing but the
    header map that is handed back: the same call returns, with the same
    coordinates, scale, rotation and field size. *)
Theorem other_keys_change_only_the_header
  (fuel : nat) (hdr : HeaderMap) (k : string) (o : option string) (r : Result) :
  ~ In k usedKeys ->
  computeResult fuel hdr = Some r ->
  exists r',
    computeResult fuel (partial_alter (fun _ => o) k hdr) = Some r' /\
    Solved r' = Solved r /\
    RA r' = RA r /\ Dec r' = Dec r /\
    PixelScale r' = PixelScale r /\ Rotation r' = Rotation r /\
    FieldWidth r' = FieldWidth r /\ FieldHeight r' = FieldHeight r /\
    noFields r' = noFields r /\
    WCSHeader r' = partial_alter (fun _ => o) k hdr.
Proof.
  intros Hk Hr. pose proof Hk as Hk'.
  unfold usedKeys in Hk'. cbn [In] in Hk'.
  unfold computeResult in *. rewrite (centerOf_other _ _ _ _ Hk).
  destruct (centerOf fuel hdr) as [c|]; [|discriminate].
  injection Hr as <-. eexists. split; [reflexivity|].
  cbn [Solved RA Dec PixelScale Rotation FieldWidth FieldHeight WCSHeader].
  rewrite !fieldUpdate_other by (intros ->; tauto).
  repeat split.
Qed.

(** X8: an IMAGEW that is present but does not parse is not replaced by
    NAXIS1: the width stays 0 and the fallback path runs. The same holds for
    IMAGEH and NAXIS2. *)
Theorem unparsable_dimension_selects_fallback
  (fuel : nat) (hdr : HeaderMap) (val : string) :
  (hdr !! "IMAGEW" = Some val \/ hdr !! "IMAGEH" = Some val) ->
  ParseFloat val = None ->
  usePrimary (extractParams hdr) = false /\
  exists r,
    computeResult fuel hdr = Some r /\
    RA r = floatVar hdr "CRVAL1" /\ Dec r = floatVar hdr "CRVAL2" /\
    Rotation r = floatVar hdr "CROTA2".
Proof.
  intros Hdim Hval.
  assert (Hu : usePrimary (extractParams hdr) = false).
  { unfold usePrimary, extractParams. cbn [hasWCS imageW imageH].
    unfold imageDim. destruct Hdim as [H|H]; rewrite H, Hval.
    - rewrite andb_false_r. reflexivity.
    - apply andb_false_r. }
  split; [exact Hu|].
  unfold computeResult, centerOf. rewrite Hu.
  eexists. split; [reflexivity|]. repeat split.
Qed.

(** X9: which key gives a dimension. The centre of the primary path takes
    the width from IMAGEW whenever that key is present, and from NAXIS1
    only when it is absent; the field width takes it from NAXIS1 whenever
    that key parses, and from IMAGEW only otherwise, and is 0 unless the
    pixel scale is above 0. The same holds for the height with IMAGEH and
    NAXIS2. *)
Theorem dimension_keys_precedence
  (fuel : nat) (hdr : HeaderMap) (r : Result) :
  computeResult fuel hdr = Some r ->
  let fieldSize (naxis image : string) :=
    if (PixelScale r >? zero)%f64 then
      match headerFloat hdr naxis, headerFloat hdr image with
      | Some n, _ => ((n * PixelScale r) / c3600)%f64
      | None, Some i => ((i * PixelScale r) / c3600)%f64
      | None, None => zero
      end
    else zero in
  let centerSize (image naxis : string) :=
    match hdr !! image with
    | Some _ => floatVar hdr image
    | None => floatVar hdr naxis
    end in
  FieldWidth r = fieldSize "NAXIS1" "IMAGEW" /\
  FieldHeight r = fieldSize "NAXIS2" "IMAGEH" /\
  imageW (extractParams hdr) = centerSize "IMAGEW" "NAXIS1" /\
  imageH (extractParams hdr) = centerSize "IMAGEH" "NAXIS2".
Proof.
  intros Hr fieldSize centerSize.
  apply computeResult_inv in Hr.
  destruct Hr as (c & _ & _ & _ & _ & Hps & _ & HW & HH & _).
  rewrite HW, HH. unfold fieldSize, centerSize. rewrite Hps.
  unfold fieldUpdate, headerFloat, extractParams, imageDim, floatVar,
    headerFloat.
  cbn [imageW imageH].
  destruct (cPixelScale c >? zero)%f64;
    destruct (hdr !! "NAXIS1") as [n1|]; destruct (hdr !! "IMAGEW") as [i1|];
    destruct (hdr !! "NAXIS2") as [n2|]; destruct (hdr !! "IMAGEH") as [i2|];
    repeat match goal with
           | |- context [ParseFloat ?t] => destruct (ParseFloat t)
           end;
    repeat split.
Qed.

End TransformMore.

(** ** The reference pixel at the centre of the image *)

Lemma sub_self_number (c : float64) :
  is_number c = true -> (c - c)%f64 = S754_zero false.
Proof.
  destruct c as [s| | |s m e]; try discriminate; intros _.
  - destruct s; reflexivity.
  - unfold sub, SFsub. rewrite Z.sub_diag. reflexivity.
Qed.

Lemma mul_zero_number (a : float64) (s : bool) :
  is_number a = true -> exists s', (a * S754_zero s)%f64 = S754_zero s'.
Proof.
  destruct a as [sa| | |sa m e]; try discriminate; intros _;
    eexists; reflexivity.
Qed.

Lemma add_zeros (s1 s2 : bool) :
  exists s, (S754_zero s1 + S754_zero s2)%f64 = S754_zero s.
Proof. destruct s1, s2; eexists; reflexivity. Qed.

Lemma eqb_refl_number (x : float64) : (x == x)%f64 = negb (is_nan x).
Proof.
  destruct x as [s|s| |s m e]; try reflexivity.
  - destruct s; reflexivity.
  - unfold eqb, SFeqb, SFcompare.
    destruct s; rewrite Z.compare_refl, Pos.compare_refl; reflexivity.
Qed.

Lemma add_zero_eqb (x : float64) (s : bool) :
  ((x + S754_zero s)%f64 == x)%f64 = negb (is_nan x) /\
  (forall sx m e, x = S754_finite sx m e -> (x + S754_zero s)%f64 = x).
Proof.
  split.
  - destruct x as [sx|sx| |sx m e]; try reflexivity.
    + destruct sx, s; reflexivity.
    + destruct sx; reflexivity.
    + change ((S754_finite sx m e + S754_zero s)%f64) with (S754_finite sx m e).
      apply eqb_refl_number.
  - intros sx m e ->. reflexivity.
Qed.

Section ReferenceAtCenter.

Context {lib : StdLib}.

(** X10: on the primary path, when CRPIX1 and CRPIX2 are numbers (zeros or
    finite values, no infinity and no NaN) that are exactly IMAGEW / 2 and
    IMAGEH / 2, so that the reference pixel is the centre of the image, the
    four CD entries are numbers too, and math.Atan2 gives an angle as it
    does, a Result is computed to which the transform has added a zero
    only: RA == CRVAL1 holds unless CRVAL1 is NaN, which compares equal to
    nothing, and Dec == CRVAL2 holds unless CRVAL2 is NaN; when CRVAL1
    (CRVAL2) is a finite value other than zero, RA (Dec) is the very same
    float64. *)
Theorem reference_pixel_at_center
  (fuel : nat) (hdr : HeaderMap) :
  let p := extractParams hdr in
  usePrimary p = true ->
  crpix1 p = (imageW p / c2)%f64 -> crpix2 p = (imageH p / c2)%f64 ->
  is_number (crpix1 p) = true -> is_number (crpix2 p) = true ->
  is_number (cd11 p) = true -> is_number (cd12 p) = true ->
  is_number (cd21 p) = true -> is_number (cd22 p) = true ->
  angle_ok (Atan2 (cd12 p) (cd11 p)) = true ->
  exists r,
    computeResult (S fuel) hdr = Some r /\
    (RA r == crval1 p)%f64 = negb (is_nan (crval1 p)) /\
    (Dec r == crval2 p)%f64 = negb (is_nan (crval2 p)) /\
    (forall s m e, crval1 p = S754_finite s m e -> RA r = crval1 p) /\
    (forall s m e, crval2 p = S754_finite s m e -> Dec r = crval2 p).
Proof.
  intros p Hu Hx Hy Nx Ny N11 N12 N21 N22 Hok.
  destruct (primaryPath_returns fuel p Hok) as (rot & _ & Hpp & _).
  assert (Hc : centerOf (S fuel) hdr = primaryPath (S fuel) p).
  { unfold centerOf. fold p. rewrite Hu. reflexivity. }
  rewrite Hpp in Hc.
  destruct (computeResult_center _ _ _ Hc) as (r & Hr & HRA & HDec & _).
  cbn [cRA cDec] in HRA, HDec.
  rewrite <- Hx, <- Hy in HRA, HDec.
  rewrite (sub_self_number _ Nx), (sub_self_number _ Ny) in HRA, HDec.
  destruct (mul_zero_number (cd11 p) false N11) as [s11 E11].
  destruct (mul_zero_number (cd12 p) false N12) as [s12 E12].
  destruct (mul_zero_number (cd21 p) false N21) as [s21 E21].
  destruct (mul_zero_number (cd22 p) false N22) as [s22 E22].
  rewrite E11, E12 in HRA. rewrite E21, E22 in HDec.
  destruct (add_zeros s11 s12) as [sa Ea].
  destruct (add_zeros s21 s22) as [sb Eb].
  rewrite Ea in HRA. rewrite Eb in HDec.
  exists r. split; [exact Hr|]. rewrite HRA, HDec.
  destruct (add_zero_eqb (crval1 p) sa) as [A1 A2].
  destruct (add_zero_eqb (crval2 p) sb) as [B1 B2].
  repeat split; eauto.
Qed.

End ReferenceAtCenter.

(** ** abs *)

(** X11: abs is the absolute value of IEEE 754, as math.Abs gives it, on
    every float64 but the negative zero, which it hands back as it is
    since -0 < 0 is false; it never gives a value below zero, it gives NaN
    for NaN only, and applying it twice is applying it once. *)
Theorem abs_is_the_magnitude_but_for_negative_zero (x : float64) :
  abs x = match x with
          | S754_zero true => S754_zero true
          | _ => SFabs x
          end /\
  (abs x <? zero)%f64 = false /\
  (abs x == SFabs x)%f64 = negb (is_nan x) /\
  is_nan (abs x) = is_nan x /\
  abs (abs x) = abs x.
Proof.
  destruct x as [[]|[]| |[] m e]; repeat split.
  all: try apply (eqb_refl_number (S754_finite false m e)).
Qed.

(** ** A reference coordinate that is not a number *)

Section NotANumber.

Context {lib : StdLib}.

Lemma add_nan_l (x : float64) : (nan + x)%f64 = nan.
Proof. destruct x; reflexivity. Qed.

Lemma noFields_nan r :
  RA r = nan \/ Dec r = nan -> noFields r = false.
Proof.
  unfold noFields. intros [-> | ->]; [reflexivity|].
  cbn. rewrite andb_false_r. reflexivity.
Qed.

(** X12: the final check does not reject a NaN. When CRVAL1 or CRVAL2 holds a
    text that strconv.ParseFloat reads as NaN, the call returns a Result
    with Solved set whose RA, or Dec, is NaN, on either path. *)
Theorem nan_reference_is_returned
  (fuel : nat) (fs : filesystem) (path file : string) :
  fs path = inr file ->
  let hdr := readHeader file in
  let p := extractParams hdr in
  floatVar hdr "CRVAL1" = nan \/ floatVar hdr "CRVAL2" = nan ->
  (usePrimary p = true -> angle_ok (Atan2 (cd12 p) (cd11 p)) = true) ->
  exists r,
    ParseWCSFile (S fuel) fs path = Some (Some r, None) /\
    Solved r = true /\
    (floatVar hdr "CRVAL1" = nan -> RA r = nan) /\
    (floatVar hdr "CRVAL2" = nan -> Dec r = nan).
Proof.
  intros Hfs hdr p Hnan Hok.
  assert (Ho : os_Open fs path = inl file).
  { unfold os_Open. rewrite Hfs. reflexivity. }
  rewrite (ParseWCSFile_opened _ _ _ _ Ho). fold hdr.
  assert (Hr : exists r,
            computeResult (S fuel) hdr = Some r /\ Solved r = true /\
            (floatVar hdr "CRVAL1" = nan -> RA r = nan) /\
            (floatVar hdr "CRVAL2" = nan -> Dec r = nan)).
  { destruct (usePrimary p) eqn:Hu.
    - destruct (primaryPath_returns fuel p (Hok eq_refl))
        as (rot & _ & Hpp & _).
      assert (Hc : centerOf (S fuel) hdr = primaryPath (S fuel) p).
      { unfold centerOf. fold p. rewrite Hu. reflexivity. }
      rewrite Hpp in Hc.
      destruct (computeResult_center _ _ _ Hc) as (r & Hr & HRA & HDec & _).
      cbn [cRA cDec] in HRA, HDec.
      exists r. split; [exact Hr|].
      apply computeResult_inv in Hr. destruct Hr as (c & _ & Hs & _).
      split; [exact Hs|].
      split; intros E.
      + rewrite HRA. change (crval1 p) with (floatVar hdr "CRVAL1").
        rewrite E. apply add_nan_l.
      + rewrite HDec. change (crval2 p) with (floatVar hdr "CRVAL2").
        rewrite E. apply add_nan_l.
    - destruct (fallback_result (S fuel) hdr Hu)
        as (r & Hr & _ & HRA & HDec & _).
      exists r. split; [exact Hr|].
      apply computeResult_inv in Hr. destruct Hr as (c & _ & Hs & _).
      split; [exact Hs|]. split; intros E; congruence. }
  destruct Hr as (r & -> & Hs & H1 & H2).
  exists r. split; [|auto].
  unfold validate. rewrite noFields_nan; [reflexivity|].
  destruct Hnan as [E|E]; [left|right]; auto.
Qed.

End NotANumber.

(** * The caller: what Solve makes of the parser's answer *)

Section SolveProperties.

Context {lib : StdLib} {paths : PathLib}.

Variable stat : string -> option nat.

(** The answers of the parser. *)
Lemma ParseWCSFile_cases fuel fs path out :
  ParseWCSFile fuel fs path = Some out ->
  (exists errno,
     fs path = inl errno /\
     out = (None, Some (Errorf_w_suffix "failed to open WCS file"
                          (PathError "open" path errno)))) \/
  (exists file, fs path = inr file /\ out = (None, Some wcsParseFailed)) \/
  (exists file r,
     fs path = inr file /\ computeResult fuel (readHeader file) = Some r /\
     noFields r = false /\ out = (Some r, None)).
Proof.
  unfold ParseWCSFile, os_Open. destruct (fs path) as [errno|file].
  - intros [= <-]. left. exists errno. auto.
  - destruct (computeResult fuel (readHeader file)) as [r|] eqn:Hr;
      [|discriminate].
    intros [= <-]. destruct (validate_cases r) as [[Hn ->]|[Hn ->]].
    + right. left. exists file. auto.
    + right. right. exists file, r. auto.
Qed.

(** X13: the WCS file that does not exist. The error of the parser wraps the
    PathError of os.Open by fmt.Errorf; os.IsNotExist does not look through
    such a wrapper (errors.Is would), so the branch of line 190 is not
    taken and Solve returns the error instead of an unsolved Result. *)
Theorem missing_wcs_file_is_an_error
  (fuel : nat) (fs : filesystem) (tempDir imageFilename output : string)
  (solveTime : float64) :
  fs (wcsPathOf tempDir imageFilename) = inl ENOENT ->
  let err := Errorf_w_suffix "failed to open WCS file"
               (PathError "open" (wcsPathOf tempDir imageFilename) ENOENT) in
  finishSolve stat fuel fs tempDir imageFilename false None output solveTime
    = Some (None, Some err) /\
  os_IsNotExist err = false /\
  errors_Is_NotExist err = true /\
  os_IsNotExist (error_cause err) = true.
Proof.
  intros Hfs err. unfold finishSolve, ParseWCSFile, os_Open.
  rewrite Hfs. repeat split.
Qed.

(** X14: Solve returns once the command has run, given an angle as
    math.Atan2 returns it, and in one of five ways: the timeout error; the
    unsolved Result, only after a failed command whose output says so; the
    Docker error; the error of the parser; or a solved Result whose RA, Dec
    and PixelScale are not all zero. *)
Theorem solve_outcomes
  (fuel : nat) (fs : filesystem) (tempDir imageFilename : string)
  (timedOut : bool) (cmdErr : option string) (output : string)
  (solveTime : float64) :
  match fs (wcsPathOf tempDir imageFilename) with
  | inr file =>
      let p := extractParams (readHeader file) in
      usePrimary p = true -> angle_ok (Atan2 (cd12 p) (cd11 p)) = true
  | inl _ => True
  end ->
  exists res e,
    finishSolve stat (S fuel) fs tempDir imageFilename timedOut cmdErr output
      solveTime = Some (res, e) /\
    ((timedOut = true /\ res = None /\ e = Some (Sentinel ErrTimeout)) \/
     (timedOut = false /\ cmdErr <> None /\
      (Contains output "Did not solve" || Contains output "Failed to solve")
        = true /\
      res = Some unsolved /\ e = None) \/
     (timedOut = false /\
      (Contains output "Did not solve" || Contains output "Failed to solve")
        = false /\
      res = None /\
      exists msg text, cmdErr = Some msg /\
        e = Some (Errorf_w_prefix (Sentinel ErrDockerFailed) text)) \/
     (timedOut = false /\ cmdErr = None /\ res = None /\
      exists err,
        ParseWCSFile (S fuel) fs (wcsPathOf tempDir imageFilename)
          = Some (None, Some err) /\ e = Some err) \/
     (timedOut = false /\ cmdErr = None /\ e = None /\
      exists r,
        ParseWCSFile (S fuel) fs (wcsPathOf tempDir imageFilename)
          = Some (Some r, None) /\
        res = Some (setSolveInfo r solveTime
                      (collectOutputFiles stat tempDir imageFilename)) /\
        Solved r = true /\ noFields r = false)).
Proof.
  intros Hok. unfold finishSolve.
  destruct timedOut.
  { eexists _, _. split; [reflexivity|]. left. auto. }
  destruct cmdErr as [msg|].
  { destruct (Contains output "Did not solve"
              || Contains output "Failed to solve") eqn:Hc.
    - eexists _, _. split; [reflexivity|]. right. left.
      repeat split; auto; discriminate.
    - eexists _, _. split; [reflexivity|]. right. right. left.
      repeat split; eauto. }
  assert (Hret : exists out,
            ParseWCSFile (S fuel) fs (wcsPathOf tempDir imageFilename)
            = Some out).
  { unfold ParseWCSFile, os_Open.
    destruct (fs (wcsPathOf tempDir imageFilename)) as [errno|file];
      [eauto|].
    cbv zeta in Hok.
    destruct (usePrimary (extractParams (readHeader file))) eqn:Hu.
    - destruct (primaryPath_returns fuel _ (Hok eq_refl))
        as (rot & _ & Hpp & _).
      assert (Hc : centerOf (S fuel) (readHeader file)
                   = primaryPath (S fuel) (extractParams (readHeader file))).
      { unfold centerOf. rewrite Hu. reflexivity. }
      rewrite Hpp in Hc.
      destruct (computeResult_center _ _ _ Hc) as (r & -> & _). eauto.
    - destruct (fallback_result (S fuel) _ Hu) as (r & -> & _). eauto. }
  destruct Hret as [out Hp]. rewrite Hp.
  destruct (ParseWCSFile_cases _ _ _ _ Hp)
    as [(errno & _ & ->)|[(file & _ & ->)|(file & r & _ & Hr & Hn & ->)]].
  - eexists _, _. split; [reflexivity|]. do 3 right. left.
    repeat split; eauto.
  - eexists _, _. split; [reflexivity|]. do 3 right. left.
    repeat split; eauto.
  - eexists _, _. split; [reflexivity|]. do 4 right.
    repeat split; auto. exists r. repeat split; auto.
    apply computeResult_inv in Hr. destruct Hr as (c & _ & Hs & _). exact Hs.
Qed.

(** X15: the errors of Solve after the command has run. Each is the timeout
    error or wraps the Docker error, the parse error or the PathError of
    os.Open; none is ErrNoSolution or ErrInvalidInput: an image that does
    not solve is never reported by an error. *)
Theorem solve_error_kinds
  (fuel : nat) (fs : filesystem) (tempDir imageFilename : string)
  (timedOut : bool) (cmdErr : option string) (output : string)
  (solveTime : float64) (res : option Result) (err : error) :
  finishSolve stat fuel fs tempDir imageFilename timedOut cmdErr output
    solveTime = Some (res, Some err) ->
  res = None /\
  (err = Sentinel ErrTimeout \/
   errors_Is err ErrDockerFailed = true \/
   errors_Is err ErrWCSParseFailed = true \/
   exists errno,
     error_cause err
     = PathError "open" (wcsPathOf tempDir imageFilename) errno) /\
  errors_Is err ErrNoSolution = false /\
  errors_Is err ErrInvalidInput = false.
Proof.
  unfold finishSolve. destruct timedOut.
  { intros [= <- <-]. repeat split; auto. }
  destruct cmdErr as [msg|].
  { destruct (Contains output "Did not solve"
              || Contains output "Failed to solve"); [discriminate|].
    intros [= <- <-]. repeat split; auto. }
  destruct (ParseWCSFile fuel fs (wcsPathOf tempDir imageFilename))
    as [out|] eqn:Hp; [|discriminate].
  destruct (ParseWCSFile_cases _ _ _ _ Hp)
    as [(errno & _ & ->)|[(file & _ & ->)|(file & r & _ & _ & _ & ->)]];
    cbn [os_IsNotExist]; [| |discriminate].
  - intros [= <- <-]. repeat split; eauto 6.
  - intros [= <- <-]. repeat split; auto.
Qed.

End SolveProperties.

(** ** Base name and extension *)

Lemma HasSuffix_drop i s : HasSuffix s (drop i s) = true.
Proof.
  unfold HasSuffix. rewrite len_drop.
  destruct (Nat.le_gt_cases i (len s)) as [Hle|Hgt].
  - replace (len s - (len s - i))%nat with i by lia.
    rewrite String.eqb_refl, andb_true_r. apply Nat.leb_le. lia.
  - replace (len s - i)%nat with O by lia. rewrite Nat.sub_0_r, drop_all.
    assert (E : drop i s = EmptyString).
    { apply len_zero. rewrite len_drop. lia. }
    rewrite E. reflexivity.
Qed.

Lemma TrimSuffix_drop i s : TrimSuffix s (drop i s) +:+ drop i s = s.
Proof.
  unfold TrimSuffix. rewrite HasSuffix_drop, len_drop.
  destruct (Nat.le_gt_cases i (len s)) as [Hle|Hgt].
  - replace (len s - (len s - i))%nat with i by lia. apply take_drop.
  - replace (len s - i)%nat with O by lia. rewrite Nat.sub_0_r, take_all.
    assert (E : drop i s = EmptyString).
    { apply len_zero. rewrite len_drop. lia. }
    rewrite E. clear. induction s as [|c s IH]; sapp; [reflexivity|].
    rewrite IH. reflexivity.
Qed.

(** The loop of filepath.Ext when the bytes from [n] on hold no dot and no
    slash: it finds nothing, or the last dot of the path with no slash
    after it. *)
Lemma ExtFrom_spec path n :
  (n <= len path)%nat ->
  IndexByte (drop n path) "."%char = None ->
  IndexByte (drop n path) "/"%char = None ->
  ExtFrom path n = EmptyString \/
  (exists i, (i < n)%nat /\ ExtFrom path n = drop i path /\
     String.get i path = Some "."%char /\
     IndexByte (drop (S i) path) "."%char = None /\
     IndexByte (drop (S i) path) "/"%char = None).
Proof.
  induction n as [|n IH]; intros Hn Hd Hs; [left; auto|].
  cbn [ExtFrom].
  destruct (String.get n path) as [c|] eqn:Hg.
  2:{ exfalso. clear -Hg Hn. revert path Hg Hn.
      induction n as [|n IH]; intros [|d s]; simpl; try discriminate;
        try lia.
      intros Hg Hn. apply (IH s Hg). lia. }
  pose proof (get_drop _ _ _ Hg) as Hdrop.
  unfold byte_eqb.
  destruct (Ascii.eqb_spec c "/"%char) as [->|Hns].
  { left. reflexivity. }
  destruct (Ascii.eqb_spec c "."%char) as [->|Hnd].
  { right. exists n. auto. }
  assert (Hd' : IndexByte (drop n path) "."%char = None).
  { rewrite Hdrop. apply IndexByte_cons_None; assumption. }
  assert (Hs' : IndexByte (drop n path) "/"%char = None).
  { rewrite Hdrop. apply IndexByte_cons_None; assumption. }
  destruct (IH ltac:(lia) Hd' Hs') as [E|(i & Hi & E & Hgi & Hdi & Hsi)].
  - left. exact E.
  - right. exists i. auto.
Qed.

(** X16: the base name that Solve and collectOutputFiles use is the file name
    without its extension, and the extension is either empty or the last
    dot of the name with what follows it, free of dots and slashes: base
    name and extension put together give the file name back, and a name
    without a dot is its own base name. *)
Theorem base_name_and_extension (name : string) :
  TrimSuffix name (Ext name) +:+ Ext name = name /\
  (Ext name = EmptyString \/
   exists rest, Ext name = String "."%char rest /\
     IndexByte rest "."%char = None /\ IndexByte rest "/"%char = None) /\
  (IndexByte name "."%char = None ->
   Ext name = EmptyString /\ TrimSuffix name (Ext name) = name).
Proof.
  assert (Hspec := ExtFrom_spec name (len name) (Nat.le_refl _)).
  rewrite drop_all in Hspec. specialize (Hspec eq_refl eq_refl).
  fold (Ext name) in Hspec.
  split; [|split].
  - destruct Hspec as [E|(i & _ & E & _)].
    + rewrite E. pose proof (TrimSuffix_drop (len name) name) as H.
      rewrite drop_all in H. exact H.
    + rewrite E. apply TrimSuffix_drop.
  - destruct Hspec as [E|(i & _ & E & Hg & Hd & Hs)]; [left; exact E|].
    right. exists (drop (S i) name). rewrite E. split; [|auto].
    apply get_drop, Hg.
  - intros Hnone.
    assert (E : Ext name = EmptyString).
    { destruct Hspec as [E|(i & _ & E & Hg & _)]; [exact E|].
      exfalso. rewrite <- (take_drop i name) in Hnone.
      apply IndexByte_None_app in Hnone. destruct Hnone as [_ Hnone].
      rewrite (get_drop _ _ _ Hg) in Hnone. cbn [IndexByte] in Hnone.
      unfold byte_eqb in Hnone. rewrite Ascii.eqb_refl in Hnone.
      discriminate. }
    split; [exact E|]. rewrite E. unfold TrimSuffix.
    pose proof (HasSuffix_drop (len name) name) as H.
    rewrite drop_all in H. rewrite H.
    simpl. rewrite Nat.sub_0_r. apply take_all.
Qed.

(** ** The output files *)

Section OutputFiles.

Context {paths : PathLib}.

Variable stat : string -> option nat.

Lemma collect_fold (f : string -> string) (exts : list string)
      (acc : list string) :
  fold_left
    (fun files ext =>
       match stat (f ext) with
       | None => files ++ [f ext]
       | Some _ => files
       end) exts acc
  = acc ++ List.filter (fun p => bool_decide (stat p = None)) (map f exts).
Proof.
  revert acc. induction exts as [|e exts IH]; intros acc; cbn [fold_left map].
  - rewrite app_nil_r. reflexivity.
  - rewrite IH. cbn [List.filter].
    destruct (stat (f e)) eqn:E.
    + rewrite bool_decide_eq_false_2 by discriminate. reflexivity.
    + rewrite bool_decide_eq_true_2 by reflexivity.
      rewrite <- app_assoc. reflexivity.
Qed.

(** X17: collectOutputFiles returns, in the order of the seven extensions,
    exactly those of the paths tempDir/baseName+extension on which os.Stat
    succeeds: every path returned exists, there are at most seven of them,
    and when the WCS file that Solve has parsed exists it comes first. *)
Theorem output_files_are_the_existing_candidates
  (tempDir imageFilename : string) :
  let baseName := TrimSuffix imageFilename (Ext imageFilename) in
  let candidates := map (fun ext => Join tempDir (baseName +:+ ext)) extensions in
  let files := collectOutputFiles stat tempDir imageFilename in
  files = List.filter (fun p => bool_decide (stat p = None)) candidates /\
  (forall p, In p files <-> In p candidates /\ stat p = None) /\
  (length files <= 7)%nat /\
  ((forall p, In p candidates -> stat p <> None) -> files = []) /\
  (stat (wcsPathOf tempDir imageFilename) = None ->
   exists rest, files = wcsPathOf tempDir imageFilename :: rest).
Proof.
  intros baseName candidates files.
  assert (Hf : files
               = List.filter (fun p => bool_decide (stat p = None)) candidates).
  { unfold files, collectOutputFiles. fold baseName.
    rewrite (collect_fold (fun ext => Join tempDir (baseName +:+ ext))).
    reflexivity. }
  split; [exact Hf|]. split; [|split; [|split]].
  - intros p. rewrite Hf, filter_In, bool_decide_eq_true. reflexivity.
  - rewrite Hf.
    etransitivity; [apply List.filter_length_le|]. unfold candidates.
    rewrite length_map. reflexivity.
  - intros Hnone. rewrite Hf. clear Hf. clearbody candidates.
    induction candidates as [|c cs IH]; [reflexivity|].
    cbn [List.filter].
    rewrite bool_decide_eq_false_2 by (apply Hnone; left; reflexivity).
    apply IH. intros p Hp. apply Hnone. right. exact Hp.
  - intros Hw. rewrite Hf. unfold candidates, extensions.
    cbn [map List.filter]. fold (wcsPathOf tempDir imageFilename).
    rewrite bool_decide_eq_true_2 by exact Hw. eexists. reflexivity.
Qed.

End OutputFiles.

(** ** The command line *)

Section CommandProperties.

Context {paths : PathLib} {fmt : FmtLib}.

(** X18: the command line that buildSolveArgs makes always starts with
    solve-field and ends with --dir, the working directory and the path of
    the image, whatever the options; in between there are at most nineteen
    arguments. In run mode directory and image are /data and /data/name,
    so the host's temporary directory does not occur; the image path is
    also the last argument of the docker command, in both modes. *)
Theorem solve_args_shape
  (c : Options.ClientConfig) (imageFilename tempDir : string)
  (opts : Options.SolveOptions) :
  let workDir := if Options.UseDockerExec c then tempDir else "/data" in
  let imagePath :=
    if Options.UseDockerExec c then Join tempDir imageFilename
    else "/data/" +:+ imageFilename in
  let args := buildSolveArgs c imageFilename tempDir opts in
  (exists flags,
     args = "solve-field" :: flags ++ ["--dir"; workDir; imagePath] /\
     (length flags <= 19)%nat) /\
  (forall absIndexPath,
     last (dockerArgs c tempDir absIndexPath args) = Some imagePath).
Proof.
  intros workDir imagePath args.
  unfold args, workDir, imagePath, buildSolveArgs, dockerArgs. cbv zeta.
  destruct (Options.UseDockerExec c);
    destruct ((Options.ScaleLow opts >? zero)%f64
              && (Options.ScaleHigh opts >? zero)%f64);
    destruct (Options.DownsampleFactor opts >? 0);
    destruct ((Options.DepthLow opts >? 0) && (Options.DepthHigh opts >? 0));
    destruct (Options.NoPlots opts);
    destruct ((Options.RA opts != zero)%f64 || (Options.Dec opts != zero)%f64);
    destruct ((Options.Radius opts >? zero)%f64);
    destruct (Options.OverwriteExisting opts);
    destruct (Options.Verbose opts);
    (split;
     [ match goal with
       | |- exists flags, ?a = _ /\ _ =>
           exists (tl (firstn (length a - 3) a))
       end;
       split; [reflexivity | cbn; lia]
     | intros absIndexPath; reflexivity ]).
Qed.

End CommandProperties.

(** ** The client *)

Section ClientProperties.

Variable DefaultDockerImage : string.
Variable stat : string -> option nat.
Variable osTempDir : string.

(** X19: NewClient gives a client exactly when IndexPath is not empty and
    os.Stat does not say that it does not exist; any other failure of
    os.Stat, a permission error for one, is let through. The client has the
    IndexPath given, a Timeout that is not 0, and the fields given wherever
    they are not empty; every error wraps ErrInvalidInput. Without a
    configuration the call never gives a client, since the default
    configuration has no IndexPath. *)
Theorem NewClient_checks_existence_only (config : Options.ClientConfig) :
  let out := NewClient DefaultDockerImage stat osTempDir (Some config) in
  NewClient DefaultDockerImage stat osTempDir None
    = (None, Some (Errorf_w_prefix (Sentinel ErrInvalidInput)
                     "IndexPath is required")) /\
  ((exists c, out = (Some c, None)) <->
   Options.IndexPath config <> "" /\
   stat (Options.IndexPath config) <> Some ENOENT) /\
  (forall c, fst out = Some c ->
     snd out = None /\
     Options.IndexPath c = Options.IndexPath config /\
     Options.Timeout c <> 0 /\
     (Options.Timeout config <> 0 ->
      Options.Timeout c = Options.Timeout config) /\
     (Options.DockerImage config <> "" ->
      Options.DockerImage c = Options.DockerImage config) /\
     (Options.DockerImage config = "" ->
      Options.DockerImage c = DefaultDockerImage) /\
     (Options.TempDir config <> "" ->
      Options.TempDir c = Options.TempDir config) /\
     (Options.TempDir config = "" -> Options.TempDir c = osTempDir) /\
     Options.UseDockerExec c = Options.UseDockerExec config /\
     Options.ContainerName c = Options.ContainerName config) /\
  (forall err, snd out = Some err ->
     fst out = None /\ errors_Is err ErrInvalidInput = true).
Proof.
  intros out. split; [reflexivity|]. unfold out, NewClient, statNotExist.
  destruct (String.eqb_spec (Options.IndexPath config) "") as [He|Hne].
  { split; [|split].
    - split; [intros [c [=]]|intros [H _]; contradiction].
    - intros c [=].
    - intros err [= <-]. split; reflexivity. }
  destruct (stat (Options.IndexPath config)) as [errno|] eqn:Hs.
  - cbn [os_IsNotExist]. destruct (Nat.eqb_spec errno ENOENT) as [->|Hno].
    + split; [|split].
      * split; [intros [c [=]]|intros [_ H]; contradiction].
      * intros c [=].
      * intros err [= <-]. split; reflexivity.
    + split; [|split].
      * split; [intros _|intros _; eexists; reflexivity].
        split; [exact Hne|]. intros [= E]. contradiction.
      * intros c [= <-]. cbn.
        repeat split.
        -- destruct (Z.eqb_spec (Options.Timeout config) 0); [discriminate|assumption].
        -- intros H. destruct (Z.eqb_spec (Options.Timeout config) 0); [contradiction|reflexivity].
        -- intros H. destruct (String.eqb_spec (Options.DockerImage config) ""); [contradiction|reflexivity].
        -- intros ->. reflexivity.
        -- intros H. destruct (String.eqb_spec (Options.TempDir config) ""); [contradiction|reflexivity].
        -- intros ->. reflexivity.
      * intros err [=].
  - split; [|split].
    * split; [intros _|intros _; eexists; reflexivity].
      split; [exact Hne|]. discriminate.
    * intros c [= <-]. cbn.
      repeat split.
      -- destruct (Z.eqb_spec (Options.Timeout config) 0); [discriminate|assumption].
      -- intros H. destruct (Z.eqb_spec (Options.Timeout config) 0); [contradiction|reflexivity].
      -- intros H. destruct (String.eqb_spec (Options.DockerImage config) ""); [contradiction|reflexivity].
      -- intros ->. reflexivity.
      -- intros H. destruct (String.eqb_spec (Options.TempDir config) ""); [contradiction|reflexivity].
      -- intros ->. reflexivity.
    * intros err [=].
Qed.

End ClientProperties.

(** * Camera detection *)

Import Fov.

Lemma HasPrefix_nil s : HasPrefix s EmptyString = true.
Proof. destruct s; reflexivity. Qed.

Lemma HasPrefix_iff s p : HasPrefix s p = true <-> exists post, s = p +:+ post.
Proof.
  revert s. induction p as [|b p IH]; intros s.
  - split; [intros _; exists s; reflexivity|destruct s; reflexivity].
  - destruct s as [|a s]; cbn [HasPrefix].
    + split; [discriminate|]. intros [post H]. rewrite app_cons in H.
      discriminate.
    + unfold byte_eqb. destruct (Ascii.eqb_spec a b) as [->|Hne]; cbn [andb].
      * rewrite IH. split; intros [post H]; exists post.
        -- rewrite app_cons. f_equal. exact H.
        -- rewrite app_cons in H. injection H as H. exact H.
      * split; [discriminate|]. intros [post H]. rewrite app_cons in H.
        injection H as H _. contradiction.
Qed.

Lemma get_None_drop i s : String.get i s = None -> drop i s = EmptyString.
Proof.
  revert s. induction i as [|i IH]; intros [|d s]; simpl; try discriminate;
    try reflexivity.
  apply IH.
Qed.

Lemma get_Some_or_None i s :
  (exists c, String.get i s = Some c /\ (i < len s)%nat) \/
  (String.get i s = None /\ (len s <= i)%nat).
Proof.
  revert s. induction i as [|i IH]; intros [|d s]; simpl.
  - right. auto.
  - left. exists d. split; [reflexivity|lia].
  - right. split; [reflexivity|lia].
  - destruct (IH s) as [(c & H & Hl)|[H Hl]].
    + left. exists c. split; [exact H|lia].
    + right. split; [exact H|lia].
Qed.

(** The inner loop compares [substr] from [j] on with [s] from [i + j] on. *)
Lemma matchLoop_HasPrefix s substr i j n :
  (j + n = len substr)%nat ->
  matchLoop s substr i j n = HasPrefix (drop (i + j) s) (drop j substr).
Proof.
  revert j. induction n as [|n IH]; intros j Hj; cbn [matchLoop].
  - assert (E : drop j substr = EmptyString).
    { apply len_zero. rewrite len_drop. lia. }
    rewrite E. symmetry. apply HasPrefix_nil.
  - destruct (get_Some_or_None j substr) as [(b & Hb & _)|[_ Hl]]; [|lia].
    rewrite Hb, (get_drop _ _ _ Hb).
    destruct (get_Some_or_None (i + j) s) as [(a & Ha & _)|[Ha _]].
    + rewrite Ha, (get_drop _ _ _ Ha). cbn [HasPrefix].
      destruct (byte_eqb a b); [|reflexivity]. simpl andb.
      rewrite IH by lia. rewrite Nat.add_succ_r. reflexivity.
    + rewrite Ha, (get_None_drop _ _ Ha). reflexivity.
Qed.

Lemma searchLoop_iff s substr i n :
  searchLoop s substr i n = true <->
  exists k, (k < n)%nat /\ HasPrefix (drop (i + k) s) substr = true.
Proof.
  revert i. induction n as [|n IH]; intros i; cbn [searchLoop].
  - split; [discriminate|]. intros (k & Hk & _). lia.
  - rewrite (matchLoop_HasPrefix s substr i 0 (len substr)) by reflexivity.
    cbn [drop]. rewrite Nat.add_0_r.
    destruct (HasPrefix (drop i s) substr) eqn:E.
    + split; [intros _|reflexivity]. exists O. rewrite Nat.add_0_r.
      split; [lia|exact E].
    + rewrite IH. split.
      * intros (k & Hk & H). exists (S k). rewrite Nat.add_succ_r.
        split; [lia|exact H].
      * intros (k & Hk & H). destruct k as [|k].
        -- rewrite Nat.add_0_r, E in H. discriminate.
        -- exists k. rewrite Nat.add_succ_r in H. split; [lia|exact H].
Qed.

Lemma contains_spec (s substr : string) :
  contains s substr = true <-> exists pre post, s = pre +:+ substr +:+ post.
Proof.
  unfold contains. destruct (Nat.ltb_spec (len s) (len substr)) as [Hlt|Hle].
  - split; [discriminate|]. intros (pre & post & ->).
    rewrite !len_app in Hlt. lia.
  - rewrite searchLoop_iff. cbn [Nat.add]. split.
    + intros (k & _ & H). apply HasPrefix_iff in H. destruct H as [post H].
      exists (take k s), post. rewrite <- H. symmetry. apply take_drop.
    + intros (pre & post & ->). exists (len pre). split.
      * rewrite !len_app. lia.
      * apply HasPrefix_iff. exists post.
        clear. induction pre as [|c pre IH]; [reflexivity|].
        rewrite app_cons. exact IH.
Qed.

Lemma contains_trans (s t u : string) :
  contains s t = true -> contains t u = true -> contains s u = true.
Proof.
  rewrite !contains_spec. intros (p1 & q1 & ->) (p2 & q2 & ->).
  exists (p1 +:+ p2), (q2 +:+ q1).
  rewrite !app_assoc_s. reflexivity.
Qed.

(** X20: contains(s, substr) is true exactly when substr occurs in s, that
    is when s is some text, then substr, then some text; so the empty
    string occurs in every string, every string in itself, and a string
    longer than s never occurs in it. *)
Theorem contains_iff_occurs (s substr : string) :
  (contains s substr = true <->
   exists pre post, s = pre +:+ substr +:+ post) /\
  contains s EmptyString = true /\
  contains s s = true /\
  ((len s < len substr)%nat -> contains s substr = false).
Proof.
  split; [apply contains_spec|]. split; [|split].
  - apply contains_spec. exists EmptyString, s. reflexivity.
  - apply contains_spec. exists EmptyString, EmptyString.
    rewrite app_nil_l. clear. induction s as [|c s IH]; [reflexivity|].
    rewrite app_cons, <- IH. reflexivity.
  - intros Hlt. unfold contains.
    destruct (Nat.ltb_spec (len s) (len substr)); [reflexivity|lia].
Qed.

Lemma upperByte_not_lower c :
  let n := byte_of (upperByte c) in ((97 <=? n) && (n <=? 122))%N = false.
Proof.
  unfold upperByte, byte_of.
  destruct ((97 <=? N_of_ascii c) && (N_of_ascii c <=? 122))%N eqn:E.
  - apply andb_true_iff in E. destruct E as [E1 E2].
    apply N.leb_le in E1, E2. cbv zeta.
    rewrite N_ascii_embedding.
    + rewrite N.mod_small by lia.
      apply andb_false_iff. left. apply N.leb_gt. lia.
    + apply N.mod_lt. discriminate.
  - exact E.
Qed.

Lemma upperByte_idem c : upperByte (upperByte c) = upperByte c.
Proof.
  unfold upperByte at 1. fold (byte_of (upperByte c)).
  rewrite upperByte_not_lower. reflexivity.
Qed.

Lemma toUpper_idem_aux s : toUpper (toUpper s) = toUpper s.
Proof.
  induction s as [|c s IH]; simpl; [reflexivity|].
  rewrite upperByte_idem, IH. reflexivity.
Qed.

(** X21: toUpper keeps the length and every byte that is not a letter a-z of
    ASCII, the bytes of other alphabets included; no such letter is left
    in its result, a letter A-Z is unchanged, and applying it twice is
    applying it once. *)
Theorem toUpper_is_ascii_upper_case (s : string) :
  len (toUpper s) = len s /\
  toUpper (toUpper s) = toUpper s /\
  (forall i c, String.get i (toUpper s) = Some c ->
     ((97 <=? byte_of c) && (byte_of c <=? 122))%N = false) /\
  (forall i c, String.get i s = Some c ->
     String.get i (toUpper s)
     = Some (if ((97 <=? byte_of c) && (byte_of c <=? 122))%N
             then ascii_of_N (byte_of c - 32) else c)).
Proof.
  split; [|split; [|split]].
  - induction s as [|c s IH]; simpl; [reflexivity|]. rewrite IH. reflexivity.
  - apply toUpper_idem_aux.
  - induction s as [|d s IH]; intros i c; [destruct i; discriminate|].
    destruct i as [|i]; cbn [toUpper String.get].
    + intros [= <-]. apply upperByte_not_lower.
    + apply IH.
  - induction s as [|d s IH]; intros i c; [destruct i; discriminate|].
    destruct i as [|i]; cbn [toUpper String.get].
    + intros [= <-]. f_equal. unfold upperByte.
      destruct ((97 <=? byte_of d) && (byte_of d <=? 122))%N eqn:E;
        [|reflexivity].
      apply andb_true_iff in E. destruct E as [E1 E2].
      apply N.leb_le in E1, E2. f_equal.
      rewrite N.mod_small by lia. lia.
    + apply IH.
Qed.

Lemma firstMatch_sensor modelUpper mappings sensor (s0 : SensorSize) :
  (forall mapping, In mapping mappings -> Sensor mapping = s0) ->
  firstMatch modelUpper mappings = Some sensor -> sensor = s0.
Proof.
  induction mappings as [|mapping rest IH]; intros Hall; cbn [firstMatch];
    [discriminate|].
  destruct (contains modelUpper (Pattern mapping)).
  - intros [= <-]. apply Hall. left. reflexivity.
  - apply IH. intros mp Hmp. apply Hall. right. exact Hmp.
Qed.

Lemma olympus_all_MicroFourThirds mapping :
  In mapping olympusMappings -> Sensor mapping = MicroFourThirds.
Proof.
  unfold olympusMappings. cbn [In].
  intros H. repeat (destruct H as [<-|H]; [reflexivity|]). contradiction.
Qed.

Lemma panasonic_all_MicroFourThirds mapping :
  In mapping panasonicMappings -> Sensor mapping = MicroFourThirds.
Proof.
  unfold panasonicMappings. cbn [In].
  intros H. repeat (destruct H as [<-|H]; [reflexivity|]). contradiction.
Qed.

Lemma firstMatch_In modelUpper mappings sensor :
  firstMatch modelUpper mappings = Some sensor ->
  exists mapping, In mapping mappings /\ Sensor mapping = sensor.
Proof.
  induction mappings as [|mapping rest IH]; cbn [firstMatch];
    [discriminate|].
  destruct (contains modelUpper (Pattern mapping)).
  - intros [= <-]. exists mapping. split; [left|]; reflexivity.
  - intros H. destruct (IH H) as (mp & Hin & Hs).
    exists mp. split; [right; exact Hin|exact Hs].
Qed.

Lemma table_sensors mapping :
  In mapping (canonMappings ++ nikonMappings ++ sonyMappings
              ++ olympusMappings ++ panasonicMappings) ->
  In (Sensor mapping) [FullFrame; APSCCanon; APSCNikon; MicroFourThirds].
Proof.
  unfold canonMappings, nikonMappings, sonyMappings, olympusMappings,
    panasonicMappings. cbn [app In].
  intros H.
  repeat (destruct H as [<-|H]; [cbn [Sensor In]; tauto|]). contradiction.
Qed.

(** X22: whatever make and model it is given, detectSensor returns one of
    the four sensors Full Frame, APS-C Canon, APS-C Nikon/Sony and Micro
    Four Thirds, so that width and height of the sensor are above 0, and
    the detection source is exif or default; it is default only together
    with the APS-C Nikon/Sony sensor. *)
Theorem detectSensor_gives_a_known_sensor (cameraMake model : string) :
  let sensor := fst (detectSensor cameraMake model) in
  let source := snd (detectSensor cameraMake model) in
  In sensor [FullFrame; APSCCanon; APSCNikon; MicroFourThirds] /\
  (Width sensor >? zero)%f64 = true /\ (Height sensor >? zero)%f64 = true /\
  (source = detectionSourceEXIF \/
   source = detectionSourceDefault /\ sensor = APSCNikon).
Proof.
  intros sensor source.
  assert (Hknown : In sensor [FullFrame; APSCCanon; APSCNikon; MicroFourThirds]
                   /\ (source = detectionSourceEXIF \/
                       source = detectionSourceDefault /\ sensor = APSCNikon)).
  { unfold sensor, source, detectSensor.
    repeat match goal with
           | |- context [if ?b then _ else _] => destruct b
           | |- context [match firstMatch ?m ?t with _ => _ end] =>
               destruct (firstMatch m t) eqn:?
           end;
      cbn [fst snd];
      (split;
       [ first
           [ solve [cbn [In]; tauto]
           | match goal with
             | E : firstMatch _ _ = Some ?s |- In ?s _ =>
                 let mp := fresh "mp" in
                 let Hin := fresh "Hin" in
                 apply firstMatch_In in E; destruct E as (mp & Hin & <-);
                 apply table_sensors; rewrite !in_app_iff; tauto
             end ]
       | first [left; reflexivity | right; split; reflexivity] ]). }
  destruct Hknown as [Hin Hsrc]. split; [exact Hin|].
  split; [|split; [|exact Hsrc]];
    cbn [In] in Hin;
    destruct Hin as [<-|[<-|[<-|[<-|[]]]]]; vm_compute; reflexivity.
Qed.

(** X23: for a make of Olympus, OM System or Panasonic that is not also one
    of Canon, Nikon or Sony, the model plays no part: the sensor is Micro
    Four Thirds and the detection source is exif, whatever the tables of
    models say. *)
Theorem olympus_and_panasonic_are_micro_four_thirds
  (cameraMake model : string) :
  contains (toUpper cameraMake) "CANON" = false ->
  contains (toUpper cameraMake) "NIKON" = false ->
  contains (toUpper cameraMake) "SONY" = false ->
  contains (toUpper cameraMake) "OLYMPUS"
  || contains (toUpper cameraMake) "OM SYSTEM"
  || contains (toUpper cameraMake) "PANASONIC" = true ->
  detectSensor cameraMake model = (MicroFourThirds, detectionSourceEXIF).
Proof.
  intros Hc Hn Hs Hm. unfold detectSensor. rewrite Hc, Hn, Hs.
  destruct (contains (toUpper cameraMake) "OLYMPUS"
            || contains (toUpper cameraMake) "OM SYSTEM") eqn:Ho.
  - destruct (firstMatch (toUpper model) olympusMappings) as [sensor|] eqn:E;
      [|reflexivity].
    rewrite (firstMatch_sensor _ _ _ MicroFourThirds
               olympus_all_MicroFourThirds E).
    reflexivity.
  - cbn [orb] in Hm. rewrite Hm.
    destruct (firstMatch (toUpper model) panasonicMappings) as [sensor|] eqn:E;
      [|reflexivity].
    rewrite (firstMatch_sensor _ _ _ MicroFourThirds
               panasonic_all_MicroFourThirds E).
    reflexivity.
Qed.

(** X24: the entry of the Canon table for the EOS R10, an APS-C camera, is
    never reached: a model with EOS R10 in it has EOS R1 in it, which comes
    earlier in the table, so that every Canon EOS R10 is taken for a full
    frame camera. *)
Theorem canon_EOS_R10_is_taken_for_full_frame (cameraMake model : string) :
  contains (toUpper cameraMake) "CANON" = true ->
  contains (toUpper model) "EOS R10" = true ->
  In (mkCameraMapping "EOS R10" APSCCanon) canonMappings /\
  detectSensor cameraMake model = (FullFrame, detectionSourceEXIF).
Proof.
  intros Hc Hm. split.
  { unfold canonMappings. cbn [In]. do 26 right. left. reflexivity. }
  assert (H1 : contains (toUpper model) "EOS R1" = true).
  { apply (contains_trans _ _ _ Hm). vm_compute. reflexivity. }
  unfold detectSensor. rewrite Hc. unfold canonMappings.
  cbn [firstMatch Pattern Sensor].
  destruct (contains (toUpper model) "EOS C50"); [reflexivity|].
  rewrite H1. reflexivity.
Qed.

(** * Index files *)

(** ** The order of float64 values *)

Ltac order_case :=
  split; intros ?;
  first [ discriminate
        | reflexivity
        | congruence
        | unfold rank_lt in *; cbn in *; lia ].

Lemma compare_rank (x y : float64) :
  is_nan x = false -> is_nan y = false ->
  SFcompare x y = Some Lt <-> rank_lt (rank x) (rank y).
Proof.
  intros Hx Hy.
  destruct x as [sx|sx| |sx mx ex]; try discriminate;
    destruct y as [sy|sy| |sy my ey]; try discriminate;
    cbn [SFcompare rank].
  - order_case.
  - destruct sy; order_case.
  - destruct sy; order_case.
  - destruct sx; order_case.
  - destruct sx, sy; order_case.
  - destruct sx, sy; order_case.
  - destruct sx; order_case.
  - destruct sx, sy; order_case.
  - destruct sx, sy; try order_case.
    + destruct (Z.compare_spec ex ey) as [->|H|H]; try order_case.
      fold (Pos.compare mx my). rewrite <- Pos.compare_antisym.
      assert (E : Some (Pos.compare my mx) = Some Lt <-> (my < mx)%positive).
      { rewrite <- Pos.compare_lt_iff. split; congruence. }
      rewrite E. unfold rank_lt. lia.
    + destruct (Z.compare_spec ex ey) as [->|H|H]; try order_case.
      fold (Pos.compare mx my).
      assert (E : Some (Pos.compare mx my) = Some Lt <-> (mx < my)%positive).
      { rewrite <- Pos.compare_lt_iff. split; congruence. }
      rewrite E. unfold rank_lt. lia.
Qed.

Lemma compare_rank_eq (x y : float64) :
  is_nan x = false -> is_nan y = false ->
  SFcompare x y = Some Eq <-> rank x = rank y.
Proof.
  intros Hx Hy.
  destruct x as [sx|sx| |sx mx ex]; try discriminate;
    destruct y as [sy|sy| |sy my ey]; try discriminate;
    cbn [SFcompare rank].
  - tauto.
  - destruct sy; split; discriminate.
  - destruct sy; split; discriminate.
  - destruct sx; split; discriminate.
  - destruct sx, sy; split; try discriminate; reflexivity.
  - destruct sx, sy; split; discriminate.
  - destruct sx; split; discriminate.
  - destruct sx, sy; split; discriminate.
  - destruct sx, sy; try (split; discriminate).
    + destruct (Z.compare_spec ex ey) as [->|H|H].
      * fold (Pos.compare mx my). rewrite <- Pos.compare_antisym. split.
        -- intros [= E]. apply Pos.compare_eq in E. subst. reflexivity.
        -- intros [= E]. subst. rewrite Pos.compare_refl. reflexivity.
      * split; [discriminate|]. intros [= E]. lia.
      * split; [discriminate|]. intros [= E]. lia.
    + destruct (Z.compare_spec ex ey) as [->|H|H].
      * fold (Pos.compare mx my). split.
        -- intros [= E]. apply Pos.compare_eq in E. subst. reflexivity.
        -- intros [= E]. subst. rewrite Pos.compare_refl. reflexivity.
      * split; [discriminate|]. intros [= E]. lia.
      * split; [discriminate|]. intros [= E]. lia.
Qed.

Lemma compare_not_nan (x y : float64) c :
  SFcompare x y = Some c -> is_nan x = false /\ is_nan y = false.
Proof. destruct x, y; try discriminate; auto. Qed.

Lemma ltb_rank (x y : float64) :
  (x <? y)%f64 = true <->
  is_nan x = false /\ is_nan y = false /\ rank_lt (rank x) (rank y).
Proof.
  unfold ltb, SFltb. split.
  - destruct (SFcompare x y) as [[]|] eqn:E; try discriminate. intros _.
    destruct (compare_not_nan _ _ _ E) as [Hx Hy].
    repeat split; try assumption. apply compare_rank; assumption.
  - intros (Hx & Hy & H). apply (compare_rank _ _ Hx Hy) in H.
    rewrite H. reflexivity.
Qed.

Lemma leb_rank (x y : float64) :
  (x <=? y)%f64 = true <->
  is_nan x = false /\ is_nan y = false /\ rank_le (rank x) (rank y).
Proof.
  unfold leb, SFleb, rank_le. split.
  - destruct (SFcompare x y) as [[]|] eqn:E; try discriminate; intros _;
      destruct (compare_not_nan _ _ _ E) as [Hx Hy];
      repeat split; try assumption.
    + right. apply compare_rank_eq; assumption.
    + left. apply compare_rank; assumption.
  - intros (Hx & Hy & [H|H]).
    + apply (compare_rank _ _ Hx Hy) in H. rewrite H. reflexivity.
    + apply (compare_rank_eq _ _ Hx Hy) in H. rewrite H. reflexivity.
Qed.

Lemma rank_lt_trans a b c : rank_lt a b -> rank_lt b c -> rank_lt a c.
Proof.
  destruct a as [[a1 a2] a3], b as [[b1 b2] b3], c as [[c1 c2] c3].
  unfold rank_lt. lia.
Qed.

Lemma rank_total a b : rank_lt a b \/ a = b \/ rank_lt b a.
Proof.
  destruct a as [[a1 a2] a3], b as [[b1 b2] b3]. unfold rank_lt.
  destruct (Z.lt_total a1 b1) as [H|[H|H]]; [lia| |lia].
  destruct (Z.lt_total a2 b2) as [H2|[H2|H2]]; [lia| |lia].
  destruct (Z.lt_total a3 b3) as [H3|[H3|H3]]; [lia| |lia].
  right. left. congruence.
Qed.

Lemma rank_lt_irrefl a : ~ rank_lt a a.
Proof. destruct a as [[a1 a2] a3]. unfold rank_lt. lia. Qed.

(** [<=] is transitive, and [x <= y] fails only when [y < x] or one of
    them is NaN. *)
Lemma leb_trans (x y z : float64) :
  (x <=? y)%f64 = true -> (y <=? z)%f64 = true -> (x <=? z)%f64 = true.
Proof.
  rewrite !leb_rank. unfold rank_le.
  intros (Hx & Hy & H1) (_ & Hz & H2). repeat split; try assumption.
  destruct H1 as [H1|H1], H2 as [H2|H2].
  - left. eapply rank_lt_trans; eassumption.
  - left. rewrite <- H2. exact H1.
  - left. rewrite H1. exact H2.
  - right. congruence.
Qed.

Lemma leb_ltb_trans (x y z : float64) :
  (x <=? y)%f64 = true -> (y <? z)%f64 = true -> (x <=? z)%f64 = true.
Proof.
  rewrite !leb_rank, ltb_rank. unfold rank_le.
  intros (Hx & Hy & H1) (_ & Hz & H2). repeat split; try assumption.
  left. destruct H1 as [H1|H1].
  - eapply rank_lt_trans; eassumption.
  - rewrite H1. exact H2.
Qed.

Lemma leb_false_ltb (x y : float64) :
  is_nan x = false -> is_nan y = false ->
  (x <=? y)%f64 = false -> (y <? x)%f64 = true.
Proof.
  intros Hx Hy H. apply ltb_rank. repeat split; try assumption.
  destruct (rank_total (rank x) (rank y)) as [H1|[H1|H1]]; [| |exact H1].
  - exfalso. assert (E : (x <=? y)%f64 = true).
    { apply leb_rank. repeat split; try assumption. left. exact H1. }
    congruence.
  - exfalso. assert (E : (x <=? y)%f64 = true).
    { apply leb_rank. repeat split; try assumption. right. exact H1. }
    congruence.
Qed.

Lemma leb_not_nan (x y : float64) :
  (x <=? y)%f64 = true -> is_nan x = false /\ is_nan y = false.
Proof. rewrite leb_rank. tauto. Qed.

(** ** The choice of index files *)

Import Indexes.

Lemma select_fold (P : IndexFile -> bool) (l acc : list IndexFile) :
  fold_left (fun recommended idx =>
               if P idx then recommended ++ [idx] else recommended) l acc
  = acc ++ List.filter P l.
Proof.
  revert acc. induction l as [|a l IH]; intros acc; cbn [fold_left List.filter].
  - rewrite app_nil_r. reflexivity.
  - rewrite IH. destruct (P a); [|reflexivity].
    rewrite <- app_assoc. reflexivity.
Qed.

Lemma selectIndexes_filter minFOV maxFOV :
  selectIndexes minFOV maxFOV
  = List.filter (overlaps minFOV maxFOV) AllIndexFiles.
Proof. unfold selectIndexes. apply select_fold. Qed.

Lemma AllIndexFiles_chain : chain AllIndexFiles.
Proof. unfold AllIndexFiles. cbn [chain MinFOV MaxFOV]. repeat split. Qed.

Lemma AllIndexFiles_bounds idx :
  In idx AllIndexFiles ->
  (MaxFOV idx <=? widest)%f64 = true /\ (narrowest <=? MinFOV idx)%f64 = true.
Proof.
  unfold AllIndexFiles. cbn [In]. intros H.
  repeat (destruct H as [<-|H]; [split; reflexivity|]). contradiction.
Qed.

(** Along a chain the bounds go down. *)
Lemma chain_later a t c :
  chain (a :: t) -> In c t ->
  (MaxFOV c <=? MaxFOV a)%f64 = true /\ (MinFOV c <=? MinFOV a)%f64 = true.
Proof.
  revert a. induction t as [|b t IH]; intros a Hch Hin; [contradiction|].
  cbn [chain] in Hch. destruct Hch as (Ha & Hab & Hb & Hbt & Ht).
  assert (Hb1 : (MaxFOV b <=? MaxFOV a)%f64 = true).
  { rewrite Hab. exact Ha. }
  assert (Hb2 : (MinFOV b <=? MinFOV a)%f64 = true).
  { rewrite <- Hab. exact Hb. }
  destruct Hin as [<-|Hin]; [split; assumption|].
  destruct (IH b) as [H1 H2]; [cbn [chain]; auto|exact Hin|].
  split; [apply (leb_trans _ (MaxFOV b))|apply (leb_trans _ (MinFOV b))];
    assumption.
Qed.

Lemma chain_tail a t : chain (a :: t) -> chain t.
Proof. cbn [chain]. tauto. Qed.

(** In a chain whose first index reaches up to the range and whose last
    index reaches down to it, some index overlaps the range. *)
Lemma chain_covers minFOV maxFOV l :
  chain l -> l <> [] ->
  (minFOV <=? maxFOV)%f64 = true ->
  (forall a t, l = a :: t -> (MaxFOV a >=? minFOV)%f64 = true) ->
  (MinFOV (List.last l (mkIndexFile "" nan nan nan "")) <=? maxFOV)%f64 = true ->
  exists idx, In idx l /\ overlaps minFOV maxFOV idx = true.
Proof.
  intros Hch Hne Hrange. induction l as [|a t IH]; [contradiction|].
  intros Hfirst Hlast.
  pose proof (Hfirst a t eq_refl) as Ha.
  destruct (MinFOV a <=? maxFOV)%f64 eqn:Hmin.
  { exists a. split; [left; reflexivity|]. unfold overlaps.
    rewrite Ha, Hmin. reflexivity. }
  destruct t as [|b t].
  { cbn [List.last] in Hlast. congruence. }
  cbn [chain] in Hch. destruct Hch as (Hab & Hlink & Hcht).
  destruct (leb_not_nan _ _ Hab) as [Hn1 _].
  destruct (leb_not_nan _ _ Hrange) as [_ Hn2].
  pose proof (leb_false_ltb _ _ Hn1 Hn2 Hmin) as Hlt.
  destruct IH as (idx & Hin & Ho).
  - exact Hcht.
  - discriminate.
  - intros a' t' [= <- <-]. unfold geb. rewrite Hlink.
    apply (leb_ltb_trans _ maxFOV); assumption.
  - exact Hlast.
  - exists idx. split; [right; exact Hin|exact Ho].
Qed.

Lemma filter_none (P : IndexFile -> bool) l :
  (forall c, In c l -> P c = false) -> List.filter P l = [].
Proof.
  induction l as [|c l IH]; intros H; [reflexivity|].
  cbn [List.filter]. rewrite (H c (or_introl eq_refl)).
  apply IH. intros x Hx. apply H. right. exact Hx.
Qed.

(** In a chain whose indexes all begin at or below the upper end of the
    range, those that overlap the range come first. *)
Lemma chain_prefix minFOV maxFOV l :
  chain l ->
  (forall c, In c l -> (MinFOV c <=? maxFOV)%f64 = true) ->
  exists post, l = List.filter (overlaps minFOV maxFOV) l ++ post.
Proof.
  induction l as [|b t IH]; intros Hch Hmin; [exists []; reflexivity|].
  cbn [List.filter]. destruct (overlaps minFOV maxFOV b) eqn:Hb.
  - destruct IH as [post Hpost].
    + eapply chain_tail, Hch.
    + intros c Hc. apply Hmin. right. exact Hc.
    + exists post. cbn [app]. f_equal. exact Hpost.
  - rewrite filter_none; [exists (b :: t); reflexivity|].
    intros c Hc. unfold overlaps in *.
    rewrite (Hmin b (or_introl eq_refl)), andb_true_r in Hb.
    destruct (MaxFOV c >=? minFOV)%f64 eqn:E; [|reflexivity].
    exfalso. unfold geb in *.
    destruct (chain_later b t c Hch Hc) as [H1 _].
    rewrite (leb_trans _ _ _ E H1) in Hb. discriminate.
Qed.

(** What overlaps the range in a chain is a run of it. *)
Lemma chain_run minFOV maxFOV l :
  chain l ->
  exists pre post, l = pre ++ List.filter (overlaps minFOV maxFOV) l ++ post.
Proof.
  induction l as [|a t IH]; intros Hch; [exists [], []; reflexivity|].
  destruct (MinFOV a <=? maxFOV)%f64 eqn:Hmin.
  - destruct (chain_prefix minFOV maxFOV (a :: t) Hch) as [post Hpost].
    + intros c [<-|Hc]; [exact Hmin|].
      destruct (chain_later a t c Hch Hc) as [_ H2].
      apply (leb_trans _ (MinFOV a)); assumption.
    + exists [], post. exact Hpost.
  - destruct (IH (chain_tail _ _ Hch)) as (pre & post & Ht).
    exists (a :: pre), post. cbn [List.filter]. unfold overlaps at 1.
    rewrite Hmin, andb_false_r. cbn [app]. f_equal. exact Ht.
Qed.

(** X25: the indexes that RecommendIndexes and RecommendIndexesForLens pick
    before sorting are those of the table whose field overlaps the range
    from minFOV to maxFOV, in the order of the table, and they are
    neighbours in it; at least one is picked whenever minFOV <= maxFOV and
    the range meets the fields from 0.1 to 11 degrees that the table
    covers; none is picked unless minFOV <= 11 and 0.1 <= maxFOV, and so
    none when a bound of the range is NaN. *)
Theorem indexes_picked_for_a_range (minFOV maxFOV : float64) :
  let picked := selectIndexes minFOV maxFOV in
  picked = List.filter (overlaps minFOV maxFOV) AllIndexFiles /\
  (exists pre post, AllIndexFiles = pre ++ picked ++ post) /\
  (picked <> [] ->
   (minFOV <=? widest)%f64 = true /\ (narrowest <=? maxFOV)%f64 = true) /\
  ((minFOV <=? maxFOV)%f64 = true -> (minFOV <=? widest)%f64 = true ->
   (narrowest <=? maxFOV)%f64 = true -> picked <> []) /\
  (is_nan minFOV || is_nan maxFOV = true -> picked = []).
Proof.
  intros picked. unfold picked. rewrite selectIndexes_filter.
  split; [reflexivity|]. split; [apply chain_run, AllIndexFiles_chain|].
  split; [|split].
  - intros Hne.
    destruct (List.filter (overlaps minFOV maxFOV) AllIndexFiles)
      as [|idx rest] eqn:E; [contradiction|].
    assert (Hin : In idx (List.filter (overlaps minFOV maxFOV) AllIndexFiles)).
    { rewrite E. left. reflexivity. }
    apply filter_In in Hin. destruct Hin as [Hin Ho].
    unfold overlaps, geb in Ho. apply andb_true_iff in Ho.
    destruct Ho as [H1 H2].
    destruct (AllIndexFiles_bounds idx Hin) as [B1 B2].
    split; [apply (leb_trans _ (MaxFOV idx))|apply (leb_trans _ (MinFOV idx))];
      assumption.
  - intros Hrange Hlo Hhi.
    destruct (chain_covers minFOV maxFOV AllIndexFiles) as (idx & Hin & Ho).
    + apply AllIndexFiles_chain.
    + discriminate.
    + exact Hrange.
    + intros a t [= <- <-]. exact Hlo.
    + exact Hhi.
    + intros E.
      assert (Hf : In idx (List.filter (overlaps minFOV maxFOV) AllIndexFiles)).
      { apply filter_In. auto. }
      rewrite E in Hf. contradiction.
  - intros Hnan. apply filter_none. intros c _. unfold overlaps, geb.
    apply orb_true_iff in Hnan. destruct Hnan as [H|H].
    + destruct minFOV; try discriminate.
      destruct (MaxFOV c); reflexivity.
    + destruct maxFOV; try discriminate.
      assert (E : (MinFOV c <=? S754_nan)%f64 = false)
        by (destruct (MinFOV c); reflexivity).
      rewrite E. apply andb_false_r.
Qed.

(** * Witnesses and counterexamples on the test vectors *)

(** C4 as stated fails: a file without CRVAL2 that has CRVAL1 and both
    image dimensions takes the primary path, and the returned RA is
    10 + 1 * (100/2 - 0) = 60, not the CRVAL1 value 10. *)
Lemma missing_crval2_takes_primary_path :
  readHeader no_crval2_file !! "CRVAL2" = None /\
  usePrimary (extractParams (lib := RefLib) (readHeader no_crval2_file)) = true /\
  exists r,
    ParseWCSFile (lib := RefLib) 0 test_fs "no_crval2.wcs" = Some (Some r, None) /\
    crval1 (extractParams (lib := RefLib) (readHeader no_crval2_file)) = of_Z 10 /\
    RA r = of_Z 60 /\
    (RA r == crval1 (extractParams (lib := RefLib) (readHeader no_crval2_file)))%f64
      = false.
Proof.
  split; [vm_compute; reflexivity|].
  split; [vm_compute; reflexivity|].
  eexists. split; [vm_compute; reflexivity|].
  split; [vm_compute; reflexivity|].
  split; vm_compute; reflexivity.
Qed.

Lemma fallback_when_reference_or_dimension_absent_witness :
  usePrimary (extractParams (lib := RefLib) (readHeader no_dimensions_file)) = false /\
  forall fuel, exists r,
    computeResult (lib := RefLib) fuel (readHeader no_dimensions_file) = Some r /\
    ParseWCSFile (lib := RefLib) fuel test_fs "no_dimensions.wcs" = Some (validate r) /\
    RA r = floatVar (lib := RefLib) (readHeader no_dimensions_file) "CRVAL1" /\
    Dec r = floatVar (lib := RefLib) (readHeader no_dimensions_file) "CRVAL2".
Proof.
  apply (fallback_when_reference_or_dimension_absent (lib := RefLib)
           test_fs "no_dimensions.wcs" no_dimensions_file).
  - reflexivity.
  - right; left. split; vm_compute; reflexivity.
Defined.

(** The file of TestParseWCSFile_Success is parsed into a Result. *)
Lemma success_file_parses :
  exists r,
    ParseWCSFile (lib := RefLib) 0 test_fs "success.wcs" = Some (Some r, None) /\
    WCSHeader r !! "CTYPE1" = Some "RA---TAN" /\
    Some (RA r) = ParseFloat_ref "83.423" /\
    Some (Dec r) = ParseFloat_ref "-5.893" /\
    (const "4.1" <? PixelScale r)%f64 = true /\
    (PixelScale r <? const "4.5")%f64 = true /\
    (const "20" <? Rotation r)%f64 = true /\
    (Rotation r <? const "24")%f64 = true.
Proof.
  eexists. split; [vm_compute; reflexivity|].
  repeat split; vm_compute; reflexivity.
Qed.

Lemma returned_result_is_solved_witness :
  exists r,
    ParseWCSFile (lib := RefLib) 0 test_fs "success.wcs" = Some (Some r, None) /\
    Solved r = true.
Proof.
  eexists. split; [vm_compute; reflexivity|].
  eapply (returned_result_is_solved (lib := RefLib) 0 test_fs "success.wcs").
  vm_compute; reflexivity.
Defined.

Lemma parse_failed_iff_no_fields_witness :
  exists r,
    computeResult (lib := RefLib) 0 (readHeader end_only_file) = Some r /\
    (ParseWCSFile (lib := RefLib) 0 test_fs "end_only.wcs"
       = Some (None, Some wcsParseFailed) <->
     ((RA r == zero) && (Dec r == zero) && (PixelScale r == zero))%f64 = true).
Proof.
  eexists. split; [vm_compute; reflexivity|].
  eapply (parse_failed_iff_no_fields (lib := RefLib) 0 test_fs "end_only.wcs"
            end_only_file).
  - reflexivity.
  - vm_compute; reflexivity.
Defined.

Lemma open_failure_is_io_error_witness :
  ParseWCSFile (lib := RefLib) 0 test_fs "/nonexistent/file.wcs"
    = Some (None, Some (Errorf_w_suffix "failed to open WCS file"
                          (PathError "open" "/nonexistent/file.wcs" 2))) /\
  errors_Is (Errorf_w_suffix "failed to open WCS file"
               (PathError "open" "/nonexistent/file.wcs" 2))
            ErrWCSParseFailed = false.
Proof.
  destruct (open_failure_is_io_error (lib := RefLib) 0 test_fs
              "/nonexistent/file.wcs" 2%nat) as (H1 & _ & H2 & _).
  - reflexivity.
  - split; [exact H1 | exact H2].
Defined.

Lemma pixel_scale_not_negative_witness :
  exists r,
    ParseWCSFile (lib := RefLib) 0 test_fs "no_dimensions.wcs"
      = Some (Some r, None) /\
    (PixelScale r <? zero)%f64 = false.
Proof.
  eexists. split; [vm_compute; reflexivity|].
  eapply (pixel_scale_not_negative (lib := RefLib) 0 test_fs "no_dimensions.wcs").
  vm_compute; reflexivity.
Defined.

Lemma field_dimensions_last_write_wins_witness :
  exists r,
    computeResult (lib := RefLib) 0 (readHeader two_widths_file) = Some r /\
    FieldWidth r = ((of_Z 200 * PixelScale r) / c3600)%f64 /\
    FieldHeight r = ((of_Z 400 * PixelScale r) / c3600)%f64.
Proof.
  eexists. split; [vm_compute; reflexivity|].
  match goal with
  | |- FieldWidth ?r = _ /\ _ =>
      destruct (field_dimensions_last_write_wins (lib := RefLib) 0
                  (readHeader two_widths_file) r) as [[Hw Hh] _]
  end.
  - vm_compute; reflexivity.
  - vm_compute; reflexivity.
  - split.
    + apply (Hw "100" (of_Z 100) "200" (of_Z 200)); vm_compute; reflexivity.
    + apply (Hh "100" (of_Z 100) "400" (of_Z 400)); vm_compute; reflexivity.
Defined.

(** C1 as stated fails: a file whose CRVAL1 is 0 and whose image
    dimensions are 100 and 100, with no other key, meets the condition of
    the claim and takes the primary path; RA, Dec and PixelScale are all
    zero there, and the call returns the WCS-parse-failed error and no
    Result, so no RA, Dec or PixelScale is returned. *)
Lemma zero_reference_returns_no_result :
  readHeader zero_reference_file !! "CRVAL1" = Some "0" /\
  ParseFloat_ref "0" = Some zero /\
  (imageDim (lib := RefLib) (readHeader zero_reference_file)
     "IMAGEW" "NAXIS1" >? zero)%f64 = true /\
  (imageDim (lib := RefLib) (readHeader zero_reference_file)
     "IMAGEH" "NAXIS2" >? zero)%f64 = true /\
  usePrimary (extractParams (lib := RefLib) (readHeader zero_reference_file))
    = true /\
  (forall fuel,
     ParseWCSFile (lib := RefLib) fuel gate_fs "zero_reference.wcs"
       = Some (None, Some wcsParseFailed)) /\
  (forall fuel r e,
     ParseWCSFile (lib := RefLib) fuel gate_fs "zero_reference.wcs"
       <> Some (Some r, e)).
Proof.
  assert (H : forall fuel,
            ParseWCSFile (lib := RefLib) fuel gate_fs "zero_reference.wcs"
              = Some (None, Some wcsParseFailed)).
  { intros fuel.
    apply (ParseWCSFile_more (lib := RefLib) 0 fuel gate_fs
             "zero_reference.wcs").
    vm_compute. reflexivity. }
  do 5 (split; [vm_compute; reflexivity|]).
  split; [exact H|].
  intros fuel r e. rewrite H. discriminate.
Qed.

Lemma primary_path_center_witness :
  exists r,
    ParseWCSFile (lib := RefLib) 1 gate_fs "offcenter.wcs"
      = Some (Some r, None) /\
    RA r = of_Z 85 /\ Dec r = of_Z (-5) /\
    floatVar (lib := RefLib) (readHeader offcenter_file) "CRVAL1" = of_Z 10 /\
    floatVar (lib := RefLib) (readHeader offcenter_file) "CRVAL2" = of_Z 20.
Proof.
  destruct (primary_path_center (lib := RefLib) gate_fs "offcenter.wcs"
              offcenter_file "10" (of_Z 10))
    as (_ & _ & _ & _ & _ & Hreturns); try (vm_compute; reflexivity).
  destruct (Hreturns ltac:(vm_compute; reflexivity) 0%nat)
    as (r & _ & HRA & HDec & _ & Hp).
  exists r. split.
  - rewrite Hp. vm_compute. reflexivity.
  - rewrite HRA, HDec. repeat split; vm_compute; reflexivity.
Defined.

(** A file that has CRVAL1 and both image dimensions but none of CRVAL2,
    CRPIX1, CRPIX2 and the CD keys takes the primary path: the Rotation
    returned is the 180 of the transform, not the CROTA2 value of the
    fallback path. *)
Lemma only_crval1_gates_primary_witness :
  (forall k, In k ungatedKeys -> readHeader crval1_only_file !! k = None) /\
  usePrimary (extractParams (lib := RefLib) (readHeader crval1_only_file))
    = true /\
  floatVar (lib := RefLib) (readHeader crval1_only_file) "CROTA2" = zero /\
  exists r,
    ParseWCSFile (lib := RefLib) 1 gate_fs "crval1_only.wcs"
      = Some (Some r, None) /\
    RA r = of_Z 10 /\ Rotation r = c180.
Proof.
  destruct (only_crval1_gates_primary (lib := RefLib)
              (readHeader crval1_only_file)) as ([_ Hgate] & Hprimary & _).
  assert (G : (exists s v,
                 readHeader crval1_only_file !! "CRVAL1" = Some s /\
                 ParseFloat (StdLib := RefLib) s = Some v)).
  { exists "10", (of_Z 10). split; vm_compute; reflexivity. }
  split.
  { intros k Hk. unfold ungatedKeys in Hk.
    repeat (destruct Hk as [<- | Hk]; [vm_compute; reflexivity|]).
    inversion Hk. }
  split.
  { apply Hgate. split; [exact G|]. split; vm_compute; reflexivity. }
  split; [vm_compute; reflexivity|].
  destruct Hprimary as [Hfields Hreturns].
  { split; [exact G|]. split; vm_compute; reflexivity. }
  destruct (Hreturns ltac:(vm_compute; reflexivity) 0%nat) as (r & Hr).
  destruct (Hfields _ _ Hr) as (HRA & _ & _ & Hrot).
  assert (E : ParseWCSFile (lib := RefLib) 1 gate_fs "crval1_only.wcs"
              = Some (validate r)).
  { rewrite (ParseWCSFile_opened (lib := RefLib) 1 gate_fs "crval1_only.wcs"
               crval1_only_file eq_refl).
    rewrite Hr. reflexivity. }
  assert (Z : noFields r = false).
  { unfold noFields. rewrite HRA. vm_compute. reflexivity. }
  exists r. split; [|split].
  - rewrite E. unfold validate. rewrite Z. reflexivity.
  - rewrite HRA. vm_compute. reflexivity.
  - assert (E180 : Some (Rotation r) = Some c180)
      by (rewrite <- Hrot; vm_compute; reflexivity).
    injection E180 as E180. exact E180.
Defined.

(** C5 as stated fails: a header whose CD1_1 is the text NaN, which
    strconv.ParseFloat accepts, takes the primary path; math.Atan2 returns
    NaN for it, no loop runs, and the returned Rotation is NaN, which is
    neither at least 0 nor below 360. *)
Lemma nan_header_rotation_not_in_range :
  usePrimary (extractParams (lib := RefLib) (readHeader nan_cd_file)) = true /\
  exists r,
    ParseWCSFile (lib := RefLib) 1 test_fs "nan_cd.wcs" = Some (Some r, None) /\
    Rotation r = nan /\
    (Rotation r >=? zero)%f64 = false /\ (Rotation r <? c360)%f64 = false.
Proof.
  split; [vm_compute; reflexivity|].
  eexists. split; [vm_compute; reflexivity|].
  repeat split.
Qed.

Lemma rotation_of_each_path_witness :
  exists r,
    computeResult (lib := RefLib) 1 (readHeader success_file) = Some r /\
    (Rotation r >=? zero)%f64 = true /\ (Rotation r <? c360)%f64 = true.
Proof.
  destruct (rotation_of_each_path (lib := RefLib) test_fs "success.wcs"
              success_file) as [H _]; [vm_compute; reflexivity|].
  destruct (H ltac:(vm_compute; reflexivity) ltac:(vm_compute; reflexivity)
              0%nat) as (r & Hr & _ & _ & Hrange & _).
  exists r. split; [exact Hr|]. apply Hrange. vm_compute; reflexivity.
Defined.

(** * The further properties on test vectors *)

Lemma short_file_is_parse_failure_witness :
  readHeader short_file = empty /\
  ParseWCSFile (lib := RefLib) 0 solve_fs "short.wcs"
    = Some (None, Some wcsParseFailed).
Proof.
  apply (short_file_is_parse_failure (lib := RefLib) 0 solve_fs "short.wcs"
           short_file).
  - reflexivity.
  - vm_compute. lia.
Defined.

Lemma no_reference_no_scale_is_parse_failure_witness :
  readHeader no_reference_file !! "CROTA2" = Some "30" /\
  ParseWCSFile (lib := RefLib) 0 solve_fs "no_reference.wcs"
    = Some (None, Some wcsParseFailed).
Proof.
  split; [vm_compute; reflexivity|].
  apply (no_reference_no_scale_is_parse_failure (lib := RefLib) 0 solve_fs
           "no_reference.wcs" no_reference_file); vm_compute; reflexivity.
Defined.

Lemma header_of_two_blocks_witness :
  readHeader (end_only_file +:+ no_dimensions_file) !! "CRVAL1" = Some "10".
Proof.
  destruct (header_of_two_blocks end_only_file no_dimensions_file) as [_ H];
    [vm_compute; reflexivity|].
  rewrite H. vm_compute. reflexivity.
Defined.

Lemma header_entries_are_trimmed_witness :
  readHeader success_file !! "CTYPE1" = Some "RA---TAN" /\
  TrimSpace "RA---TAN" = "RA---TAN" /\
  IndexByte "RA---TAN" "/"%char = None.
Proof.
  split; [vm_compute; reflexivity|].
  destruct (header_entries_are_trimmed success_file "CTYPE1" "RA---TAN")
    as (_ & _ & Hv & Hs); [vm_compute; reflexivity|].
  split; [exact Hv | exact Hs].
Defined.

Lemma card_is_read_back_witness :
  parseRecord
    ("CTYPE1" +:+ spaces 2 +:+ "=" +:+ spaces 1 +:+ "'" +:+ "RA---TAN"
       +:+ spaces 3 +:+ "'" +:+ spaces 5 +:+ "/" +:+ " WCS projection type")
    empty
  = <["CTYPE1" := "RA---TAN"]> empty.
Proof.
  apply (card_is_read_back "CTYPE1" "RA---TAN" " WCS projection type"
           2 1 5 3 true true empty); vm_compute; reflexivity.
Defined.

Lemma other_keys_change_only_the_header_witness :
  exists r r',
    computeResult (lib := RefLib) 1 (readHeader success_file) = Some r /\
    computeResult (lib := RefLib) 1
      (partial_alter (fun _ => Some "made up") "COMMENT"
         (readHeader success_file)) = Some r' /\
    RA r' = RA r /\ Dec r' = Dec r /\ PixelScale r' = PixelScale r.
Proof.
  assert (Hr : exists r,
            computeResult (lib := RefLib) 1 (readHeader success_file) = Some r).
  { eexists. vm_compute. reflexivity. }
  destruct Hr as [r Hr].
  destruct (other_keys_change_only_the_header (lib := RefLib) 1
              (readHeader success_file) "COMMENT" (Some "made up") r)
    as (r' & Hr' & _ & HRA & HDec & HPS & _).
  - cbn. intuition discriminate.
  - exact Hr.
  - exists r, r'. auto.
Defined.

Lemma unparsable_dimension_selects_fallback_witness :
  readHeader bad_width_file !! "NAXIS1" = Some "200" /\
  usePrimary (extractParams (lib := RefLib) (readHeader bad_width_file)) = false /\
  exists r,
    computeResult (lib := RefLib) 0 (readHeader bad_width_file) = Some r /\
    RA r = of_Z 10.
Proof.
  split; [vm_compute; reflexivity|].
  destruct (unparsable_dimension_selects_fallback (lib := RefLib) 0
              (readHeader bad_width_file) "wide")
    as (Hu & r & Hr & HRA & _).
  - left. vm_compute. reflexivity.
  - vm_compute. reflexivity.
  - split; [exact Hu|]. exists r. split; [exact Hr|].
    rewrite HRA. vm_compute. reflexivity.
Defined.

Lemma dimension_keys_precedence_witness :
  exists r,
    computeResult (lib := RefLib) 1 (readHeader two_widths_file) = Some r /\
    FieldWidth r = ((of_Z 200 * PixelScale r) / c3600)%f64 /\
    imageW (extractParams (lib := RefLib) (readHeader two_widths_file))
      = of_Z 100.
Proof.
  destruct (computeResult (lib := RefLib) 1 (readHeader two_widths_file))
    as [r|] eqn:Hr; [|vm_compute in Hr; discriminate].
  pose proof (dimension_keys_precedence (lib := RefLib) 1
                (readHeader two_widths_file) r Hr) as H.
  cbv zeta beta in H. destruct H as (HW & _ & Hi & _).
  assert (Hps : (PixelScale r >? zero)%f64 = true).
  { assert (E : option_map (fun r => (PixelScale r >? zero)%f64)
                  (computeResult (lib := RefLib) 1
                     (readHeader two_widths_file)) = Some true)
      by (vm_compute; reflexivity).
    rewrite Hr in E. injection E as E. exact E. }
  assert (En : headerFloat (lib := RefLib) (readHeader two_widths_file)
                 "NAXIS1" = Some (of_Z 200)) by (vm_compute; reflexivity).
  assert (Ei : readHeader two_widths_file !! "IMAGEW" = Some "100")
    by (vm_compute; reflexivity).
  rewrite Hps, En in HW. rewrite Ei in Hi.
  exists r. split; [reflexivity|]. split; [exact HW|].
  rewrite Hi. vm_compute. reflexivity.
Defined.

Lemma reference_pixel_at_center_witness :
  exists r,
    computeResult (lib := RefLib) 1 (readHeader success_file) = Some r /\
    RA r = const "83.423" /\ Dec r = const "-5.893".
Proof.
  destruct (reference_pixel_at_center (lib := RefLib) 0
              (readHeader success_file))
    as (r & Hr & _ & _ & HRA & HDec); try (vm_compute; reflexivity).
  exists r. split; [exact Hr|]. split.
  - etransitivity; [eapply HRA|]; vm_compute; reflexivity.
  - etransitivity; [eapply HDec|]; vm_compute; reflexivity.
Defined.

Lemma nan_reference_is_returned_witness :
  exists r,
    ParseWCSFile (lib := RefLib) 1 solve_fs "nan_reference.wcs"
      = Some (Some r, None) /\
    Solved r = true /\ RA r = nan.
Proof.
  destruct (nan_reference_is_returned (lib := RefLib) 0 solve_fs
              "nan_reference.wcs" nan_reference_file)
    as (r & Hr & Hs & HRA & _).
  - reflexivity.
  - left. vm_compute. reflexivity.
  - intros _. vm_compute. reflexivity.
  - exists r. split; [exact Hr|]. split; [exact Hs|].
    apply HRA. vm_compute. reflexivity.
Defined.

Lemma missing_wcs_file_is_an_error_witness :
  wcsPathOf (paths := RefPaths) "/tmp/astrometry-1" "m31.jpg"
    = "/tmp/astrometry-1/m31.wcs" /\
  finishSolve (lib := RefLib) (paths := RefPaths) solve_stat 0 solve_fs
    "/tmp/astrometry-1" "m31.jpg" false None "" zero
  = Some (None,
          Some (Errorf_w_suffix "failed to open WCS file"
                  (PathError "open" "/tmp/astrometry-1/m31.wcs" ENOENT))).
Proof.
  split; [vm_compute; reflexivity|].
  destruct (missing_wcs_file_is_an_error (lib := RefLib) (paths := RefPaths)
              solve_stat 0 solve_fs "/tmp/astrometry-1" "m31.jpg" "" zero)
    as (H & _).
  - vm_compute. reflexivity.
  - exact H.
Defined.

Lemma solve_outcomes_witness :
  exists res e,
    finishSolve (lib := RefLib) (paths := RefPaths) solve_stat 1 solve_fs
      "/tmp/astrometry-1" "m42.jpg" false (Some "exit status 255")
      "Did not solve (or no WCS file was written)." zero = Some (res, e) /\
    res = Some unsolved /\ e = None.
Proof.
  destruct (solve_outcomes (lib := RefLib) (paths := RefPaths) solve_stat 0
              solve_fs "/tmp/astrometry-1" "m42.jpg" false
              (Some "exit status 255")
              "Did not solve (or no WCS file was written)." zero)
    as (res & e & H & Hcases).
  - vm_compute. intros _. reflexivity.
  - exists res, e. split; [exact H|].
    destruct Hcases as [(Ht & _)|[(_ & _ & _ & Hres & He)|
                       [(_ & Hc & _)|[(_ & Hc & _)|(_ & Hc & _)]]]];
      try discriminate; auto.
Defined.

Lemma solve_error_kinds_witness :
  let err := Errorf_w_suffix "failed to open WCS file"
               (PathError "open" "/tmp/astrometry-1/m31.wcs" ENOENT) in
  errors_Is err ErrNoSolution = false /\
  errors_Is err ErrWCSParseFailed = false /\
  error_cause err = PathError "open" "/tmp/astrometry-1/m31.wcs" ENOENT.
Proof.
  destruct (solve_error_kinds (lib := RefLib) (paths := RefPaths) solve_stat
              0 solve_fs "/tmp/astrometry-1" "m31.jpg" false None "" zero
              None
              (Errorf_w_suffix "failed to open WCS file"
                 (PathError "open" "/tmp/astrometry-1/m31.wcs" ENOENT)))
    as (_ & _ & Hn & _).
  - vm_compute. reflexivity.
  - split; [exact Hn|]. split; reflexivity.
Defined.

Lemma olympus_and_panasonic_are_micro_four_thirds_witness :
  Fov.detectSensor "OLYMPUS CORPORATION" "a model of no table"
  = (Fov.MicroFourThirds, "exif").
Proof.
  apply (olympus_and_panasonic_are_micro_four_thirds "OLYMPUS CORPORATION"
           "a model of no table"); vm_compute; reflexivity.
Defined.

Lemma canon_EOS_R10_is_taken_for_full_frame_witness :
  Fov.detectSensor "Canon" "Canon EOS R10" = (Fov.FullFrame, "exif").
Proof.
  apply (canon_EOS_R10_is_taken_for_full_frame "Canon" "Canon EOS R10");
    vm_compute; reflexivity.
Defined.
